(** * kirimase: src/commands/add/utils.ts

    A shallow embedding of the layout patcher ([addContextProviderToLayout]),
    the install-list aggregators ([addToInstallList],
    [installPackagesFromList], [addToShadcnComponentList],
    [installShadcnComponentList]) and the summary reporter
    ([printNextSteps], [showNextSteps]), followed by the properties of the
    specification that concern them.

    JavaScript strings are modelled as lists of characters ([list ascii]);
    a character stands for a UTF-16 code unit below 256, and texts with
    other code units are outside the model. Every search pattern of the
    source is plain ASCII; the one literal that is not (the rocket of the
    summary, which is only printed) is stood for by the bytes of its UTF-8
    encoding. *)

From Stdlib Require Import List Ascii ZArith Lia Bool Arith Permutation.
From Stdlib Require String DecimalString.
Import ListNotations String.StringSyntax.

Delimit Scope string_scope with string.

(** ** JavaScript string primitives used by the source *)

Module JS.

Definition jsstring := list ascii.

(** A string literal of the source. *)
Definition str (s : String.string) : jsstring :=
  String.list_ascii_of_string s.

Arguments str s%_string.

Definition len (s : jsstring) : Z := Z.of_nat (length s).

(** [startsWith s pat]: [pat] occurs in [s] at index 0. *)
Fixpoint startsWith (s pat : jsstring) : bool :=
  match pat, s with
  | [], _ => true
  | _ :: _, [] => false
  | a :: pat', b :: s' => Ascii.eqb a b && startsWith s' pat'
  end.

Arguments startsWith : simpl nomatch.

(** [s.includes(pat)] *)
Fixpoint includes (s pat : jsstring) : bool :=
  startsWith s pat
  || match s with
     | [] => false
     | _ :: s' => includes s' pat
     end.

(** Index of the first occurrence of [pat] in [s]. *)
Fixpoint find (s pat : jsstring) : option nat :=
  if startsWith s pat then Some 0
  else match s with
       | [] => None
       | _ :: s' => option_map S (find s' pat)
       end.

(** Index of the last occurrence of [pat] in [s]. *)
Fixpoint findLast (s pat : jsstring) : option nat :=
  match s with
  | [] => if startsWith s pat then Some 0 else None
  | _ :: s' =>
      match findLast s' pat with
      | Some i => Some (S i)
      | None => if startsWith s pat then Some 0 else None
      end
  end.

(** [s.indexOf(pat, from)]: [from] is clamped to [0 .. s.length]; -1 when
    there is no occurrence at or after it. *)
Definition indexOf (s pat : jsstring) (from : Z) : Z :=
  let k := Z.to_nat (Z.min (Z.max from 0) (len s)) in
  match find (skipn k s) pat with
  | Some i => Z.of_nat (k + i)
  | None => (-1)%Z
  end.

(** [s.lastIndexOf(pat)] *)
Definition lastIndexOf (s pat : jsstring) : Z :=
  match findLast s pat with
  | Some i => Z.of_nat i
  | None => (-1)%Z
  end.

(** Relative index of [slice]: negative counts from the end. *)
Definition relIndex (n i : Z) : nat :=
  Z.to_nat (if (i <? 0)%Z then Z.max (n + i) 0 else Z.min i n).

(** [s.slice(start, end)]; [None] stands for an omitted [end]. *)
Definition slice (s : jsstring) (start : Z) (end_ : option Z) : jsstring :=
  let from := relIndex (len s) start in
  let to := match end_ with
            | None => length s
            | Some e => relIndex (len s) e
            end in
  firstn (to - from) (skipn from s).

(** [s.replace(pat, rep)] with a string pattern: the first occurrence only.
    The replacement is taken literally; JavaScript gives "$" a special
    meaning in [rep], and no replacement text of the source contains it
    (lemma [replacementText_no_dollar]). *)
Fixpoint replace (s pat rep : jsstring) : jsstring :=
  if startsWith s pat then rep ++ skipn (length pat) s
  else match s with
       | [] => []
       | c :: s' => c :: replace s' pat rep
       end.

(** White space and line terminators removed by [trim], among the code
    units below 256: TAB, LF, VT, FF, CR, SP, NBSP (160). [trim] also
    removes U+1680, U+2000 to U+200A, U+2028, U+2029, U+202F, U+205F, U+3000
    and U+FEFF, which the strings of the model cannot hold. *)
Definition isSpace (c : ascii) : bool :=
  let n := nat_of_ascii c in
  ((9 <=? n) && (n <=? 13)) || (n =? 32) || (n =? 160).

Fixpoint trimStart (s : jsstring) : jsstring :=
  match s with
  | [] => []
  | c :: s' => if isSpace c then trimStart s' else s
  end.

Definition trimEnd (s : jsstring) : jsstring := rev (trimStart (rev s)).

(** [s.trim()] *)
Definition trim (s : jsstring) : jsstring := trimEnd (trimStart s).

(** [l.join(sep)] *)
Fixpoint join (sep : jsstring) (l : list jsstring) : jsstring :=
  match l with
  | [] => []
  | [x] => x
  | x :: l' => x ++ sep ++ join sep l'
  end.

Definition eqb (a b : jsstring) : bool :=
  if list_eq_dec ascii_dec a b then true else false.

(** [l.includes(x)] on an array of strings. *)
Definition arrayIncludes (l : list jsstring) (x : jsstring) : bool :=
  existsb (eqb x) l.

(** [[...new Set(l)]]: the distinct elements of [l], each at the place of
    its first occurrence. *)
Fixpoint dedupInto (seen l : list jsstring) : list jsstring :=
  match l with
  | [] => []
  | x :: l' =>
      if arrayIncludes seen x then dedupInto seen l'
      else x :: dedupInto (x :: seen) l'
  end.

Definition setSpread (l : list jsstring) : list jsstring := dedupInto [] l.

(** Decimal rendering of a natural number, as in a template literal. *)
Definition ofNat (n : nat) : jsstring :=
  str (DecimalString.NilZero.string_of_uint (Nat.to_uint n)).

End JS.
Import JS.

(** ** Errors and results *)

(** What the functions of the file can throw: a [TypeError] (a property read
    from [undefined] or [null]) and the [ENOENT] of [fs.readFileSync]. *)
Inductive Error : Type :=
| TypeError
| ENOENT (path : jsstring).

Inductive Result (A : Type) : Type :=
| Ok (a : A)
| Throw (e : Error).

Arguments Ok {A} a.
Arguments Throw {A} e.

Definition bind {A B : Type} (r : Result A) (k : A -> Result B) : Result B :=
  match r with
  | Ok a => k a
  | Throw e => Throw e
  end.

Notation "x <- r ;; k" := (bind r (fun x => k))
  (at level 61, r at next level, right associativity).

Fixpoint mapM {A B : Type} (f : A -> Result B) (l : list A)
  : Result (list B) :=
  match l with
  | [] => Ok []
  | a :: l' => b <- f a ;; bs <- mapM f l' ;; Ok (b :: bs)
  end.

(** ** Collaborators and module state *)

(** The part of the configuration file that this module reads. *)
Record Config : Type := {
  hasSrc : bool;
  alias : jsstring;
  preferredPackageManager : option jsstring
}.

(** The import paths that the patcher splices into its import statements.
    They are the values of [formatFilePath] (commands/filePaths/index.ts)
    on the entries of [getFilePaths ()]; both are outside this file and are
    taken as given. *)
Record ImportPaths : Type := {
  authProviderComponent : jsstring;
  trpcProvider : jsstring;
  navbarComponent : jsstring;
  sidebarComponent : jsstring
}.

(** Calls that leave the module. *)
Inductive Call : Type :=
| ReplaceFile (path content : jsstring)
| SpinnerText (text : jsstring)
| InstallPackages (regular dev : jsstring) (pm : option jsstring)
| InstallShadcnUIComponents (components : list jsstring)
| ConsolaBox (text : jsstring).

(** The state the functions act on: the configuration file as
    [readConfigFile] returns it ([None]: no configuration), the files on
    disk, the module-level lists and the calls made so far, latest first. *)
Record World : Type := {
  config : option Config;
  disk : jsstring -> option jsstring;
  installList_regular : list jsstring;
  installList_dev : list jsstring;
  shadCnComponentList : list jsstring;
  calls : list Call
}.

(** [const { ... } = readConfigFile()]: destructuring [undefined] throws. *)
Definition readConfigFile (w : World) : Result Config :=
  match config w with
  | Some c => Ok c
  | None => Throw TypeError
  end.

(** [fs.readFileSync(path, "utf-8")] *)
Definition readFileSync (w : World) (path : jsstring) : Result jsstring :=
  match disk w path with
  | Some content => Ok content
  | None => Throw (ENOENT path)
  end.

Definition call (c : Call) (w : World) : World :=
  {| config := config w;
     disk := disk w;
     installList_regular := installList_regular w;
     installList_dev := installList_dev w;
     shadCnComponentList := shadCnComponentList w;
     calls := c :: calls w |}.

(** Modelled from the spec: [replaceFile] of utils.ts, which is outside this
    file, writes the document back to the same path (section 4.3, step 8). *)
Definition replaceFile (path content : jsstring) (w : World) : World :=
  let w' := call (ReplaceFile path content) w in
  {| config := config w';
     disk := fun q => if eqb q path then Some content else disk w q;
     installList_regular := installList_regular w';
     installList_dev := installList_dev w';
     shadCnComponentList := shadCnComponentList w';
     calls := calls w' |}.

(** ** The layout patcher *)

Inductive Provider : Type :=
| NextAuthProvider
| TrpcProvider
| ShadcnToast
| ClerkProvider
| Navbar
| ThemeProvider.

Definition providerName (p : Provider) : jsstring :=
  match p with
  | NextAuthProvider => str "NextAuthProvider"
  | TrpcProvider => str "TrpcProvider"
  | ShadcnToast => str "ShadcnToast"
  | ClerkProvider => str "ClerkProvider"
  | Navbar => str "Navbar"
  | ThemeProvider => str "ThemeProvider"
  end.

(** Line feed and double quote. *)
Definition nl : jsstring := ["010"%char].
Definition dq : jsstring := ["034"%char].

Definition importStatement (a : jsstring) (fp : ImportPaths) (p : Provider)
  : jsstring :=
  match p with
  | NextAuthProvider =>
      str "import NextAuthProvider from " ++ dq
      ++ authProviderComponent fp ++ dq ++ str ";"
  | TrpcProvider =>
      str "import TrpcProvider from " ++ dq ++ trpcProvider fp ++ dq
      ++ str ";" ++ nl ++ str "import { cookies } from " ++ dq
      ++ str "next/headers" ++ dq ++ str ";"
  | ShadcnToast =>
      str "import { Toaster } from " ++ dq ++ a
      ++ str "/components/ui/toaster" ++ dq ++ str ";"
  | ClerkProvider =>
      str "import { ClerkProvider } from " ++ dq ++ str "@clerk/nextjs" ++ dq
      ++ str ";"
  | Navbar =>
      str "import Navbar from " ++ dq ++ navbarComponent fp ++ dq ++ str ";"
      ++ nl ++ str "import Sidebar from " ++ dq ++ sidebarComponent fp ++ dq
      ++ str ";"
  | ThemeProvider =>
      str "import { ThemeProvider } from " ++ dq ++ a
      ++ str "/components/ThemeProvider" ++ dq ++ str ";"
  end.

Definition childrenText : jsstring := str "{children}".

Definition navbarMarker : jsstring := str "<Navbar />".

(** The navigation block, as lines 114, 121 and 136 spell it. *)
Definition navbarBlock : jsstring :=
  str "<div className=" ++ dq ++ str "flex" ++ dq ++ str ">" ++ nl
  ++ str "<Sidebar />" ++ nl
  ++ str "<main className=" ++ dq ++ str "flex-1 md:p-8 pt-2 p-8" ++ dq
  ++ str ">" ++ nl
  ++ str "<Navbar />" ++ nl
  ++ str "{children}" ++ nl
  ++ str "</main>" ++ nl
  ++ str "</div>".

Definition rootChildrenText (navbarExists : bool) : jsstring :=
  if negb navbarExists then childrenText else navbarBlock.

Definition replacementText (p : Provider) (navbarExists : bool) : jsstring :=
  match p with
  | ShadcnToast =>
      rootChildrenText navbarExists ++ nl ++ str "<Toaster />" ++ nl
  | Navbar => navbarBlock
  | ThemeProvider =>
      nl ++ str "<" ++ providerName p ++ str " attribute=" ++ dq
      ++ str "class" ++ dq ++ str " defaultTheme=" ++ dq ++ str "system" ++ dq
      ++ str " enableSystem disableTransitionOnChange>"
      ++ rootChildrenText navbarExists
      ++ str "</" ++ providerName p ++ str ">" ++ nl
  | TrpcProvider =>
      nl ++ str "<" ++ providerName p
      ++ str " cookies={cookies().toString()}>"
      ++ rootChildrenText navbarExists
      ++ str "</" ++ providerName p ++ str ">" ++ nl
  | _ =>
      nl ++ str "<" ++ providerName p ++ str ">"
      ++ rootChildrenText navbarExists
      ++ str "</" ++ providerName p ++ str ">" ++ nl
  end.

Definition searchValue (navbarExists : bool) : jsstring :=
  if negb navbarExists then childrenText else navbarBlock.

Definition nextLineAfterLastImport (fileContent : jsstring) : Z :=
  let importInsertionPoint := lastIndexOf fileContent (str "import") in
  (indexOf fileContent nl importInsertionPoint + 1)%Z.

Definition beforeImport (fileContent : jsstring) : jsstring :=
  slice fileContent 0 (Some (nextLineAfterLastImport fileContent)).

Definition afterImport (fileContent : jsstring) : jsstring :=
  slice fileContent (nextLineAfterLastImport fileContent) None.

Definition modifiedImportContent (a : jsstring) (fp : ImportPaths)
  (p : Provider) (fileContent : jsstring) : jsstring :=
  beforeImport fileContent ++ importStatement a fp p ++ nl
  ++ afterImport fileContent.

(** The document that lines 109-140 build from the one read. *)
Definition newLayoutContent (a : jsstring) (fp : ImportPaths) (p : Provider)
  (fileContent : jsstring) : jsstring :=
  let navbarExists := includes fileContent navbarMarker in
  replace (modifiedImportContent a fp p fileContent)
          (searchValue navbarExists) (replacementText p navbarExists).

Definition layoutPath (c : Config) : jsstring :=
  (if hasSrc c then str "src/" else []) ++ str "app/layout.tsx".

Definition addContextProviderToLayout (fp : ImportPaths) (p : Provider)
  (w : World) : Result World :=
  c <- readConfigFile w ;;
  let path := layoutPath c in
  fileContent <- readFileSync w path ;;
  if includes fileContent (importStatement (alias c) fp p) then Ok w
  else Ok (replaceFile path (newLayoutContent (alias c) fp p fileContent) w).

(** ** The install-list and component-list aggregators *)

Definition addToInstallList (regular dev : list jsstring) (w : World)
  : World :=
  {| config := config w;
     disk := disk w;
     installList_regular := installList_regular w ++ regular;
     installList_dev := installList_dev w ++ dev;
     shadCnComponentList := shadCnComponentList w;
     calls := calls w |}.

(** One entry of [formattedInstallList] (lines 175-178 and 179-182). *)
Definition formatted (deduped : list jsstring) : jsstring :=
  trim (join (str " ") (map trim deduped)).

Definition installPackagesFromList (w : World) : Result World :=
  c <- readConfigFile w ;;
  if (length (installList_dev w) =? 0) && (length (installList_regular w) =? 0)
  then Ok w
  else
    let dedupedList_regular := setSpread (installList_regular w) in
    let dedupedList_dev := setSpread (installList_dev w) in
    let w1 := call (SpinnerText (str "Installing Packages")) w in
    Ok (call (InstallPackages (formatted dedupedList_regular)
                              (formatted dedupedList_dev)
                              (preferredPackageManager c)) w1).

Definition addToShadcnComponentList (components : list jsstring) (w : World)
  : World :=
  {| config := config w;
     disk := disk w;
     installList_regular := installList_regular w;
     installList_dev := installList_dev w;
     shadCnComponentList := shadCnComponentList w ++ components;
     calls := calls w |}.

Definition installShadcnComponentList (w : World) : World :=
  if length (shadCnComponentList w) =? 0 then w
  else
    let w1 := call (SpinnerText (str "Installing ShadcnUI Components")) w in
    call (InstallShadcnUIComponents (shadCnComponentList w)) w1.

(** A run of calls of [addToInstallList], one per pair of lists. *)
Definition pushAll (pushes : list (list jsstring * list jsstring))
  (w : World) : World :=
  fold_left (fun w' rd => addToInstallList (fst rd) (snd rd) w') pushes w.

Definition pushedRegular (pushes : list (list jsstring * list jsstring))
  : list jsstring := concat (map fst pushes).

Definition pushedDev (pushes : list (list jsstring * list jsstring))
  : list jsstring := concat (map snd pushes).

Definition jsstring_dec : forall a b : jsstring, {a = b} + {a <> b} :=
  list_eq_dec ascii_dec.

(** The external install invocations among the calls made. *)
Definition isInstall (c : Call) : bool :=
  match c with
  | InstallPackages _ _ _ | InstallShadcnUIComponents _ => true
  | _ => false
  end.

Definition installInvocations (w : World) : list Call :=
  filter isInstall (calls w).

(** ** The summary reporter *)

(** The values of the [Packages] table (lines 22-45). *)
Inductive ORMType : Type := drizzle | prisma.
Inductive AuthType : Type := next_auth | clerk | lucia | kinde.
Inductive ComponentLibType : Type := shadcn_ui.

(** The fields of [InitOptions] that [printNextSteps] reads. [None] is a
    field that is [undefined]. The model leaves [null] out: the tests and
    method calls of [printNextSteps] treat it as they treat [undefined], but
    the template literal of line 209 prints it as "null". *)
Record InitOptions : Type := {
  orm : option ORMType;
  db : option jsstring;
  dbProvider : option jsstring;
  auth : option AuthType;
  authProviders : option (list jsstring);
  miscPackages : option (list jsstring);
  componentLib : option ComponentLibType
}.

(** The styles of [chalk] that the reporter uses. *)
Record Chalk : Type := {
  underline : jsstring -> jsstring;
  bold_underline : jsstring -> jsstring;
  bgGreen_black : jsstring -> jsstring
}.

(** The three lists handed to [showNextSteps]. *)
Record Summary : Type := {
  installed : list jsstring;
  steps : list jsstring;
  summaryNotes : list jsstring
}.

(** A value in a template literal: [undefined] is printed as
    "undefined". *)
Definition interpolate (o : option jsstring) : jsstring :=
  match o with
  | Some s => s
  | None => str "undefined"
  end.

(** A method call on an array-valued field: a [TypeError] when the field is
    [undefined]. *)
Definition array (o : option (list jsstring)) : Result (list jsstring) :=
  match o with
  | Some l => Ok l
  | None => Throw TypeError
  end.

Definition isSome {A : Type} (o : option A) : bool :=
  match o with
  | Some _ => true
  | None => false
  end.

Definition ormIs (r : InitOptions) (v : ORMType) : bool :=
  match orm r, v with
  | Some drizzle, drizzle | Some prisma, prisma => true
  | _, _ => false
  end.

Definition authIs (r : InitOptions) (v : AuthType) : bool :=
  match auth r, v with
  | Some next_auth, next_auth | Some clerk, clerk
  | Some lucia, lucia | Some kinde, kinde => true
  | _, _ => false
  end.

Definition dbIsPg (r : InitOptions) : bool :=
  match db r with
  | Some d => eqb d (str "pg")
  | None => false
  end.

Definition when (b : bool) (l : list jsstring) : list jsstring :=
  if b then l else [].

Fixpoint mapi_from {A B : Type} (f : A -> nat -> B) (i : nat) (l : list A)
  : list B :=
  match l with
  | [] => []
  | a :: l' => f a i :: mapi_from f (S i) l'
  end.

Section Reporter.

(** [chalk], the [AuthProviders] table of auth/next-auth/utils.ts and the
    text of [duration / 1000] in a template literal are outside this file.
    [AuthProviders provider] stands for the read
    [AuthProviders[provider].website] of line 275: it is [None] when
    [AuthProviders[provider]] is [undefined], so that the read of [website]
    raises a [TypeError], and [Some text] otherwise, [text] being what the
    template literal prints for [website]: the website of a provider of
    the table, and "undefined" for a name that is not a key of the table
    but is found on its prototype ("toString", "constructor", ...), whose
    value has no [website]. *)
Variable chalk : Chalk.
Variable AuthProviders : jsstring -> option jsstring.
Variable seconds : Z -> jsstring.

Definition packagesInstalledList (r : InitOptions)
  : Result (list jsstring) :=
  nextAuthLabel <-
    (if authIs r next_auth
     then ps <- array (authProviders r) ;;
          Ok [underline chalk (str "Authentication")
              ++ str ": Auth.js (with " ++ join (str ", ") (map (fun p => p) ps)
              ++ str " providers)"]
     else Ok []) ;;
  misc <- array (miscPackages r) ;;
  Ok (when (ormIs r drizzle)
        [underline chalk (str "ORM") ++ str ": Drizzle (using "
         ++ interpolate (dbProvider r) ++ str ")"]
      ++ when (ormIs r prisma) [underline chalk (str "ORM") ++ str ": Prisma"]
      ++ nextAuthLabel
      ++ when (authIs r clerk)
           [underline chalk (str "Authentication") ++ str ": Clerk"]
      ++ when (authIs r lucia)
           [underline chalk (str "Authentication") ++ str ": Lucia"]
      ++ when (authIs r kinde)
           [underline chalk (str "Authentication") ++ str ": Kinde"]
      ++ when (arrayIncludes misc (str "stripe"))
           [underline chalk (str "Payments") ++ str ": Stripe"]
      ++ when (arrayIncludes misc (str "resend"))
           [underline chalk (str "Email") ++ str ": Resend"]
      ++ when (arrayIncludes misc (str "trpc"))
           [underline chalk (str "RPC") ++ str ": tRPC"]
      ++ when (isSome (componentLib r))
           [underline chalk (str "Component Library") ++ str ": ShadcnUI"]).

Definition wouldHaveSecrets (r : InitOptions) (misc : list jsstring) : bool :=
  isSome (orm r) || isSome (auth r)
  || arrayIncludes misc (str "resend") || arrayIncludes misc (str "stripe").

Definition dbMigration (ppm : jsstring) (r : InitOptions) : list jsstring :=
  [ str "Run '" ++ ppm ++ str " run db:generate'";
    str "Run '" ++ ppm ++ str " run db:"
      ++ (if dbIsPg r then str "migrate" else str "push") ++ str "'";
    str "Run '" ++ ppm ++ str " run dev'";
    str "Open localhost:3000/ in your browser" ].

Definition runMigration (r : InitOptions) (misc : list jsstring) : bool :=
  isSome (orm r) || authIs r lucia || authIs r next_auth
  || arrayIncludes misc (str "stripe").

Definition nextSteps (ppm : jsstring) (r : InitOptions)
  (misc : list jsstring) : list jsstring :=
  when (wouldHaveSecrets r misc) [str "Add Environment Variables to your .env"]
  ++ when (runMigration r misc) (dbMigration ppm r)
  ++ [str "Build something awesome!"].

Definition authProviderInstructions (r : InitOptions)
  : Result (list jsstring) :=
  match authProviders r with
  | Some ((_ :: _) as ps) =>
      mapM (fun provider =>
              match AuthProviders provider with
              | Some website =>
                  Ok (provider ++ str " auth: create credentials at "
                      ++ website ++ nl
                      ++ str "  (redirect URI: /api/auth/callback/"
                      ++ provider ++ str ")")
              | None => Throw TypeError
              end) ps
  | _ => Ok []
  end.

Definition issueNote : jsstring :=
  str "If you had any problems, please open an issue on GitHub" ++ nl
  ++ str "  (https://github.com/nicoalbanese/kirimase/issues)".

Definition notes (r : InitOptions) : Result (list jsstring) :=
  instructions <- authProviderInstructions r ;;
  Ok (instructions ++ [issueNote]).

(** [config?.preferredPackageManager ?? "npm"] *)
Definition ppmOf (c : option Config) : jsstring :=
  match c with
  | Some c' =>
      match preferredPackageManager c' with
      | Some pm => pm
      | None => str "npm"
      end
  | None => str "npm"
  end.

(** Lines 202-282: the arguments of the call of [showNextSteps]. *)
Definition summary (c : option Config) (r : InitOptions) : Result Summary :=
  l <- packagesInstalledList r ;;
  misc <- array (miscPackages r) ;;
  n <- notes r ;;
  Ok {| installed := l;
        steps := nextSteps (ppmOf c) r misc;
        summaryNotes := n |}.

Definition createNextStepsList (l : list jsstring) : jsstring :=
  nl ++ bold_underline chalk (str "Next Steps") ++ nl
  ++ join nl (mapi_from (fun item i => ofNat (i + 1) ++ str ". " ++ item) 0 l).

Definition createNotesList (l : list jsstring) : jsstring :=
  nl ++ bold_underline chalk (str "Notes") ++ nl
  ++ join nl (map (fun item => str "- " ++ item) l).

Definition formatInstallList (l : list jsstring) : jsstring :=
  str "The following packages are now installed and configured:" ++ nl
  ++ str "- " ++ join (nl ++ str "- ") l.

Definition rocket : jsstring :=
  map ascii_of_nat [240; 159; 154; 128].

Definition showNextSteps (s : Summary) (duration : Z) (w : World) : World :=
  let nextStepsFormatted :=
    rocket ++ str " Thanks for using Kirimase to kickstart your Next.js app!"
    ++ nl ++ nl
    ++ formatInstallList (installed s) ++ nl ++ nl
    ++ bgGreen_black chalk
         (str "[installed and configured in just " ++ seconds duration
          ++ str " seconds]")
    ++ nl
    ++ createNextStepsList (steps s) ++ nl
    ++ (if 0 <? length (summaryNotes s)
        then createNotesList (summaryNotes s) else [])
    ++ nl in
  call (ConsolaBox nextStepsFormatted) w.

Definition printNextSteps (promptResponses : InitOptions) (duration : Z)
  (w : World) : Result World :=
  s <- summary (config w) promptResponses ;;
  Ok (showNextSteps s duration w).

End Reporter.

(** ** Auxiliary notions for the proofs *)

(** [startsIn w y pat]: some occurrence of [pat] in [w ++ y] starts inside
    [w]. *)
Fixpoint startsIn (w y pat : jsstring) : bool :=
  match w with
  | [] => false
  | _ :: w' => startsWith (w ++ y) pat || startsIn w' y pat
  end.

(** [adjacent pat a b]: somewhere in [pat], [a] is followed at once by
    [b]. *)
Fixpoint adjacent (pat : jsstring) (a b : ascii) : bool :=
  match pat with
  | c1 :: ((c2 :: _) as tl) =>
      (Ascii.eqb c1 a && Ascii.eqb c2 b) || adjacent tl a b
  | _ => false
  end.

(** Number of occurrences of [pat] in [s], overlapping ones included. *)
Fixpoint occurrences (s pat : jsstring) : nat :=
  (if startsWith s pat then 1 else 0)
  + match s with
    | [] => 0
    | _ :: s' => occurrences s' pat
    end.

(** The document after a run of the patcher, for a world whose layout file
    holds [doc]. *)
Definition patched (a : jsstring) (fp : ImportPaths) (p : Provider)
  (doc : jsstring) : jsstring :=
  if includes doc (importStatement a fp p) then doc
  else newLayoutContent a fp p doc.

(** [afterBreaks pat]: what follows each line feed of [pat]. *)
Fixpoint afterBreaks (pat : jsstring) : list jsstring :=
  match pat with
  | [] => []
  | c :: r => (if Ascii.eqb c "010"%char then [r] else []) ++ afterBreaks r
  end.

(** [clearOf v pat]: [v] starts with none of the continuations of [pat]
    after a line feed; an occurrence of [pat] cannot end by running from a
    line feed into [v]. *)
Definition clearOf (v pat : jsstring) : bool :=
  forallb (fun q => negb (startsWith v q)) (afterBreaks pat).

(** [s.endsWith(t)] *)
Definition endsWith (s t : jsstring) : bool := startsWith (rev s) (rev t).

(** The layout documents of the specification (section 3), as the patcher
    sees them: an import block [blk] that ends with a newline-terminated
    line holding the last "import" of the document, then the body; the
    children placeholder is not in the import block. *)
Definition layoutDocument (doc blk body : jsstring) : Prop :=
  doc = blk ++ body
  /\ (exists pre line,
        blk = pre ++ line ++ nl
        /\ includes line (str "import") = true
        /\ includes line nl = false)
  /\ includes body (str "import") = false
  /\ includes blk childrenText = false.

(** What a replacement text puts before and after the anchor: for the
    wrapping providers the opening and the closing tag, for the toast
    provider nothing before and the toaster element after. *)
Definition wrapOpen (p : Provider) : jsstring :=
  match p with
  | ShadcnToast | Navbar => []
  | ThemeProvider =>
      nl ++ str "<" ++ providerName p ++ str " attribute=" ++ dq
      ++ str "class" ++ dq ++ str " defaultTheme=" ++ dq ++ str "system" ++ dq
      ++ str " enableSystem disableTransitionOnChange>"
  | TrpcProvider =>
      nl ++ str "<" ++ providerName p ++ str " cookies={cookies().toString()}>"
  | _ => nl ++ str "<" ++ providerName p ++ str ">"
  end.

Definition wrapClose (p : Provider) : jsstring :=
  match p with
  | ShadcnToast => nl ++ str "<Toaster />" ++ nl
  | Navbar => []
  | _ => str "</" ++ providerName p ++ str ">" ++ nl
  end.

(** The providers that wrap the anchor in an element of their own. *)
Definition wrapping (p : Provider) : bool :=
  match p with
  | NextAuthProvider | TrpcProvider | ClerkProvider | ThemeProvider => true
  | ShadcnToast | Navbar => false
  end.

(** The last line of an import statement, and what precedes it. *)
Definition importLastLine (a : jsstring) (fp : ImportPaths) (p : Provider)
  : jsstring :=
  match p with
  | TrpcProvider =>
      str "import { cookies } from " ++ dq ++ str "next/headers" ++ dq
      ++ str ";"
  | Navbar =>
      str "import Sidebar from " ++ dq ++ sidebarComponent fp ++ dq ++ str ";"
  | _ => importStatement a fp p
  end.

Definition importHead (fp : ImportPaths) (p : Provider) : jsstring :=
  match p with
  | TrpcProvider =>
      str "import TrpcProvider from " ++ dq ++ trpcProvider fp ++ dq
      ++ str ";" ++ nl
  | Navbar =>
      str "import Navbar from " ++ dq ++ navbarComponent fp ++ dq ++ str ";"
      ++ nl
  | _ => []
  end.

(** The alias and the import paths hold no line feed. *)
Definition plainPaths (a : jsstring) (fp : ImportPaths) : bool :=
  negb (includes a nl)
  && negb (includes (authProviderComponent fp) nl)
  && negb (includes (trpcProvider fp) nl)
  && negb (includes (navbarComponent fp) nl)
  && negb (includes (sidebarComponent fp) nl).

(** [m] ends with the first line of the import statement of [X], when that
    statement has two lines. *)
Definition endsWithHead (fp : ImportPaths) (m : jsstring) (X : Provider)
  : bool :=
  match importHead fp X with
  | [] => false
  | h => endsWith m (removelast h)
  end.

(** The configuration keeps the import statements of [A] and [B] apart: the
    paths hold no line feed, neither statement holds the children
    placeholder, the statement of [A] does not hold the navigation marker,
    neither statement holds the other, and neither ends with the first line
    of a two-line statement. *)
Definition ordinaryImports (a : jsstring) (fp : ImportPaths)
  (A B : Provider) : bool :=
  plainPaths a fp
  && negb (includes (importStatement a fp A) childrenText)
  && negb (includes (importStatement a fp B) childrenText)
  && negb (includes (importStatement a fp A) navbarMarker)
  && negb (includes (importStatement a fp A) (importStatement a fp B))
  && negb (includes (importStatement a fp B) (importStatement a fp A))
  && forallb (fun mX =>
                negb (endsWithHead fp (fst mX) (snd mX)))
       [ (importStatement a fp A, A); (importStatement a fp A, B);
         (importStatement a fp B, A); (importStatement a fp B, B) ].

(** The element tags of a wrapping provider, without the line feeds. *)
Definition elemOpen (p : Provider) : jsstring := tl (wrapOpen p).

Definition elemClose (p : Provider) : jsstring := removelast (wrapClose p).

Definition allProviders : list Provider :=
  [NextAuthProvider; TrpcProvider; ShadcnToast; ClerkProvider; Navbar;
   ThemeProvider].

(** No import statement of the configuration holds the children
    placeholder. *)
Definition importsAvoidAnchor (a : jsstring) (fp : ImportPaths) : bool :=
  forallb (fun p => negb (includes (importStatement a fp p) childrenText))
    allProviders.

(** Runs of the patcher in a row, one per provider of the list: on the
    world, and on the document of the layout file. *)
Fixpoint applyProviders (fp : ImportPaths) (ps : list Provider) (w : World)
  : Result World :=
  match ps with
  | [] => Ok w
  | p :: ps' =>
      w' <- addContextProviderToLayout fp p w ;; applyProviders fp ps' w'
  end.

Fixpoint patchedAll (a : jsstring) (fp : ImportPaths) (ps : list Provider)
  (doc : jsstring) : jsstring :=
  match ps with
  | [] => doc
  | p :: ps' => patchedAll a fp ps' (patched a fp p doc)
  end.

(** A layout document whose body holds the navigation block. *)
Definition navigationLayout (doc : jsstring) : Prop :=
  exists blk body,
    layoutDocument doc blk body /\ includes body navbarBlock = true.

(** ** Sample inputs *)

(** A configuration with the usual alias, and import paths under it. *)
Definition sampleConfig : Config :=
  {| hasSrc := true;
     alias := str "@";
     preferredPackageManager := Some (str "pnpm") |}.

Definition samplePaths : ImportPaths :=
  {| authProviderComponent := str "@/lib/auth/Provider";
     trpcProvider := str "@/lib/trpc/Provider";
     navbarComponent := str "@/components/Navbar";
     sidebarComponent := str "@/components/Sidebar" |}.

(** A world whose only file is the layout, holding [doc]. *)
Definition layoutWorld (c : Config) (doc : jsstring) : World :=
  {| config := Some c;
     disk := fun q => if eqb q (layoutPath c) then Some doc else None;
     installList_regular := [];
     installList_dev := [];
     shadCnComponentList := [];
     calls := [] |}.

Definition sampleLayout : jsstring :=
  str "import './globals.css';" ++ nl
  ++ str "export default function RootLayout({ children }) {" ++ nl
  ++ str "return (<html><body>{children}</body></html>);" ++ nl
  ++ str "}" ++ nl.

(** The sample layout with the import of [ClerkProvider] already there. *)
Definition layoutWithClerk : jsstring :=
  importStatement (str "@") samplePaths ClerkProvider ++ nl ++ sampleLayout.

(** A world with a configuration and nothing else. *)
Definition emptyWorld (c : Config) : World :=
  {| config := Some c;
     disk := fun _ => None;
     installList_regular := [];
     installList_dev := [];
     shadCnComponentList := [];
     calls := [] |}.

Definition samplePushes : list (list jsstring * list jsstring) :=
  [ ([str "drizzle-orm"; str "zod"], [str "drizzle-kit"]);
    ([str "zod"; str " next-auth "], []);
    ([str "drizzle-orm"], [str "drizzle-kit"; str "tsx"]) ].

(** A world in which one blank name was pushed. *)
Definition blankNameWorld : World :=
  addToInstallList [str " "] [] (emptyWorld sampleConfig).

(** A world in which two components were queued. *)
Definition componentsWorld : World :=
  addToShadcnComponentList [str "button"; str "toast"]
    (emptyWorld sampleConfig).

(** The selections of the summary example of the specification; they hold
    no [db] field. *)
Definition sampleSelections : InitOptions :=
  {| orm := Some drizzle;
     db := None;
     dbProvider := Some (str "pg");
     auth := Some next_auth;
     authProviders := Some [str "google"];
     miscPackages := Some [str "trpc"];
     componentLib := Some shadcn_ui |}.

(** The same selections with the [db] field set. *)
Definition withDb (d : jsstring) (r : InitOptions) : InitOptions :=
  {| orm := orm r;
     db := Some d;
     dbProvider := dbProvider r;
     auth := auth r;
     authProviders := authProviders r;
     miscPackages := miscPackages r;
     componentLib := componentLib r |}.

(** [chalk] without colour support: every style is the identity. *)
Definition plainChalk : Chalk :=
  {| underline := fun s => s;
     bold_underline := fun s => s;
     bgGreen_black := fun s => s |}.

(** A provider table with one entry, as an object literal: besides its key
    it finds the property names of [Object.prototype], whose values have no
    [website]. *)
Definition sampleWebsite : jsstring :=
  str "https://console.cloud.google.com/apis/credentials".

Definition objectPrototypeNames : list jsstring :=
  [ str "constructor"; str "toString"; str "toLocaleString"; str "valueOf";
    str "hasOwnProperty"; str "isPrototypeOf"; str "propertyIsEnumerable";
    str "__proto__"; str "__defineGetter__"; str "__defineSetter__";
    str "__lookupGetter__"; str "__lookupSetter__" ].

Definition sampleAuthProviders (slug : jsstring) : option jsstring :=
  if eqb slug (str "google") then Some sampleWebsite
  else if arrayIncludes objectPrototypeNames slug then Some (str "undefined")
  else None.

(** Well-typed selections, as far as [printNextSteps] is concerned:
    [miscPackages] is an array (line 234 reads it without a guard),
    [authProviders] is an array or is absent (line 273 guards it), and every
    auth provider listed is found in the [AuthProviders] table. The
    declaration of [InitOptions] (types.ts) is outside this file. *)
Definition wellTyped (AuthProviders : jsstring -> option jsstring)
  (r : InitOptions) : Prop :=
  match miscPackages r, authProviders r with
  | Some _, Some ps => Forall (fun p => isSome (AuthProviders p) = true) ps
  | Some _, None => True
  | None, _ => False
  end.


(** The import block and the body of the sample layout. *)
Definition sampleBlock : jsstring := str "import './globals.css';" ++ nl.

Definition sampleBody : jsstring :=
  str "export default function RootLayout({ children }) {" ++ nl
  ++ str "return (<html><body>{children}</body></html>);" ++ nl
  ++ str "}" ++ nl.

(** A layout without the children placeholder. *)
Definition layoutNoAnchor : jsstring :=
  str "import './globals.css';" ++ nl
  ++ str "export default function RootLayout() {" ++ nl
  ++ str "return (<html><body></body></html>);" ++ nl
  ++ str "}" ++ nl.

(** A layout without any import statement. *)
Definition layoutNoImport : jsstring :=
  str "export default function RootLayout({ children }) {" ++ nl
  ++ str "return (<html><body>{children}</body></html>);" ++ nl
  ++ str "}" ++ nl.

(** ** Notions for the further properties *)

(** [embeds s t]: [t] holds every character of [s], in the same order, with
    other characters in between; [t] is [s] with text inserted. *)
Inductive embeds : jsstring -> jsstring -> Prop :=
| embeds_nil : embeds [] []
| embeds_keep c s t : embeds s t -> embeds (c :: s) (c :: t)
| embeds_insert c s t : embeds s t -> embeds s (c :: t).

(** A run of calls of [addToShadcnComponentList], one per list. *)
Definition pushAllComponents (pushes : list (list jsstring)) (w : World)
  : World :=
  fold_left (fun w' components => addToShadcnComponentList components w')
    pushes w.

(** A name that [trim] leaves as it is and that is not empty: it starts and
    ends with a character that is not white space. *)
Definition trimmedName (n : jsstring) : bool :=
  match n with
  | [] => false
  | c :: _ => negb (isSpace c) && negb (isSpace (last n c))
  end.

(** [stripped n t]: [t] is [n] trimmed of white space, said in the words of
    the specification and not through [trim]: [n] is [t] between two runs
    of white space, and [t] is empty or starts and ends with a character
    that is not white space. *)
Definition stripped (n t : jsstring) : Prop :=
  exists a b,
    n = a ++ t ++ b
    /\ forallb isSpace a = true
    /\ forallb isSpace b = true
    /\ (t = [] \/ trimmedName t = true).

(** [argumentOf names arg]: [arg] is the argument string that the
    specification makes of [names]: every name trimmed, the trimmed names
    joined with single spaces, the whole trimmed. *)
Definition argumentOf (names : list jsstring) (arg : jsstring) : Prop :=
  exists entries,
    Forall2 stripped names entries
    /\ stripped (join (str " ") entries) arg.

(** The same selections with another [miscPackages] array. *)
Definition withMisc (m : list jsstring) (r : InitOptions) : InitOptions :=
  {| orm := orm r;
     db := db r;
     dbProvider := dbProvider r;
     auth := auth r;
     authProviders := authProviders r;
     miscPackages := Some m;
     componentLib := componentLib r |}.

(** Selections with nothing selected. *)
Definition noSelections : InitOptions :=
  {| orm := None;
     db := None;
     dbProvider := None;
     auth := None;
     authProviders := None;
     miscPackages := Some [];
     componentLib := None |}.

(** What a run of providers leaves around the placeholder: the opening
    parts in the order of the runs, the closing parts in the reverse order;
    and the import lines it adds, in the order of the runs. *)
Fixpoint opens (ps : list Provider) : jsstring :=
  match ps with
  | [] => []
  | p :: ps' => wrapOpen p ++ opens ps'
  end.

Fixpoint closes (ps : list Provider) : jsstring :=
  match ps with
  | [] => []
  | p :: ps' => closes ps' ++ wrapClose p
  end.

Fixpoint importLines (a : jsstring) (fp : ImportPaths) (ps : list Provider)
  : jsstring :=
  match ps with
  | [] => []
  | p :: ps' => importStatement a fp p ++ nl ++ importLines a fp ps'
  end.

(** No import statement of the configuration holds the navigation
    marker. *)
Definition importsAvoidMarker (a : jsstring) (fp : ImportPaths) : bool :=
  forallb (fun p => negb (includes (importStatement a fp p) navbarMarker))
    allProviders.

(** The import statement of a provider of the list does not hold the import
    statement of a later one. *)
Fixpoint importsApart (a : jsstring) (fp : ImportPaths) (ps : list Provider)
  : bool :=
  match ps with
  | [] => true
  | p :: ps' =>
      forallb (fun q =>
                 negb (includes (importStatement a fp p)
                         (importStatement a fp q))) ps'
      && importsApart a fp ps'
  end.

(** None of the import statements of the list is in the document. *)
Definition importsAbsent (a : jsstring) (fp : ImportPaths)
  (ps : list Provider) (doc : jsstring) : bool :=
  forallb (fun p => negb (includes doc (importStatement a fp p))) ps.

(** The second line of the import statement of [TrpcProvider] (line 82). *)
Definition cookiesImport : jsstring :=
  str "import { cookies } from " ++ dq ++ str "next/headers" ++ dq ++ str ";".

(** A layout that imports [cookies] already. *)
Definition layoutWithCookies : jsstring :=
  str "import './globals.css';" ++ nl
  ++ cookiesImport ++ nl
  ++ str "export default function RootLayout({ children }) {" ++ nl
  ++ str "return (<html><body>{children}</body></html>);" ++ nl
  ++ str "}" ++ nl.

(** A layout with a hand-written navigation element and no import of it. *)
Definition layoutWithNavbar : jsstring :=
  str "import './globals.css';" ++ nl
  ++ str "export default function RootLayout({ children }) {" ++ nl
  ++ str "return (<html><body><Navbar />{children}</body></html>);" ++ nl
  ++ str "}" ++ nl.

(** * Properties *)

(** ** Strings *)

Section StringFacts.

Implicit Types s pat rep w x y : jsstring.

Lemma startsWith_nil s : startsWith s [] = true.
Proof. destruct s; reflexivity. Qed.

Lemma startsWith_app pat rest : startsWith (pat ++ rest) pat = true.
Proof.
  induction pat as [|a pat IH]; simpl.
  - apply startsWith_nil.
  - now rewrite Ascii.eqb_refl, IH.
Qed.

Lemma startsWith_inv s pat :
  startsWith s pat = true -> exists rest, s = pat ++ rest.
Proof.
  revert s; induction pat as [|a pat IH]; intros s H.
  - now exists s.
  - destruct s as [|b s]; simpl in H; [discriminate|].
    apply andb_true_iff in H as [Hab H].
    apply Ascii.eqb_eq in Hab; subst b.
    destruct (IH _ H) as [rest ->].
    now exists rest.
Qed.

Lemma startsWith_skipn s pat :
  startsWith s pat = true -> s = pat ++ skipn (length pat) s.
Proof.
  intros H. destruct (startsWith_inv _ _ H) as [rest ->].
  now rewrite skipn_app, skipn_all, Nat.sub_diag.
Qed.

(** An occurrence at the head of [t ++ y] lies in [t], or covers [t] and
    goes on into [y]. *)
Lemma startsWith_app_cases t y pat :
  startsWith (t ++ y) pat = true ->
  startsWith t pat = true
  \/ exists q, pat = t ++ q /\ q <> [] /\ startsWith y q = true.
Proof.
  revert pat; induction t as [|c t IH]; intros pat H.
  - destruct pat as [|a pat].
    + now left.
    + right. exists (a :: pat). simpl in *.
      repeat split; [discriminate|assumption].
  - destruct pat as [|a pat]; [now left|].
    simpl in H. apply andb_true_iff in H as [Hac H].
    destruct (IH _ H) as [Hl | (q & -> & Hq & Hy)].
    + left. simpl. now rewrite Hac, Hl.
    + right. apply Ascii.eqb_eq in Hac; subst c.
      exists q. now repeat split.
Qed.

Lemma startsWith_app_l t y pat :
  startsWith t pat = true -> startsWith (t ++ y) pat = true.
Proof.
  intros H. destruct (startsWith_inv _ _ H) as [rest ->].
  rewrite <- app_assoc. apply startsWith_app.
Qed.

Lemma includes_startsWith s pat :
  startsWith s pat = true -> includes s pat = true.
Proof. intros H. destruct s; cbn [includes]; now rewrite H. Qed.

Lemma includes_intro pre pat post : includes (pre ++ pat ++ post) pat = true.
Proof.
  induction pre as [|c pre IH].
  - cbn [app]. apply includes_startsWith, startsWith_app.
  - cbn [app includes]. rewrite IH. apply orb_true_r.
Qed.

Lemma includes_inv s pat :
  includes s pat = true -> exists pre post, s = pre ++ pat ++ post.
Proof.
  induction s as [|c s IH]; simpl; intros H.
  - rewrite orb_false_r in H. destruct (startsWith_inv _ _ H) as [rest E].
    now exists [], rest.
  - apply orb_true_iff in H as [H|H].
    + destruct (startsWith_inv _ _ H) as [rest E]. now exists [], rest.
    + destruct (IH H) as (pre & post & ->). now exists (c :: pre), post.
Qed.

Lemma includes_startsIn w y pat :
  includes (w ++ y) pat = startsIn w y pat || includes y pat.
Proof.
  induction w as [|c w IH]; simpl.
  - reflexivity.
  - now rewrite IH, orb_assoc.
Qed.

Lemma startsIn_nil_r w pat : pat <> [] -> startsIn w [] pat = includes w pat.
Proof.
  intros Hp. induction w as [|c w IH]; simpl.
  - destruct pat; [congruence|reflexivity].
  - now rewrite IH, app_nil_r.
Qed.

Lemma startsIn_app x m y pat :
  startsIn (x ++ m) y pat = startsIn x (m ++ y) pat || startsIn m y pat.
Proof.
  induction x as [|c x IH]; simpl.
  - reflexivity.
  - now rewrite IH, <- app_assoc, orb_assoc.
Qed.

Lemma includes_app_l x y pat :
  includes x pat = true -> includes (x ++ y) pat = true.
Proof.
  intros H. destruct (includes_inv _ _ H) as (pre & post & ->).
  rewrite <- !app_assoc. apply includes_intro.
Qed.

Lemma includes_app_r x y pat :
  includes y pat = true -> includes (x ++ y) pat = true.
Proof.
  intros H. rewrite includes_startsIn, H. apply orb_true_r.
Qed.

Lemma includes_trans s m pat :
  includes s m = true -> includes m pat = true -> includes s pat = true.
Proof.
  intros H1 H2. destruct (includes_inv _ _ H1) as (pre & post & ->).
  apply includes_app_r, includes_app_l, H2.
Qed.

Lemma includes_length s pat :
  includes s pat = true -> length pat <= length s.
Proof.
  intros H. destruct (includes_inv _ _ H) as (pre & post & ->).
  rewrite !length_app. lia.
Qed.

Lemma includes_refl s : includes s s = true.
Proof.
  apply includes_startsWith. rewrite <- (app_nil_r s) at 1.
  apply startsWith_app.
Qed.

Lemma adjacent_mid l a b r : adjacent (l ++ a :: b :: r) a b = true.
Proof.
  induction l as [|c l IH].
  - simpl. now rewrite !Ascii.eqb_refl.
  - cbn [app adjacent]. destruct (l ++ a :: b :: r) eqn:E.
    + now destruct l.
    + rewrite IH. apply orb_true_r.
Qed.

(** An occurrence that starts inside [w] lies in [w], or crosses its end:
    then the last character of [w] and the first of [y] are neighbours in
    [pat]. *)
Lemma startsIn_cases w y pat :
  startsIn w y pat = true ->
  includes w pat = true
  \/ exists w0 a b y0,
       w = w0 ++ [a] /\ y = b :: y0 /\ adjacent pat a b = true.
Proof.
  induction w as [|c w IH]; [discriminate|].
  cbn [startsIn]. intros H. apply orb_true_iff in H as [H|H].
  - destruct (startsWith_app_cases _ _ _ H) as [Hl | (q & Hp & Hq & Hy)].
    + left. now apply includes_startsWith.
    + right. destruct q as [|b q]; [congruence|].
      destruct y as [|b' y0]; [discriminate|].
      apply andb_true_iff in Hy as [Hb _]. apply Ascii.eqb_eq in Hb; subst b'.
      destruct (exists_last (l := c :: w)) as (w0 & a & Hw); [discriminate|].
      exists w0, a, b, y0. repeat split; [assumption|].
      rewrite Hp, Hw, <- app_assoc. apply adjacent_mid.
  - destruct (IH H) as [Hl | (w0 & a & b & y0 & -> & -> & Hadj)].
    + left. cbn [includes]. rewrite Hl. apply orb_true_r.
    + right. now exists (c :: w0), a, b, y0.
Qed.

Lemma replace_skip w y pat rep :
  startsIn w y pat = false -> replace (w ++ y) pat rep = w ++ replace y pat rep.
Proof.
  induction w as [|c w IH]; [reflexivity|].
  cbn [startsIn]. intros H. apply orb_false_iff in H as [H1 H2].
  cbn [app replace]. cbn [app] in H1. rewrite H1. f_equal. now apply IH.
Qed.

Lemma replace_absent s pat rep :
  includes s pat = false -> replace s pat rep = s.
Proof.
  induction s as [|c s IH]; cbn [includes replace]; intros H;
    apply orb_false_iff in H as [H1 H2]; rewrite H1.
  - reflexivity.
  - f_equal. now apply IH.
Qed.

Lemma replace_in_l w y pat rep :
  includes w pat = true -> replace (w ++ y) pat rep = replace w pat rep ++ y.
Proof.
  induction w as [|c w IH]; intros H.
  - cbn [includes] in H. rewrite orb_false_r in H.
    destruct (startsWith_inv _ _ H) as [rest E].
    symmetry in E. apply app_eq_nil in E as [-> _].
    cbn [app]. destruct y; cbn; now rewrite ?app_nil_r.
  - cbn [app replace]. destruct (startsWith (c :: w) pat) eqn:E.
    + assert (E' := startsWith_app_l _ y _ E). cbn [app] in E'. rewrite E'.
      destruct (startsWith_inv _ _ E) as [rest Er].
      change (c :: w ++ y) with ((c :: w) ++ y). rewrite Er.
      rewrite <- !app_assoc, !skipn_app, !skipn_all, !Nat.sub_diag.
      reflexivity.
    + cbn [includes] in H. rewrite E in H. cbn [orb] in H.
      destruct (startsWith (c :: w ++ y) pat) eqn:E2.
      * exfalso.
        destruct (startsWith_app_cases (c :: w) y pat E2)
          as [Hl | (q & Hp & Hq & _)]; [congruence|].
        apply includes_length in H. rewrite Hp, length_app in H.
        destruct q; [congruence|]. cbn [length] in H. lia.
      * cbn [app]. f_equal. now apply IH.
Qed.

(** The first occurrence: where [replace] acts. *)
Lemma replace_first s pat rep :
  includes s pat = true ->
  exists pre post,
    s = pre ++ pat ++ post
    /\ startsIn pre (pat ++ post) pat = false
    /\ replace s pat rep = pre ++ rep ++ post.
Proof.
  induction s as [|c s IH]; intros H.
  - cbn [includes] in H. rewrite orb_false_r in H.
    destruct (startsWith_inv _ _ H) as [rest E].
    exists [], rest. cbn [app startsIn replace]. rewrite H.
    symmetry in E. apply app_eq_nil in E as [-> ->]. now rewrite app_nil_r.
  - destruct (startsWith (c :: s) pat) eqn:E.
    + exists [], (skipn (length pat) (c :: s)).
      cbn [app startsIn replace]. rewrite E.
      repeat split. now apply startsWith_skipn.
    + cbn [includes] in H. rewrite E in H. cbn [orb] in H.
      destruct (IH H) as (pre & post & Hs & Hfirst & Hrep).
      exists (c :: pre), post. cbn [app startsIn replace].
      rewrite E, Hrep. rewrite Hs in E. cbn [app] in E. rewrite E, Hfirst.
      repeat split. now rewrite Hs.
Qed.

End StringFacts.

(** ** Slicing the document at the insertion point *)

Lemma find_inv s pat i :
  find s pat = Some i ->
  exists pre post, s = pre ++ pat ++ post /\ length pre = i.
Proof.
  revert i; induction s as [|c s IH]; intros i; cbn [find];
    destruct (startsWith _ pat) eqn:E.
  - intros [= <-]. destruct (startsWith_inv _ _ E) as [rest ->].
    now exists [], rest.
  - discriminate.
  - intros [= <-]. destruct (startsWith_inv _ _ E) as [rest ->].
    now exists [], rest.
  - destruct (find s pat) as [j|]; [|discriminate]. intros [= <-].
    destruct (IH j eq_refl) as (pre & post & -> & Hl).
    exists (c :: pre), post. cbn [length app]. now rewrite Hl.
Qed.

Lemma slice_head s n :
  (0 <= n <= len s)%Z -> slice s 0 (Some n) = firstn (Z.to_nat n) s.
Proof.
  intros Hn. unfold slice, relIndex.
  destruct (n <? 0)%Z eqn:E; [lia|].
  change (0 <? 0)%Z with false. cbv iota.
  rewrite (Z.min_l 0), (Z.min_l n) by (unfold len in *; lia).
  change (Z.to_nat 0) with 0. now rewrite Nat.sub_0_r.
Qed.

Lemma slice_tail s n :
  (0 <= n <= len s)%Z -> slice s n None = skipn (Z.to_nat n) s.
Proof.
  intros Hn. unfold slice, relIndex.
  destruct (n <? 0)%Z eqn:E; [lia|].
  rewrite Z.min_l by lia. apply firstn_all2. rewrite length_skipn. lia.
Qed.

Lemma nextLineAfterLastImport_range doc :
  (0 <= nextLineAfterLastImport doc <= len doc)%Z.
Proof.
  unfold nextLineAfterLastImport, indexOf.
  set (k := Z.to_nat (Z.min _ _)).
  assert (Hk : k <= length doc) by (unfold k, len; lia).
  destruct (find (skipn k doc) nl) as [i|] eqn:E; [|unfold len; lia].
  destruct (find_inv _ _ _ E) as (pre & post & Hs & Hl).
  assert (Hlen : length (skipn k doc) = length doc - k) by apply length_skipn.
  rewrite Hs, !length_app in Hlen. cbn [length nl] in Hlen. unfold len. lia.
Qed.

(** The two slices make up the document. *)
Lemma before_after doc : beforeImport doc ++ afterImport doc = doc.
Proof.
  unfold beforeImport, afterImport.
  pose proof (nextLineAfterLastImport_range doc) as H.
  rewrite slice_head, slice_tail by assumption. apply firstn_skipn.
Qed.

(** The insertion point is the start of the document or follows a line
    feed. *)
Lemma beforeImport_shape doc :
  beforeImport doc = [] \/ exists b0, beforeImport doc = b0 ++ nl.
Proof.
  unfold beforeImport.
  rewrite slice_head by apply nextLineAfterLastImport_range.
  unfold nextLineAfterLastImport, indexOf.
  set (k := Z.to_nat (Z.min _ _)).
  assert (Hk : k <= length doc) by (unfold k, len; lia).
  destruct (find (skipn k doc) nl) as [i|] eqn:E; [|now left].
  right. destruct (find_inv _ _ _ E) as (pre & post & Hs & Hl).
  exists (firstn k doc ++ pre).
  replace (Z.to_nat (Z.of_nat (k + i) + 1))
    with (length (firstn k doc ++ pre ++ nl)).
  - rewrite <- (firstn_skipn k doc) at 2. rewrite Hs.
    replace (firstn k doc ++ pre ++ nl ++ post)
      with ((firstn k doc ++ pre ++ nl) ++ post) by now rewrite <- !app_assoc.
    rewrite firstn_app, firstn_all, Nat.sub_diag. cbn [firstn].
    now rewrite app_nil_r, <- app_assoc.
  - rewrite !length_app, length_firstn. cbn [length nl]. lia.
Qed.

(** ** The texts of the patcher *)

Lemma importStatement_head a fp p :
  exists m0, importStatement a fp p = "i"%char :: m0.
Proof. destruct p; cbn; eexists; reflexivity. Qed.

Lemma importStatement_last a fp p :
  exists m1, importStatement a fp p = m1 ++ [";"%char].
Proof.
  destruct p; unfold importStatement; repeat rewrite app_assoc;
    eexists; reflexivity.
Qed.

Lemma searchValue_has_children b :
  includes (searchValue b) childrenText = true.
Proof. destruct b; vm_compute; reflexivity. Qed.

(** Neither anchor holds a line feed followed by "i", or ";" followed by a
    line feed: it cannot lie across a border of an inserted import. *)
Lemma searchValue_borders b :
  adjacent (searchValue b) "010"%char "i"%char = false
  /\ adjacent (searchValue b) ";"%char "010"%char = false.
Proof. destruct b; vm_compute; split; reflexivity. Qed.

(** No replacement text contains "$": [replace] may take it literally. *)
Lemma replacementText_no_dollar p b :
  includes (replacementText p b) (str "$") = false.
Proof. destruct p, b; vm_compute; reflexivity. Qed.

Section ImportSurvives.

Variables (a : jsstring) (fp : ImportPaths) (p : Provider).

Let m := importStatement a fp p.

Hypothesis no_anchor : includes m childrenText = false.

Lemma import_free_of_searchValue b : includes m (searchValue b) = false.
Proof.
  destruct (includes m (searchValue b)) eqn:E; [|reflexivity].
  rewrite (includes_trans _ _ _ E (searchValue_has_children b)) in no_anchor.
  discriminate.
Qed.

(** No occurrence of an anchor starts inside [beforeImport] and runs into
    the inserted import, or starts inside the import. *)
Lemma no_anchor_across doc b z :
  includes (beforeImport doc) (searchValue b) = false ->
  startsIn (beforeImport doc ++ m) (nl ++ z) (searchValue b) = false.
Proof.
  intros Hx. destruct (searchValue_borders b) as [B1 B2].
  rewrite startsIn_app. apply orb_false_iff; split.
  - destruct (startsIn _ (m ++ _) _) eqn:E; [|reflexivity].
    destruct (startsIn_cases _ _ _ E)
      as [H | (w0 & c1 & c2 & y0 & Hw & Hy & Hadj)]; [congruence|].
    destruct (importStatement_head a fp p) as [m0 Hm]. fold m in Hm.
    rewrite Hm in Hy. injection Hy as <- _.
    destruct (beforeImport_shape doc) as [H0 | [b0 H0]]; rewrite H0 in Hw.
    + now destruct w0.
    + apply app_inj_tail in Hw as [_ <-]. congruence.
  - destruct (startsIn m _ _) eqn:E; [|reflexivity].
    destruct (startsIn_cases _ _ _ E)
      as [H | (w0 & c1 & c2 & y0 & Hw & Hy & Hadj)].
    + now rewrite import_free_of_searchValue in H.
    + destruct (importStatement_last a fp p) as [m1 Hm]. fold m in Hm.
      rewrite Hm in Hw. apply app_inj_tail in Hw as [_ <-].
      injection Hy as <- _. congruence.
Qed.

(** Where the anchor is replaced: inside [beforeImport], or after the
    inserted import. *)
Lemma replace_around_import doc b rep :
  replace (modifiedImportContent a fp p doc) (searchValue b) rep
  = if includes (beforeImport doc) (searchValue b)
    then replace (beforeImport doc) (searchValue b) rep
         ++ m ++ nl ++ afterImport doc
    else beforeImport doc ++ m
         ++ replace (nl ++ afterImport doc) (searchValue b) rep.
Proof.
  unfold modifiedImportContent. fold m.
  destruct (includes (beforeImport doc) (searchValue b)) eqn:Ex.
  - now apply replace_in_l.
  - rewrite app_assoc, replace_skip by now apply no_anchor_across.
    now rewrite <- app_assoc.
Qed.

Lemma import_survives doc b rep :
  includes (replace (modifiedImportContent a fp p doc) (searchValue b) rep) m
  = true.
Proof.
  rewrite replace_around_import.
  destruct (includes (beforeImport doc) (searchValue b)).
  - apply includes_app_r, includes_app_l, includes_refl.
  - apply includes_app_r, includes_app_l, includes_refl.
Qed.

End ImportSurvives.

(** ** The patcher on a world *)

Lemma eqb_refl (s : jsstring) : eqb s s = true.
Proof. unfold eqb. now destruct (list_eq_dec ascii_dec s s). Qed.

Lemma eqb_eq (s t : jsstring) : eqb s t = true <-> s = t.
Proof. unfold eqb. destruct (list_eq_dec ascii_dec s t); split; congruence. Qed.

Lemma disk_replaceFile path content w :
  disk (replaceFile path content w) path = Some content.
Proof. cbn. now rewrite eqb_refl. Qed.

Lemma addContextProviderToLayout_run fp p w c doc :
  config w = Some c ->
  disk w (layoutPath c) = Some doc ->
  addContextProviderToLayout fp p w
  = if includes doc (importStatement (alias c) fp p) then Ok w
    else Ok (replaceFile (layoutPath c)
               (newLayoutContent (alias c) fp p doc) w).
Proof.
  intros Hc Hd. unfold addContextProviderToLayout, readConfigFile, readFileSync.
  rewrite Hc. cbn [bind]. now rewrite Hd.
Qed.

(** C1. Applying the same provider twice gives the document that applying it
    once gives: after the first application the document contains the
    provider's import statement, and the second application returns the
    world as it found it. The import statement is supposed not to contain
    the children placeholder itself. *)
Theorem addContextProviderToLayout_idempotent fp p w c doc :
  config w = Some c ->
  disk w (layoutPath c) = Some doc ->
  includes (importStatement (alias c) fp p) childrenText = false ->
  exists w1 doc1,
    addContextProviderToLayout fp p w = Ok w1
    /\ disk w1 (layoutPath c) = Some doc1
    /\ doc1 = patched (alias c) fp p doc
    /\ includes doc1 (importStatement (alias c) fp p) = true
    /\ addContextProviderToLayout fp p w1 = Ok w1.
Proof.
  intros Hc Hd Hm.
  rewrite (addContextProviderToLayout_run fp p w c doc Hc Hd). unfold patched.
  destruct (includes doc (importStatement (alias c) fp p)) eqn:E.
  - exists w, doc. repeat split; try assumption.
    rewrite (addContextProviderToLayout_run fp p w c doc Hc Hd). now rewrite E.
  - set (doc1 := newLayoutContent (alias c) fp p doc).
    assert (H1 : includes doc1 (importStatement (alias c) fp p) = true)
      by now apply import_survives.
    exists (replaceFile (layoutPath c) doc1 w), doc1.
    repeat split; try assumption.
    + apply disk_replaceFile.
    + rewrite (addContextProviderToLayout_run fp p
                 (replaceFile (layoutPath c) doc1 w) c doc1 Hc).
      * now rewrite H1.
      * apply disk_replaceFile.
Qed.

Lemma addContextProviderToLayout_idempotent_witness :
  exists w1 doc1,
    addContextProviderToLayout samplePaths ThemeProvider
      (layoutWorld sampleConfig sampleLayout) = Ok w1
    /\ disk w1 (layoutPath sampleConfig) = Some doc1
    /\ doc1 = patched (alias sampleConfig) samplePaths ThemeProvider
                sampleLayout
    /\ includes doc1
         (importStatement (alias sampleConfig) samplePaths ThemeProvider) = true
    /\ addContextProviderToLayout samplePaths ThemeProvider w1 = Ok w1.
Proof.
  apply (@addContextProviderToLayout_idempotent samplePaths ThemeProvider
           (layoutWorld sampleConfig sampleLayout) sampleConfig sampleLayout);
    reflexivity.
Defined.

(** C10. When the document already contains the provider's import statement,
    the run ends before any replacement is built: the world is returned as
    it was, so no file is written and no call is made. *)
Theorem addContextProviderToLayout_present_no_write fp p w c doc :
  config w = Some c ->
  disk w (layoutPath c) = Some doc ->
  includes doc (importStatement (alias c) fp p) = true ->
  addContextProviderToLayout fp p w = Ok w
  /\ forall w', addContextProviderToLayout fp p w = Ok w' ->
       calls w' = calls w /\ disk w' = disk w.
Proof.
  intros Hc Hd Hi.
  rewrite (addContextProviderToLayout_run fp p w c doc Hc Hd), Hi.
  split; [reflexivity|]. now intros w' [= <-].
Qed.

Lemma addContextProviderToLayout_present_no_write_witness :
  addContextProviderToLayout samplePaths ClerkProvider
    (layoutWorld sampleConfig layoutWithClerk)
  = Ok (layoutWorld sampleConfig layoutWithClerk)
  /\ forall w',
       addContextProviderToLayout samplePaths ClerkProvider
         (layoutWorld sampleConfig layoutWithClerk) = Ok w' ->
       calls w' = calls (layoutWorld sampleConfig layoutWithClerk)
       /\ disk w' = disk (layoutWorld sampleConfig layoutWithClerk).
Proof.
  apply (@addContextProviderToLayout_present_no_write samplePaths ClerkProvider
           (layoutWorld sampleConfig layoutWithClerk) sampleConfig
           layoutWithClerk); reflexivity.
Defined.

(** ** Documents without the anchor or without imports *)

(** C4, as the specification states it, fails: on a layout without the
    children placeholder the run ends normally, and the file then holds the
    document with the import inserted and nothing else changed. *)
Lemma absent_anchor_completes :
  includes layoutNoAnchor childrenText = false
  /\ (forall e,
        addContextProviderToLayout samplePaths ClerkProvider
          (layoutWorld sampleConfig layoutNoAnchor) <> Throw e)
  /\ exists w',
       addContextProviderToLayout samplePaths ClerkProvider
         (layoutWorld sampleConfig layoutNoAnchor) = Ok w'
       /\ disk w' (layoutPath sampleConfig)
          = Some (str "import './globals.css';" ++ nl
                  ++ importStatement (str "@") samplePaths ClerkProvider ++ nl
                  ++ str "export default function RootLayout() {" ++ nl
                  ++ str "return (<html><body></body></html>);" ++ nl
                  ++ str "}" ++ nl).
Proof.
  split; [reflexivity|]. split; [intros e; vm_compute; discriminate|].
  eexists. split; [reflexivity|]. vm_compute. reflexivity.
Qed.

(** C4, amended. When the document with the import inserted does not
    contain the anchor that is searched, no error is raised: the file is
    rewritten with the import inserted and its body as it was. *)
Theorem absent_anchor_inserts_import_only fp p w c doc :
  config w = Some c ->
  disk w (layoutPath c) = Some doc ->
  includes doc (importStatement (alias c) fp p) = false ->
  includes (modifiedImportContent (alias c) fp p doc)
           (searchValue (includes doc navbarMarker)) = false ->
  addContextProviderToLayout fp p w
  = Ok (replaceFile (layoutPath c)
          (modifiedImportContent (alias c) fp p doc) w).
Proof.
  intros Hc Hd Hi Ha.
  rewrite (addContextProviderToLayout_run fp p w c doc Hc Hd), Hi.
  unfold newLayoutContent. now rewrite replace_absent.
Qed.

Lemma absent_anchor_inserts_import_only_witness :
  addContextProviderToLayout samplePaths ClerkProvider
    (layoutWorld sampleConfig layoutNoAnchor)
  = Ok (replaceFile (layoutPath sampleConfig)
          (modifiedImportContent (alias sampleConfig) samplePaths
             ClerkProvider layoutNoAnchor)
          (layoutWorld sampleConfig layoutNoAnchor)).
Proof.
  apply (@absent_anchor_inserts_import_only samplePaths ClerkProvider
           (layoutWorld sampleConfig layoutNoAnchor) sampleConfig
           layoutNoAnchor); reflexivity.
Defined.

Lemma findLast_absent (s pat : jsstring) :
  includes s pat = false -> findLast s pat = None.
Proof.
  induction s as [|ch s IH]; cbn [includes findLast]; intros H;
    apply orb_false_iff in H as [H1 H2].
  - now rewrite H1.
  - now rewrite (IH H2), H1.
Qed.

Lemma importStatement_has_import a fp p :
  includes (importStatement a fp p) (str "import") = true.
Proof.
  apply includes_startsWith. destruct p; reflexivity.
Qed.

(** C5, as the specification states it, fails: on a layout without any
    import statement the run ends normally; the import is inserted after the
    first line of the document, and the placeholder is wrapped. *)
Lemma no_import_completes :
  includes layoutNoImport (str "import") = false
  /\ (forall e,
        addContextProviderToLayout samplePaths ClerkProvider
          (layoutWorld sampleConfig layoutNoImport) <> Throw e)
  /\ exists w',
       addContextProviderToLayout samplePaths ClerkProvider
         (layoutWorld sampleConfig layoutNoImport) = Ok w'
       /\ disk w' (layoutPath sampleConfig)
          = Some (str "export default function RootLayout({ children }) {" ++ nl
                  ++ importStatement (str "@") samplePaths ClerkProvider ++ nl
                  ++ str "return (<html><body>" ++ nl
                  ++ str "<ClerkProvider>{children}</ClerkProvider>" ++ nl
                  ++ str "</body></html>);" ++ nl
                  ++ str "}" ++ nl).
Proof.
  split; [reflexivity|]. split; [intros e; vm_compute; discriminate|].
  eexists. split; [reflexivity|]. vm_compute. reflexivity.
Qed.

(** C5, amended. When the document contains no import statement, no error is
    raised: the search for the line feed starts at the beginning of the
    document, so the insertion point is the start of its second line (index 0
    when it has no line feed), and the patched document is written. *)
Theorem no_import_inserts_after_first_line fp p w c doc :
  config w = Some c ->
  disk w (layoutPath c) = Some doc ->
  includes doc (str "import") = false ->
  nextLineAfterLastImport doc = (indexOf doc nl 0 + 1)%Z
  /\ addContextProviderToLayout fp p w
     = Ok (replaceFile (layoutPath c)
             (newLayoutContent (alias c) fp p doc) w).
Proof.
  intros Hc Hd Hi. split.
  - unfold nextLineAfterLastImport, lastIndexOf.
    now rewrite (findLast_absent _ _ Hi).
  - rewrite (addContextProviderToLayout_run fp p w c doc Hc Hd).
    destruct (includes doc (importStatement (alias c) fp p)) eqn:E;
      [|reflexivity].
    rewrite (includes_trans _ _ _ E (importStatement_has_import _ _ _)) in Hi.
    discriminate.
Qed.

Lemma no_import_inserts_after_first_line_witness :
  nextLineAfterLastImport layoutNoImport = (indexOf layoutNoImport nl 0 + 1)%Z
  /\ addContextProviderToLayout samplePaths ClerkProvider
       (layoutWorld sampleConfig layoutNoImport)
     = Ok (replaceFile (layoutPath sampleConfig)
             (newLayoutContent (alias sampleConfig) samplePaths ClerkProvider
                layoutNoImport)
             (layoutWorld sampleConfig layoutNoImport)).
Proof.
  apply (@no_import_inserts_after_first_line samplePaths ClerkProvider
           (layoutWorld sampleConfig layoutNoImport) sampleConfig
           layoutNoImport); reflexivity.
Defined.

(** ** The aggregators *)

Lemma arrayIncludes_In (l : list jsstring) (x : jsstring) :
  arrayIncludes l x = true <-> In x l.
Proof.
  unfold arrayIncludes. rewrite existsb_exists. split.
  - intros (y & Hy & E). apply eqb_eq in E. now subst.
  - intros H. exists x. split; [assumption|apply eqb_refl].
Qed.

Lemma arrayIncludes_notIn (l : list jsstring) (x : jsstring) :
  arrayIncludes l x = false <-> ~ In x l.
Proof.
  rewrite <- arrayIncludes_In. destruct (arrayIncludes l x); split; congruence.
Qed.

Lemma dedupInto_In seen l x :
  In x (dedupInto seen l) <-> In x l /\ ~ In x seen.
Proof.
  revert seen; induction l as [|y l IH]; intros seen; cbn [dedupInto].
  - cbn. tauto.
  - destruct (arrayIncludes seen y) eqn:E.
    + apply arrayIncludes_In in E. rewrite IH. cbn [In].
      split; [tauto|]. intros [[->|H] Hn]; tauto.
    + apply arrayIncludes_notIn in E. cbn [In]. rewrite IH. cbn [In].
      destruct (list_eq_dec ascii_dec y x) as [->|Hne]; tauto.
Qed.

Lemma dedupInto_NoDup seen l : NoDup (dedupInto seen l).
Proof.
  revert seen; induction l as [|y l IH]; intros seen; cbn [dedupInto].
  - constructor.
  - destruct (arrayIncludes seen y); [apply IH|].
    constructor; [|apply IH]. rewrite dedupInto_In. cbn [In]. tauto.
Qed.

(** The elements come out in the order of insertion into the set: reading
    [l] from the left, a name is appended when it has not been seen. *)
Lemma dedupInto_snoc seen l x :
  dedupInto seen (l ++ [x])
  = dedupInto seen l
    ++ (if arrayIncludes seen x || arrayIncludes l x then [] else [x]).
Proof.
  revert seen; induction l as [|y l IH]; intros seen; cbn [app dedupInto].
  - cbn [arrayIncludes existsb]. rewrite orb_false_r.
    now destruct (arrayIncludes seen x).
  - assert (Hy : arrayIncludes (y :: l) x = eqb x y || arrayIncludes l x)
      by reflexivity.
    assert (Hs : arrayIncludes (y :: seen) x = eqb x y || arrayIncludes seen x)
      by reflexivity.
    destruct (arrayIncludes seen y) eqn:E; rewrite IH, Hy.
    + f_equal. destruct (eqb x y) eqn:Exy; [|reflexivity].
      apply eqb_eq in Exy; subst y. now rewrite E.
    + cbn [app]. do 2 f_equal. rewrite Hs.
      now destruct (eqb x y), (arrayIncludes seen x).
Qed.

Lemma pushAll_lists pushes w :
  installList_regular (pushAll pushes w)
  = installList_regular w ++ concat (map fst pushes)
  /\ installList_dev (pushAll pushes w)
     = installList_dev w ++ concat (map snd pushes)
  /\ config (pushAll pushes w) = config w
  /\ calls (pushAll pushes w) = calls w.
Proof.
  unfold pushAll. revert w; induction pushes as [|[r d] ps IH]; intros w.
  - cbn. now rewrite !app_nil_r.
  - cbn [fold_left map concat fst snd].
    destruct (IH (addToInstallList r d w)) as (H1 & H2 & H3 & H4).
    rewrite H1, H2, H3, H4. cbn. now rewrite <- !app_assoc.
Qed.

Lemma setSpread_count (l : list jsstring) (x : jsstring) :
  In x l -> count_occ jsstring_dec (setSpread l) x = 1.
Proof.
  intros H. apply NoDup_count_occ'; [apply dedupInto_NoDup|].
  apply dedupInto_In. cbn. tauto.
Qed.

Lemma setSpread_In (l : list jsstring) (x : jsstring) :
  In x (setSpread l) <-> In x l.
Proof. unfold setSpread. rewrite dedupInto_In. cbn. tauto. Qed.

Lemma installPackagesFromList_run w c :
  config w = Some c ->
  installList_regular w <> [] \/ installList_dev w <> [] ->
  installPackagesFromList w
  = Ok (call (InstallPackages
                (trim (join (str " ")
                         (map trim (setSpread (installList_regular w)))))
                (trim (join (str " ")
                         (map trim (setSpread (installList_dev w)))))
                (preferredPackageManager c))
          (call (SpinnerText (str "Installing Packages")) w)).
Proof.
  intros Hc Hne. unfold installPackagesFromList, readConfigFile.
  rewrite Hc. cbn [bind].
  destruct (installList_regular w), (installList_dev w);
    cbn [length Nat.eqb andb]; try reflexivity.
  destruct Hne; congruence.
Qed.

(** *** Trimming *)

Lemma trimStart_fix c s : isSpace c = false -> trimStart (c :: s) = c :: s.
Proof. intros H. cbn [trimStart]. now rewrite H. Qed.

Lemma trimStart_snoc l c :
  isSpace c = false -> trimStart (l ++ [c]) = trimStart l ++ [c].
Proof.
  intros H. induction l as [|x l IH]; cbn [app trimStart].
  - now rewrite H.
  - now destruct (isSpace x).
Qed.

Lemma trimEnd_cons c s :
  isSpace c = false -> trimEnd (c :: s) = c :: trimEnd s.
Proof.
  intros H. unfold trimEnd. cbn [rev].
  rewrite (trimStart_snoc _ _ H), rev_app_distr. reflexivity.
Qed.

Lemma trimmedName_inv n :
  trimmedName n = true ->
  exists c r n0 d,
    n = c :: r /\ n = n0 ++ [d] /\ isSpace c = false /\ isSpace d = false.
Proof.
  destruct n as [|c r]; [discriminate|]. cbn [trimmedName].
  intros H. apply andb_true_iff in H as [H1 H2].
  apply negb_true_iff in H1, H2.
  destruct (@exists_last _ (c :: r)) as (n0 & d & E); [discriminate|].
  exists c, r, n0, d. repeat split; try assumption.
  rewrite E in H2. now rewrite last_last in H2.
Qed.

Lemma trimmedName_intro c r n0 d :
  c :: r = n0 ++ [d] -> isSpace c = false -> isSpace d = false ->
  trimmedName (c :: r) = true.
Proof.
  intros E H1 H2. cbn [trimmedName]. rewrite E, last_last.
  now rewrite H1, H2.
Qed.

(** [trim] leaves a trimmed name as it is. *)
Lemma trim_trimmedName n : trimmedName n = true -> trim n = n.
Proof.
  intros H.
  destruct (trimmedName_inv n H) as (c & r & n0 & d & E1 & E2 & H1 & H2).
  unfold trim. rewrite E1, (trimStart_fix _ _ H1), <- E1, E2.
  unfold trimEnd. rewrite rev_app_distr. cbn [rev app].
  rewrite (trimStart_fix _ _ H2).
  cbn [rev]. now rewrite rev_involutive.
Qed.

(** What [trim] returns is empty or a trimmed name. *)
Lemma trimStart_head s :
  trimStart s = [] \/ exists c r, trimStart s = c :: r /\ isSpace c = false.
Proof.
  induction s as [|x s IH]; [now left|]. cbn [trimStart].
  destruct (isSpace x) eqn:E; [exact IH|]. right. now exists x, s.
Qed.

Lemma trim_result s : trim s = [] \/ trimmedName (trim s) = true.
Proof.
  unfold trim. destruct (trimStart_head s) as [-> | (c & r & -> & Hc)];
    [now left|].
  right. rewrite (trimEnd_cons _ _ Hc).
  unfold trimEnd.
  destruct (trimStart_head (rev r)) as [E | (d & r' & E & Hd)]; rewrite E.
  - cbn [rev]. apply (trimmedName_intro c [] [] c eq_refl Hc Hc).
  - cbn [rev]. now apply (trimmedName_intro c _ (c :: rev r') d).
Qed.

(** Trimmed names joined by single spaces make a trimmed text. *)
Lemma join_trimmedName l :
  l <> [] -> forallb trimmedName l = true ->
  trimmedName (join (str " ") l) = true.
Proof.
  induction l as [|n l IH]; [congruence|]. intros _ H.
  cbn [forallb] in H. apply andb_true_iff in H as [Hn Hl].
  destruct l as [|n' l]; [exact Hn|].
  assert (IH' := IH ltac:(discriminate) Hl).
  change (join (str " ") (n :: n' :: l))
    with (n ++ str " " ++ join (str " ") (n' :: l)).
  destruct (trimmedName_inv _ Hn) as (c & r & _ & _ & E1 & _ & H1 & _).
  destruct (trimmedName_inv _ IH') as (_ & _ & j0 & d & _ & E2 & _ & H2).
  rewrite E2, E1. cbn [app].
  apply (trimmedName_intro c _ (c :: r ++ str " " ++ j0) d);
    [|assumption|assumption].
  cbn [app]. now rewrite <- !app_assoc.
Qed.

Lemma map_trim_trimmedName l :
  forallb trimmedName l = true -> map trim l = l.
Proof.
  induction l as [|n l IH]; [reflexivity|]. cbn [forallb map].
  intros H. apply andb_true_iff in H as [Hn Hl].
  now rewrite (trim_trimmedName _ Hn), (IH Hl).
Qed.

Lemma formatted_trimmedName l :
  forallb trimmedName l = true -> formatted l = join (str " ") l.
Proof.
  intros H. unfold formatted. rewrite (map_trim_trimmedName _ H).
  destruct l as [|n l]; [reflexivity|].
  apply trim_trimmedName, join_trimmedName; [discriminate|assumption].
Qed.

Lemma forallb_setSpread (f : jsstring -> bool) l :
  forallb f l = true -> forallb f (setSpread l) = true.
Proof.
  rewrite !forallb_forall. intros H x Hx. apply H. now apply setSpread_In.
Qed.

Lemma trimStart_split s :
  exists a, s = a ++ trimStart s /\ forallb isSpace a = true.
Proof.
  induction s as [|c s (a & Ha & Hs)]; [now exists []|].
  cbn [trimStart]. destruct (isSpace c) eqn:E.
  - exists (c :: a). cbn [app forallb]. rewrite E, Hs. now rewrite <- Ha.
  - now exists [].
Qed.

Lemma forallb_rev (f : ascii -> bool) l :
  forallb f l = true -> forallb f (rev l) = true.
Proof.
  rewrite !forallb_forall. intros H x Hx. apply H. now apply in_rev.
Qed.

(** [trim] does what the specification says of trimming. *)
Lemma trim_stripped n : stripped n (trim n).
Proof.
  destruct (trimStart_split n) as (a & Ha & Hsa).
  destruct (trimStart_split (rev (trimStart n))) as (b & Hb & Hsb).
  exists a, (rev b). repeat split.
  - rewrite Ha at 1. f_equal. unfold trim, trimEnd.
    rewrite <- (rev_involutive (trimStart n)) at 1.
    rewrite Hb at 1. now rewrite rev_app_distr.
  - exact Hsa.
  - now apply forallb_rev.
  - apply trim_result.
Qed.

Lemma map_trim_stripped l : Forall2 stripped l (map trim l).
Proof.
  induction l as [|n l IH]; cbn [map]; constructor;
    [apply trim_stripped|exact IH].
Qed.

Lemma formatted_argumentOf l : argumentOf l (formatted l).
Proof.
  exists (map trim l). split; [apply map_trim_stripped|apply trim_stripped].
Qed.

Lemma trimStart_spaces a s :
  forallb isSpace a = true -> trimStart (a ++ s) = trimStart s.
Proof.
  induction a as [|c a IH]; [reflexivity|]. cbn [forallb app trimStart].
  intros H. apply andb_true_iff in H as [Hc Ha]. rewrite Hc. now apply IH.
Qed.

Lemma trimStart_all_spaces a : forallb isSpace a = true -> trimStart a = [].
Proof.
  intros H. rewrite <- (app_nil_r a). now rewrite trimStart_spaces.
Qed.

(** The trimmed text of the specification is the one [trim] returns, and
    no other. *)
Lemma stripped_trim n t : stripped n t -> t = trim n.
Proof.
  intros (a & b & -> & Ha & Hb & Ht). unfold trim.
  rewrite (trimStart_spaces a _ Ha).
  destruct Ht as [-> | Ht].
  - cbn [app]. now rewrite (trimStart_all_spaces b Hb).
  - destruct (trimmedName_inv t Ht) as (c & r & t0 & d & E1 & E2 & H1 & H2).
    assert (Hs : trimStart (t ++ b) = t ++ b)
      by (rewrite E1; cbn [app]; now apply trimStart_fix).
    assert (Hr : rev t = d :: rev t0)
      by (rewrite E2, rev_app_distr; reflexivity).
    rewrite Hs. unfold trimEnd. rewrite rev_app_distr.
    rewrite (trimStart_spaces (rev b) _ (forallb_rev _ _ Hb)).
    rewrite Hr, (trimStart_fix _ _ H2), <- Hr. now rewrite rev_involutive.
Qed.

Lemma argumentOf_formatted names arg :
  argumentOf names arg <-> arg = formatted names.
Proof.
  split.
  - intros (entries & He & Ha).
    assert (E : entries = map trim names).
    { clear Ha. induction He as [|n e names entries Hn _ IH]; [reflexivity|].
      cbn [map]. now rewrite (stripped_trim n e Hn), IH. }
    subst entries. now apply stripped_trim.
  - intros ->. apply formatted_argumentOf.
Qed.

(** C6, as the specification states it, fails: names are compared as they
    were pushed, before they are trimmed (line 170 precedes line 176). A
    name pushed once with a leading space and once without is kept twice,
    and the installer is handed the same name two times. *)
Lemma padded_name_passed_twice :
  exists w',
    installPackagesFromList
      (pushAll [ ([str " zod"], []); ([str "zod"], []) ]
         (emptyWorld sampleConfig)) = Ok w'
    /\ installInvocations w'
       = [InstallPackages (str "zod zod") [] (Some (str "pnpm"))].
Proof. eexists. split; reflexivity. Qed.

(** C6, amended. After any run of calls of [addToInstallList] that pushed at
    least one name, the flush makes one installer call. Each of its two
    argument strings is made of the names pushed to its collection,
    deduplicated as a set is, by comparison of the names as pushed (each
    distinct name once, in the order in which the names were first seen):
    every name kept is trimmed, the trimmed names are joined with single
    spaces and the whole is trimmed. When no name pushed is empty or starts
    or ends with white space, the argument string is the distinct names
    themselves, separated by single spaces. Two runs that pushed the same
    set of names issue the same names, whatever their order and
    repetitions. *)
Theorem installPackagesFromList_dedup pushes w c :
  config w = Some c ->
  installList_regular w = [] ->
  installList_dev w = [] ->
  pushedRegular pushes <> [] \/ pushedDev pushes <> [] ->
  exists regular dev,
    installPackagesFromList (pushAll pushes w)
    = Ok (call (InstallPackages regular dev (preferredPackageManager c))
            (call (SpinnerText (str "Installing Packages"))
               (pushAll pushes w)))
    /\ argumentOf (setSpread (pushedRegular pushes)) regular
    /\ argumentOf (setSpread (pushedDev pushes)) dev
    /\ (forallb trimmedName (pushedRegular pushes) = true ->
        regular = join (str " ") (setSpread (pushedRegular pushes)))
    /\ (forallb trimmedName (pushedDev pushes) = true ->
        dev = join (str " ") (setSpread (pushedDev pushes)))
    /\ (forall l x, In x l -> count_occ jsstring_dec (setSpread l) x = 1)
    /\ (forall l x, In x (setSpread l) -> In x l)
    /\ (forall l x,
          setSpread (l ++ [x])
          = setSpread l ++ (if arrayIncludes l x then [] else [x]))
    /\ (forall l l',
          (forall x, In x l <-> In x l') ->
          Permutation (setSpread l) (setSpread l')).
Proof.
  intros Hc Hr Hd Hne.
  destruct (pushAll_lists pushes w) as (H1 & H2 & H3 & _).
  rewrite Hr in H1. rewrite Hd in H2. cbn [app] in H1, H2.
  fold (pushedRegular pushes) in H1. fold (pushedDev pushes) in H2.
  exists (formatted (setSpread (pushedRegular pushes))),
    (formatted (setSpread (pushedDev pushes))).
  split; [|split; [|split; [|split; [|split; [|split; [|split; [|split]]]]]]].
  - rewrite (@installPackagesFromList_run (pushAll pushes w) c).
    + now rewrite H1, H2.
    + now rewrite H3.
    + now rewrite H1, H2.
  - apply formatted_argumentOf.
  - apply formatted_argumentOf.
  - intros H. now apply formatted_trimmedName, forallb_setSpread.
  - intros H. now apply formatted_trimmedName, forallb_setSpread.
  - apply setSpread_count.
  - intros l x. apply setSpread_In.
  - intros l x. unfold setSpread. apply dedupInto_snoc.
  - intros l l' H. apply NoDup_Permutation; try apply dedupInto_NoDup.
    intros x. rewrite !setSpread_In. apply H.
Qed.

Lemma installPackagesFromList_dedup_witness :
  exists regular dev,
    installPackagesFromList (pushAll samplePushes (emptyWorld sampleConfig))
    = Ok (call (InstallPackages regular dev
                  (preferredPackageManager sampleConfig))
            (call (SpinnerText (str "Installing Packages"))
               (pushAll samplePushes (emptyWorld sampleConfig))))
    /\ argumentOf (setSpread (pushedRegular samplePushes)) regular
    /\ argumentOf (setSpread (pushedDev samplePushes)) dev
    /\ (forallb trimmedName (pushedRegular samplePushes) = true ->
        regular = join (str " ") (setSpread (pushedRegular samplePushes)))
    /\ (forallb trimmedName (pushedDev samplePushes) = true ->
        dev = join (str " ") (setSpread (pushedDev samplePushes)))
    /\ (forall l x, In x l -> count_occ jsstring_dec (setSpread l) x = 1)
    /\ (forall l x, In x (setSpread l) -> In x l)
    /\ (forall l x,
          setSpread (l ++ [x])
          = setSpread l ++ (if arrayIncludes l x then [] else [x]))
    /\ (forall l l',
          (forall x, In x l <-> In x l') ->
          Permutation (setSpread l) (setSpread l')).
Proof.
  apply (@installPackagesFromList_dedup samplePushes (emptyWorld sampleConfig)
           sampleConfig); try reflexivity.
  left. discriminate.
Defined.

(** The sample run issues "drizzle-orm zod next-auth" and
    "drizzle-kit tsx". *)
Example installPackagesFromList_sample :
  exists w',
    installPackagesFromList (pushAll samplePushes (emptyWorld sampleConfig))
    = Ok w'
    /\ installInvocations w'
       = [InstallPackages (str "drizzle-orm zod next-auth")
            (str "drizzle-kit tsx") (Some (str "pnpm"))].
Proof. eexists. split; reflexivity. Qed.

(** C7, as the specification states it, fails: the guard of the flush looks
    at the lengths of the lists, not at the strings built from them. With
    one blank name pushed, both argument strings are empty and the installer
    is called all the same. *)
Lemma blank_name_still_installs :
  exists w',
    installPackagesFromList blankNameWorld = Ok w'
    /\ installInvocations w'
       = [InstallPackages [] [] (preferredPackageManager sampleConfig)]
    /\ installInvocations blankNameWorld = [].
Proof. eexists. repeat split; reflexivity. Qed.

(** C7, amended. The flush of the install list calls the installer exactly
    when one of its two lists is non-empty, once; the flush of the component
    list calls the component installer exactly when its list is non-empty,
    once. Flushing an aggregator whose lists are empty makes no install
    call. *)
Theorem flush_guards w c :
  config w = Some c ->
  exists w',
    installPackagesFromList w = Ok w'
    /\ installInvocations w'
       = match installList_regular w, installList_dev w with
         | [], [] => []
         | _, _ =>
             [InstallPackages (formatted (setSpread (installList_regular w)))
                (formatted (setSpread (installList_dev w)))
                (preferredPackageManager c)]
         end ++ installInvocations w
    /\ installInvocations (installShadcnComponentList w)
       = match shadCnComponentList w with
         | [] => []
         | _ => [InstallShadcnUIComponents (shadCnComponentList w)]
         end ++ installInvocations w.
Proof.
  intros Hc. unfold installPackagesFromList, readConfigFile.
  rewrite Hc. cbn [bind]. unfold installShadcnComponentList.
  destruct (installList_regular w), (installList_dev w),
    (shadCnComponentList w); cbn [length Nat.eqb andb];
    eexists; repeat split; reflexivity.
Qed.

Lemma flush_guards_witness :
  exists w',
    installPackagesFromList componentsWorld = Ok w'
    /\ installInvocations w'
       = match installList_regular componentsWorld,
               installList_dev componentsWorld with
         | [], [] => []
         | _, _ =>
             [InstallPackages
                (formatted (setSpread (installList_regular componentsWorld)))
                (formatted (setSpread (installList_dev componentsWorld)))
                (preferredPackageManager sampleConfig)]
         end ++ installInvocations componentsWorld
    /\ installInvocations (installShadcnComponentList componentsWorld)
       = match shadCnComponentList componentsWorld with
         | [] => []
         | _ => [InstallShadcnUIComponents
                   (shadCnComponentList componentsWorld)]
         end ++ installInvocations componentsWorld.
Proof.
  apply (@flush_guards componentsWorld sampleConfig). reflexivity.
Defined.

(** Without a configuration the flush of the install list throws before its
    guard, and makes no call either. *)
Lemma installPackagesFromList_no_config w :
  config w = None -> installPackagesFromList w = Throw TypeError.
Proof.
  intros H. unfold installPackagesFromList, readConfigFile. now rewrite H.
Qed.

(** ** The summary reporter *)

(** C8, as the specification states it, fails: the selections of the example
    set [dbProvider] and not [db], and the migration step reads [db]
    (line 256); the step is 'push'. Here with the styles of [chalk] off and
    the package manager of the sample configuration. *)
Lemma summary_example_pushes :
  printNextSteps plainChalk sampleAuthProviders (fun _ => str "4.2")
    sampleSelections 4200 (emptyWorld sampleConfig)
  = Ok (showNextSteps plainChalk (fun _ => str "4.2")
          {| installed :=
               [ str "ORM: Drizzle (using pg)";
                 str "Authentication: Auth.js (with google providers)";
                 str "RPC: tRPC";
                 str "Component Library: ShadcnUI" ];
             steps :=
               [ str "Add Environment Variables to your .env";
                 str "Run 'pnpm run db:generate'";
                 str "Run 'pnpm run db:push'";
                 str "Run 'pnpm run dev'";
                 str "Open localhost:3000/ in your browser";
                 str "Build something awesome!" ];
             summaryNotes :=
               [ str "google auth: create credentials at " ++ sampleWebsite
                 ++ nl ++ str "  (redirect URI: /api/auth/callback/google)";
                 issueNote ] |}
          4200 (emptyWorld sampleConfig))
  /\ ~ In (str "Run 'pnpm run db:migrate'")
         (nextSteps (ppmOf (Some sampleConfig)) sampleSelections [str "trpc"]).
Proof.
  split; [reflexivity|].
  cbn. intros H. repeat (destruct H as [H|H]; [discriminate H|]). exact H.
Qed.

(** C8, amended. For the selections of the example and duration 4200, the
    lists handed to [showNextSteps] are: the four installed-feature labels
    (the part before the colon in the underline style); the
    environment-variable note, the four migration steps and the closing
    step; the Google instruction line and the issue-reporting line. The
    second migration step is 'push' for the selections as given, which hold
    no [db] field, and 'migrate' once [db] is "pg". *)
Theorem summary_example chalk AuthProviders seconds w website :
  AuthProviders (str "google") = Some website ->
  printNextSteps chalk AuthProviders seconds sampleSelections 4200 w
  = Ok (showNextSteps chalk seconds
          {| installed :=
               [ underline chalk (str "ORM") ++ str ": Drizzle (using pg)";
                 underline chalk (str "Authentication")
                   ++ str ": Auth.js (with google providers)";
                 underline chalk (str "RPC") ++ str ": tRPC";
                 underline chalk (str "Component Library")
                   ++ str ": ShadcnUI" ];
             steps :=
               [ str "Add Environment Variables to your .env";
                 str "Run '" ++ ppmOf (config w) ++ str " run db:generate'";
                 str "Run '" ++ ppmOf (config w) ++ str " run db:push'";
                 str "Run '" ++ ppmOf (config w) ++ str " run dev'";
                 str "Open localhost:3000/ in your browser";
                 str "Build something awesome!" ];
             summaryNotes :=
               [ str "google auth: create credentials at " ++ website ++ nl
                   ++ str "  (redirect URI: /api/auth/callback/google)";
                 issueNote ] |}
          4200 w)
  /\ printNextSteps chalk AuthProviders seconds
       (withDb (str "pg") sampleSelections) 4200 w
     = Ok (showNextSteps chalk seconds
          {| installed :=
               [ underline chalk (str "ORM") ++ str ": Drizzle (using pg)";
                 underline chalk (str "Authentication")
                   ++ str ": Auth.js (with google providers)";
                 underline chalk (str "RPC") ++ str ": tRPC";
                 underline chalk (str "Component Library")
                   ++ str ": ShadcnUI" ];
             steps :=
               [ str "Add Environment Variables to your .env";
                 str "Run '" ++ ppmOf (config w) ++ str " run db:generate'";
                 str "Run '" ++ ppmOf (config w) ++ str " run db:migrate'";
                 str "Run '" ++ ppmOf (config w) ++ str " run dev'";
                 str "Open localhost:3000/ in your browser";
                 str "Build something awesome!" ];
             summaryNotes :=
               [ str "google auth: create credentials at " ++ website ++ nl
                   ++ str "  (redirect URI: /api/auth/callback/google)";
                 issueNote ] |}
          4200 w).
Proof.
  intros Hg. unfold printNextSteps, summary, packagesInstalledList, notes,
    authProviderInstructions. cbn in Hg |- *. rewrite Hg.
  split; reflexivity.
Qed.

Lemma summary_example_witness :
  printNextSteps plainChalk sampleAuthProviders (fun _ => str "4.2")
    sampleSelections 4200 (emptyWorld sampleConfig)
  = Ok (showNextSteps plainChalk (fun _ => str "4.2")
          {| installed :=
               [ str "ORM: Drizzle (using pg)";
                 str "Authentication: Auth.js (with google providers)";
                 str "RPC: tRPC";
                 str "Component Library: ShadcnUI" ];
             steps :=
               [ str "Add Environment Variables to your .env";
                 str "Run 'pnpm run db:generate'";
                 str "Run 'pnpm run db:push'";
                 str "Run 'pnpm run dev'";
                 str "Open localhost:3000/ in your browser";
                 str "Build something awesome!" ];
             summaryNotes :=
               [ str "google auth: create credentials at " ++ sampleWebsite
                 ++ nl ++ str "  (redirect URI: /api/auth/callback/google)";
                 issueNote ] |}
          4200 (emptyWorld sampleConfig))
  /\ printNextSteps plainChalk sampleAuthProviders (fun _ => str "4.2")
       (withDb (str "pg") sampleSelections) 4200 (emptyWorld sampleConfig)
     = Ok (showNextSteps plainChalk (fun _ => str "4.2")
          {| installed :=
               [ str "ORM: Drizzle (using pg)";
                 str "Authentication: Auth.js (with google providers)";
                 str "RPC: tRPC";
                 str "Component Library: ShadcnUI" ];
             steps :=
               [ str "Add Environment Variables to your .env";
                 str "Run 'pnpm run db:generate'";
                 str "Run 'pnpm run db:migrate'";
                 str "Run 'pnpm run dev'";
                 str "Open localhost:3000/ in your browser";
                 str "Build something awesome!" ];
             summaryNotes :=
               [ str "google auth: create credentials at " ++ sampleWebsite
                 ++ nl ++ str "  (redirect URI: /api/auth/callback/google)";
                 issueNote ] |}
          4200 (emptyWorld sampleConfig)).
Proof.
  apply (summary_example plainChalk sampleAuthProviders (fun _ => str "4.2")
           (emptyWorld sampleConfig)
           sampleWebsite).
  reflexivity.
Defined.





(** Selections without [authProviders] and without the authentication of
    Auth.js are well-typed, and the reporter returns on them. *)
Example printNextSteps_without_providers :
  wellTyped sampleAuthProviders noSelections
  /\ exists w',
       printNextSteps plainChalk sampleAuthProviders (fun _ => str "4.2")
         noSelections 4200 (emptyWorld sampleConfig) = Ok w'.
Proof. split; [exact I|]. eexists. reflexivity. Qed.

(** Where the reporter raises a [TypeError]: an array field is [undefined]
    where it is read without a guard (lines 220 and 234), or the read
    [AuthProviders[provider]] gives [undefined] (line 275). *)
Lemma printNextSteps_throws chalk AuthProviders seconds r duration w :
  miscPackages r = None
  \/ (auth r = Some next_auth /\ authProviders r = None)
  \/ (exists p ps,
        authProviders r = Some (p :: ps) /\ AuthProviders p = None) ->
  printNextSteps chalk AuthProviders seconds r duration w = Throw TypeError.
Proof.
  intros [Hm | [[Ha Hp] | (p & ps & Hp & Hnone)]];
    unfold printNextSteps, summary, packagesInstalledList.
  - rewrite Hm. destruct (authIs r next_auth); [|reflexivity].
    now destruct (authProviders r).
  - unfold authIs. now rewrite Ha, Hp.
  - rewrite Hp. cbn [array bind].
    destruct (authIs r next_auth); cbn [bind];
      (destruct (miscPackages r); cbn [array bind]; [|reflexivity]);
      unfold notes, authProviderInstructions; rewrite Hp; cbn [mapM];
      now rewrite Hnone.
Qed.

(** ** Counting occurrences across line feeds *)

Section Occurrences.

Implicit Types s pat u v : jsstring.

Lemma occurrences_0_iff s pat :
  occurrences s pat = 0 <-> includes s pat = false.
Proof.
  induction s as [|c s IH]; cbn [occurrences includes].
  - destruct (startsWith [] pat); cbn; split; (discriminate || reflexivity).
  - destruct (startsWith (c :: s) pat); cbn [orb Nat.add].
    + split; discriminate.
    + exact IH.
Qed.

Lemma occurrences_absent s pat :
  includes s pat = false -> occurrences s pat = 0.
Proof. apply occurrences_0_iff. Qed.

Lemma startsWith_refl s : startsWith s s = true.
Proof.
  rewrite <- (app_nil_r s) at 1. apply startsWith_app.
Qed.

Lemma occurrences_self pat : pat <> [] -> occurrences pat pat = 1.
Proof.
  destruct pat as [|c r]; [congruence|]. intros _.
  cbn [occurrences]. rewrite startsWith_refl.
  rewrite occurrences_absent; [reflexivity|].
  destruct (includes r (c :: r)) eqn:E; [|reflexivity].
  apply includes_length in E. cbn [length] in E. lia.
Qed.

Lemma afterBreaks_spec pat t q :
  pat = t ++ nl ++ q -> In q (afterBreaks pat).
Proof.
  revert pat; induction t as [|c t IH]; intros pat ->; cbn [app afterBreaks nl].
  - cbn. now left.
  - apply in_or_app. right. now apply IH.
Qed.

Lemma clearOf_spec v pat t q :
  clearOf v pat = true -> pat = t ++ nl ++ q -> startsWith v q = false.
Proof.
  unfold clearOf. rewrite forallb_forall. intros H E.
  apply afterBreaks_spec in E. apply H in E. now destruct (startsWith v q).
Qed.

(** An occurrence that starts in [t] and is followed by a line feed lies in
    [t], unless [pat] continues over the line feed into [v]. *)
Lemma startsWith_before_break t v pat :
  clearOf v pat = true -> t <> [] ->
  startsWith (t ++ nl ++ v) pat = startsWith t pat.
Proof.
  intros Hc Ht. destruct (startsWith t pat) eqn:E.
  - now apply startsWith_app_l.
  - destruct (startsWith (t ++ nl ++ v) pat) eqn:E2; [|reflexivity].
    destruct (startsWith_app_cases _ _ _ E2) as [H | (q & Hp & Hq & Hs)];
      [congruence|].
    destruct q as [|c q]; [congruence|].
    cbn [nl app] in Hs. cbn [startsWith] in Hs.
    apply andb_true_iff in Hs as [Hcq Hs]. apply Ascii.eqb_eq in Hcq. subst c.
    now rewrite (@clearOf_spec v pat t q Hc Hp) in Hs.
Qed.

Lemma startsWith_break v pat :
  clearOf v pat = true -> pat <> [] -> startsWith (nl ++ v) pat = false.
Proof.
  intros Hc Hp. destruct pat as [|c q]; [congruence|].
  cbn [nl app startsWith]. destruct (Ascii.eqb c "010"%char) eqn:E;
    [|reflexivity].
  apply Ascii.eqb_eq in E. subst c. cbn [andb].
  exact (@clearOf_spec v _ [] q Hc eq_refl).
Qed.

(** Occurrences on the two sides of a line feed add up. *)
Lemma occurrences_break u v pat :
  clearOf v pat = true -> pat <> [] ->
  occurrences (u ++ nl ++ v) pat = occurrences u pat + occurrences v pat.
Proof.
  intros Hc Hp. induction u as [|c u IH].
  - cbn [app]. change (nl ++ v) with ("010"%char :: v).
    cbn [occurrences]. change ("010"%char :: v) with (nl ++ v).
    rewrite (startsWith_break _ _ Hc Hp).
    destruct pat; [congruence|reflexivity].
  - change ((c :: u) ++ nl ++ v) with (c :: (u ++ nl ++ v)).
    cbn [occurrences]. rewrite IH.
    change (c :: (u ++ nl ++ v)) with ((c :: u) ++ nl ++ v).
    rewrite (startsWith_before_break); [lia|assumption|discriminate].
Qed.

Lemma includes_break u v pat :
  clearOf v pat = true -> pat <> [] ->
  includes (u ++ nl ++ v) pat = includes u pat || includes v pat.
Proof.
  intros Hc Hp.
  destruct (includes u pat) eqn:Eu; [now apply includes_app_l|].
  destruct (includes v pat) eqn:Ev; [now apply includes_app_r, includes_app_r|].
  apply occurrences_0_iff. rewrite occurrences_break by assumption.
  now rewrite !occurrences_absent.
Qed.

(** A pattern without line feed is clear of everything. *)
Lemma afterBreaks_plain pat : includes pat nl = false -> afterBreaks pat = [].
Proof.
  induction pat as [|c r IH]; [reflexivity|].
  cbn [includes afterBreaks]. intros H. apply orb_false_iff in H as [H1 H2].
  rewrite (IH H2), app_nil_r.
  cbn [nl startsWith] in H1. rewrite startsWith_nil, andb_true_r in H1.
  rewrite Ascii.eqb_sym. now rewrite H1.
Qed.

Lemma clearOf_plain v pat : includes pat nl = false -> clearOf v pat = true.
Proof. intros H. unfold clearOf. now rewrite afterBreaks_plain. Qed.

Lemma includes_app_false u v pat :
  includes (u ++ v) pat = false ->
  includes u pat = false /\ includes v pat = false.
Proof.
  intros H. split.
  - destruct (includes u pat) eqn:E; [|reflexivity].
    now rewrite (includes_app_l _ v _ E) in H.
  - destruct (includes v pat) eqn:E; [|reflexivity].
    now rewrite (includes_app_r u _ _ E) in H.
Qed.

End Occurrences.

(** ** Layout documents *)

Lemma findLast_app_some u v pat i :
  findLast v pat = Some i -> findLast (u ++ v) pat = Some (length u + i).
Proof.
  intros H. induction u as [|c u IH]; [exact H|].
  cbn [app findLast length]. now rewrite IH.
Qed.

Lemma findLast_total s pat :
  includes s pat = true -> exists i, findLast s pat = Some i.
Proof.
  induction s as [|c s IH]; cbn [includes findLast]; intros H.
  - rewrite orb_false_r in H. rewrite H. now eexists.
  - destruct (findLast s pat) as [i|] eqn:E; [now eexists|].
    destruct (startsWith (c :: s) pat); [now eexists|].
    cbn [orb] in H. destruct (IH H) as [i Hi]. discriminate.
Qed.

Lemma findLast_sound s pat i :
  findLast s pat = Some i ->
  exists a b, s = a ++ pat ++ b /\ length a = i.
Proof.
  revert i; induction s as [|c s IH]; intros i; cbn [findLast].
  - destruct (startsWith [] pat) eqn:E; [|discriminate]. intros [= <-].
    destruct (startsWith_inv _ _ E) as [rest Hr]. now exists [], rest.
  - destruct (findLast s pat) as [j|] eqn:Ej.
    + intros [= <-]. destruct (IH j eq_refl) as (a & b & -> & Hl).
      exists (c :: a), b. cbn [length]. now rewrite Hl.
    + destruct (startsWith (c :: s) pat) eqn:E; [|discriminate].
      intros [= <-]. destruct (startsWith_inv _ _ E) as [rest Hr].
      now exists [], rest.
Qed.

Lemma find_first w pat rest :
  startsIn w (pat ++ rest) pat = false ->
  find (w ++ pat ++ rest) pat = Some (length w).
Proof.
  induction w as [|c w IH]; cbn [startsIn]; intros H.
  - cbn [app length]. destruct (pat ++ rest) eqn:E; cbn [find];
      rewrite <- E, startsWith_app; reflexivity.
  - apply orb_false_iff in H as [H1 H2].
    cbn [app find length]. cbn [app] in H1. rewrite H1.
    now rewrite (IH H2).
Qed.

Lemma startsIn_nl w rest :
  includes w nl = false -> startsIn w (nl ++ rest) nl = false.
Proof.
  intros H. destruct (startsIn w (nl ++ rest) nl) eqn:E; [|reflexivity].
  destruct (startsIn_cases _ _ _ E) as [H' | (w0 & a & b & y0 & _ & _ & Hadj)];
    [congruence|discriminate].
Qed.

(** On a layout document, the slices of the patcher are the import block and
    the body. *)
Lemma layoutDocument_slices doc blk body :
  layoutDocument doc blk body ->
  beforeImport doc = blk /\ afterImport doc = body.
Proof.
  intros (Hdoc & (pre & line & Hblk & Himp & Hnl) & Hbody & _).
  assert (Hz : includes (nl ++ body) (str "import") = false).
  { change (nl ++ body) with ("010"%char :: body). cbn [includes].
    now rewrite Hbody. }
  assert (Hs : doc = pre ++ line ++ nl ++ body)
    by now rewrite Hdoc, Hblk, <- !app_assoc.
  destruct (findLast_total (line ++ nl ++ body) (str "import")
              (includes_app_l _ _ _ Himp)) as [i Hi].
  destruct (findLast_sound _ _ _ Hi) as (a & b & Hab & Hla).
  assert (Hsplit : exists l,
             line = a ++ l /\ str "import" ++ b = l ++ nl ++ body).
  { apply app_eq_app in Hab as [l [[H1 H2] | [H1 H2]]].
    - now exists l.
    - rewrite H2 in Hz. apply includes_app_false in Hz as [_ Hz].
      pose proof (includes_intro [] (str "import") b) as Hi2.
      cbn [app] in Hi2. congruence. }
  destruct Hsplit as (l & Hline & Hrest).
  assert (Hl : includes l nl = false).
  { rewrite Hline in Hnl. now apply includes_app_false in Hnl. }
  assert (Hnext : nextLineAfterLastImport doc = Z.of_nat (length blk)).
  { unfold nextLineAfterLastImport, lastIndexOf, indexOf.
    rewrite Hs, (findLast_app_some pre _ _ i Hi).
    replace (Z.to_nat _) with (length (pre ++ a))
      by (unfold len; rewrite !length_app, Hla;
          rewrite Hline, !length_app; lia).
    rewrite Hline, <- !app_assoc, (app_assoc pre a).
    rewrite skipn_app, skipn_all, Nat.sub_diag. cbn [skipn app].
    rewrite (find_first l nl body (startsIn_nl l body Hl)).
    rewrite Hblk, Hline, !length_app. cbn [length nl]. lia. }
  unfold beforeImport, afterImport. rewrite Hnext.
  rewrite slice_head, slice_tail by (unfold len; rewrite Hdoc, length_app; lia).
  rewrite Nat2Z.id, Hdoc.
  rewrite firstn_app, firstn_all, Nat.sub_diag, skipn_app, skipn_all,
    Nat.sub_diag. cbn [firstn skipn app]. now rewrite app_nil_r.
Qed.

(** ** Shapes of the texts *)

Lemma replacementText_shape p b :
  p <> Navbar ->
  replacementText p b = wrapOpen p ++ rootChildrenText b ++ wrapClose p.
Proof.
  intros Hp. destruct p; try congruence;
    cbn [replacementText wrapOpen wrapClose app]; now rewrite <- ?app_assoc.
Qed.

Lemma importStatement_lines a fp p :
  importStatement a fp p = importHead fp p ++ importLastLine a fp p.
Proof.
  destruct p; cbn [importStatement importHead importLastLine app];
    now rewrite <- ?app_assoc.
Qed.

(** A single character occurs in [u ++ v] when it occurs in [u] or [v]. *)
Lemma includes_char_app u v c :
  includes (u ++ v) [c] = includes u [c] || includes v [c].
Proof.
  rewrite includes_startsIn. f_equal.
  destruct (startsIn u v [c]) eqn:E.
  - destruct (startsIn_cases _ _ _ E) as [H | (w0 & a & b & y0 & _ & _ & Hadj)];
      [now rewrite H|discriminate].
  - destruct (includes u [c]) eqn:E2; [|reflexivity].
    destruct (includes_inv _ _ E2) as (pre & post & ->).
    rewrite startsIn_app in E.
    apply orb_false_iff in E as [_ E]. cbn in E.
    now rewrite Ascii.eqb_refl, startsWith_nil in E.
Qed.

Lemma plainPaths_inv a fp :
  plainPaths a fp = true ->
  includes a nl = false
  /\ includes (authProviderComponent fp) nl = false
  /\ includes (trpcProvider fp) nl = false
  /\ includes (navbarComponent fp) nl = false
  /\ includes (sidebarComponent fp) nl = false.
Proof.
  unfold plainPaths. rewrite !andb_true_iff, !negb_true_iff. tauto.
Qed.

Lemma importLastLine_plain a fp p :
  plainPaths a fp = true ->
  includes (importLastLine a fp p) nl = false
  /\ includes (importLastLine a fp p) (str "import") = true.
Proof.
  intros H. apply plainPaths_inv in H as (Ha & H1 & H2 & H3 & H4).
  split.
  - destruct p; cbn [importLastLine importStatement]; unfold nl in *;
      rewrite !includes_char_app, ?Ha, ?H1, ?H2, ?H3, ?H4; reflexivity.
  - apply includes_startsWith. destruct p; reflexivity.
Qed.

(** ** Gluing texts *)

Lemma replace_head pat rest rep : replace (pat ++ rest) pat rep = rep ++ rest.
Proof.
  assert (H : startsWith (pat ++ rest) pat = true) by apply startsWith_app.
  destruct (pat ++ rest) eqn:E; cbn [replace]; rewrite H; rewrite <- E;
    now rewrite skipn_app, skipn_all, Nat.sub_diag.
Qed.

Lemma startsIn_of_includes w y pat :
  pat <> [] -> includes w pat = true -> startsIn w y pat = true.
Proof.
  intros Hp H. destruct (includes_inv _ _ H) as (pre & post & ->).
  rewrite startsIn_app. apply orb_true_iff. right.
  destruct pat as [|c r]; [congruence|].
  cbn [app startsIn]. apply orb_true_iff. left.
  change (c :: (r ++ post) ++ y) with (((c :: r) ++ post) ++ y).
  rewrite <- app_assoc. apply startsWith_app.
Qed.

Lemma adjacent_In pat a b : adjacent pat a b = true -> In a pat /\ In b pat.
Proof.
  induction pat as [|c1 [|c2 r] IH]; cbn [adjacent]; try discriminate.
  intros H. apply orb_true_iff in H as [H|H].
  - apply andb_true_iff in H as [H1 H2].
    apply Ascii.eqb_eq in H1, H2. subst. cbn. tauto.
  - destruct (IH H) as [Ha Hb]. split; now right.
Qed.

(** Two texts glued at a character that the pattern does not hold: the
    pattern occurs in the whole when it occurs in a part. *)
Lemma includes_glue_r u b v pat :
  pat <> [] -> ~ In b pat ->
  includes (u ++ b :: v) pat = includes u pat || includes (b :: v) pat.
Proof.
  intros Hp Hb. rewrite includes_startsIn. f_equal.
  destruct (startsIn u (b :: v) pat) eqn:E.
  - destruct (startsIn_cases _ _ _ E)
      as [H | (w0 & a & b' & y0 & _ & Hy & Hadj)]; [now rewrite H|].
    injection Hy as <- _. apply adjacent_In in Hadj. tauto.
  - destruct (includes u pat) eqn:E2; [|reflexivity].
    now rewrite (startsIn_of_includes _ (b :: v) _ Hp E2) in E.
Qed.

Lemma includes_glue_l u a v pat :
  pat <> [] -> ~ In a pat ->
  includes ((u ++ [a]) ++ v) pat = includes (u ++ [a]) pat || includes v pat.
Proof.
  intros Hp Ha. rewrite includes_startsIn. f_equal.
  destruct (startsIn (u ++ [a]) v pat) eqn:E.
  - destruct (startsIn_cases _ _ _ E)
      as [H | (w0 & a' & b & y0 & Hw & _ & Hadj)]; [now rewrite H|].
    apply app_inj_tail in Hw as [_ <-]. apply adjacent_In in Hadj. tauto.
  - destruct (includes (u ++ [a]) pat) eqn:E2; [|reflexivity].
    now rewrite (startsIn_of_includes _ v _ Hp E2) in E.
Qed.

(** The first and the last character of a replacement text are a line
    feed, "<", "{" or ">": none of them is in "import" or in "<Navbar />"
    but for its own first and last. *)
Lemma replacementText_ends p b :
  exists c1 r1 r2 c2,
    replacementText p b = c1 :: r1
    /\ replacementText p b = r2 ++ [c2]
    /\ ~ In c1 (str "import") /\ ~ In c2 (str "import").
Proof.
  exists (hd " "%char (replacementText p b)), (tl (replacementText p b)),
    (removelast (replacementText p b)), (last (replacementText p b) " "%char).
  destruct p, b; vm_compute; repeat split; intros H;
    repeat (destruct H as [H|H]; [discriminate H|]); exact H.
Qed.

Lemma replacementText_no_import p b :
  includes (replacementText p b) (str "import") = false.
Proof. destruct p, b; vm_compute; reflexivity. Qed.

Lemma searchValue_not_nl b rest :
  startsWith (nl ++ rest) (searchValue b) = false.
Proof. destruct b; reflexivity. Qed.

Lemma includes_blk_searchValue blk b :
  includes blk childrenText = false -> includes blk (searchValue b) = false.
Proof.
  intros H. destruct (includes blk (searchValue b)) eqn:E; [|reflexivity].
  now rewrite (includes_trans _ _ _ E (searchValue_has_children b)) in H.
Qed.

(** ** One run of the patcher on a layout document *)

Section Step.

Variables (a : jsstring) (fp : ImportPaths) (p : Provider).

Let m := importStatement a fp p.

Hypothesis plain : plainPaths a fp = true.
Hypothesis no_anchor : includes m childrenText = false.

Lemma includes_import_block blk :
  (exists pre line, blk = pre ++ line ++ nl) ->
  includes blk childrenText = false ->
  includes (blk ++ m ++ nl) childrenText = false.
Proof.
  intros (pre & line & ->) H.
  assert (Hc : forall v, clearOf v childrenText = true)
    by (intros v; now apply clearOf_plain).
  assert (Hne : childrenText <> []) by discriminate.
  replace ((pre ++ line ++ nl) ++ m ++ nl)
    with ((pre ++ line) ++ nl ++ (m ++ nl ++ []))
    by now rewrite app_nil_r, <- !app_assoc.
  rewrite !includes_break by auto.
  rewrite app_assoc in H. apply includes_app_false in H as [H _].
  now rewrite H, no_anchor.
Qed.

(** The run replaces the first anchor of the body and appends the import
    statement to the import block; the result is a layout document again. *)
Lemma patch_layoutDocument doc blk body c1 c2 :
  layoutDocument doc blk body ->
  body = c1 ++ searchValue (includes doc navbarMarker) ++ c2 ->
  startsIn c1 (searchValue (includes doc navbarMarker) ++ c2)
    (searchValue (includes doc navbarMarker)) = false ->
  newLayoutContent a fp p doc
  = (blk ++ m ++ nl)
    ++ c1 ++ replacementText p (includes doc navbarMarker) ++ c2
  /\ layoutDocument (newLayoutContent a fp p doc) (blk ++ m ++ nl)
       (c1 ++ replacementText p (includes doc navbarMarker) ++ c2).
Proof.
  intros Hl Hbody Hfirst.
  set (nb := includes doc navbarMarker) in *.
  set (rep := replacementText p nb).
  destruct (layoutDocument_slices _ _ _ Hl) as [Hb Ha].
  destruct Hl as (Hdoc & (pre & line & Hblk & Himp & Hnl) & Hnoimp & Hnoch).
  assert (Heq : newLayoutContent a fp p doc
                = (blk ++ m ++ nl) ++ c1 ++ rep ++ c2).
  { unfold newLayoutContent. fold nb. fold rep.
    rewrite (replace_around_import a fp p no_anchor doc nb rep), Hb, Ha.
    rewrite (includes_blk_searchValue blk nb Hnoch).
    rewrite Hbody, (app_assoc nl c1), replace_skip, replace_head.
    - fold m. now rewrite <- !app_assoc.
    - cbn [nl app startsIn]. rewrite Hfirst, orb_false_r.
      apply (searchValue_not_nl nb (c1 ++ searchValue nb ++ c2)). }
  split; [exact Heq|]. rewrite Heq. repeat split.
  - exists (blk ++ importHead fp p), (importLastLine a fp p).
    destruct (importLastLine_plain a fp p plain) as [H1 H2].
    repeat split; try assumption.
    unfold m. now rewrite importStatement_lines, <- !app_assoc.
  - rewrite Hbody in Hnoimp.
    apply includes_app_false in Hnoimp as [Hc1 Hrest].
    apply includes_app_false in Hrest as [_ Hc2].
    destruct (replacementText_ends p nb)
      as (ch1 & r1 & r2 & ch2 & E1 & E2 & N1 & N2).
    fold rep in E1, E2.
    assert (Hrep : includes (rep ++ c2) (str "import") = false).
    { rewrite E2, includes_glue_l by (assumption || discriminate).
      rewrite <- E2. unfold rep. now rewrite replacementText_no_import, Hc2. }
    rewrite E1 in Hrep |- *. cbn [app] in Hrep |- *.
    rewrite includes_glue_r by (assumption || discriminate).
    now rewrite Hc1, Hrep.
  - apply includes_import_block; [|assumption]. now exists pre, line.
Qed.

End Step.

(** ** Occurrences of import statements *)

Lemma afterBreaks_line u v :
  includes u nl = false -> afterBreaks (u ++ nl ++ v) = v :: afterBreaks v.
Proof.
  induction u as [|c u IH]; [reflexivity|].
  cbn [includes]. intros H. apply orb_false_iff in H as [H1 H2].
  cbn [app afterBreaks]. rewrite (IH H2).
  cbn [nl startsWith] in H1. rewrite startsWith_nil, andb_true_r in H1.
  rewrite Ascii.eqb_sym. now rewrite H1.
Qed.

Lemma afterBreaks_import a fp X :
  plainPaths a fp = true ->
  afterBreaks (importStatement a fp X)
  = match X with
    | TrpcProvider | Navbar => [importLastLine a fp X]
    | _ => []
    end.
Proof.
  intros H. pose proof (importLastLine_plain a fp X H) as [Hl _].
  apply plainPaths_inv in H as (Ha & H1 & H2 & H3 & H4).
  destruct X; try (apply afterBreaks_plain; exact Hl).
  - cbn [importStatement].
    replace (str "import TrpcProvider from " ++ dq ++ trpcProvider fp ++ dq
             ++ str ";" ++ nl ++ str "import { cookies } from " ++ dq
             ++ str "next/headers" ++ dq ++ str ";")
      with ((str "import TrpcProvider from " ++ dq ++ trpcProvider fp ++ dq
             ++ str ";") ++ nl ++ importLastLine a fp TrpcProvider)
      by (cbn [importLastLine]; now rewrite <- !app_assoc).
    rewrite afterBreaks_line, (afterBreaks_plain _ Hl); [reflexivity|].
    unfold nl in *. now rewrite !includes_char_app, H2.
  - cbn [importStatement].
    replace (str "import Navbar from " ++ dq ++ navbarComponent fp ++ dq
             ++ str ";" ++ nl ++ str "import Sidebar from " ++ dq
             ++ sidebarComponent fp ++ dq ++ str ";")
      with ((str "import Navbar from " ++ dq ++ navbarComponent fp ++ dq
             ++ str ";") ++ nl ++ importLastLine a fp Navbar)
      by (cbn [importLastLine]; now rewrite <- !app_assoc).
    rewrite afterBreaks_line, (afterBreaks_plain _ Hl); [reflexivity|].
    unfold nl in *. now rewrite !includes_char_app, H3.
Qed.

(** No import statement continues, after a line feed of its own, into the
    start of an import statement. *)
Lemma clearOf_import a fp X p rest :
  plainPaths a fp = true ->
  clearOf (importStatement a fp p ++ rest) (importStatement a fp X) = true.
Proof.
  intros H. unfold clearOf. rewrite (afterBreaks_import a fp X H).
  destruct X; try reflexivity; destruct p; reflexivity.
Qed.

(** Nor into a text that does not hold "import". *)
Lemma clearOf_no_import a fp X v :
  plainPaths a fp = true ->
  includes v (str "import") = false ->
  clearOf v (importStatement a fp X) = true.
Proof.
  intros H Hv. unfold clearOf. rewrite (afterBreaks_import a fp X H).
  assert (Hs : forall q,
             startsWith q (str "import") = true -> startsWith v q = false).
  { intros q Hq. destruct (startsWith v q) eqn:E; [|reflexivity].
    apply includes_startsWith in E, Hq.
    now rewrite (includes_trans _ _ _ E Hq) in Hv. }
  destruct X; try reflexivity; cbn [forallb]; rewrite Hs; reflexivity.
Qed.

Lemma importStatement_nonempty a fp X : importStatement a fp X <> [].
Proof. destruct X; discriminate. Qed.

Lemma no_import_no_statement a fp X v :
  includes v (str "import") = false ->
  occurrences v (importStatement a fp X) = 0.
Proof.
  intros Hv. apply occurrences_absent.
  destruct (includes v (importStatement a fp X)) eqn:E; [|reflexivity].
  rewrite (includes_trans _ _ _ E (importStatement_has_import a fp X)) in Hv.
  discriminate.
Qed.

(** The occurrences of an import statement in a layout document are those
    of its import block without the final line feed. *)
Lemma layoutDocument_occurrences a fp X doc blk0 body :
  plainPaths a fp = true ->
  doc = (blk0 ++ nl) ++ body ->
  includes body (str "import") = false ->
  occurrences doc (importStatement a fp X)
  = occurrences blk0 (importStatement a fp X).
Proof.
  intros H -> Hb. rewrite <- app_assoc.
  rewrite occurrences_break.
  - rewrite (no_import_no_statement a fp X body Hb). lia.
  - now apply clearOf_no_import.
  - apply importStatement_nonempty.
Qed.

(** A run adds the occurrences of the inserted statement, and no other. *)
Lemma patch_occurrences a fp p X doc blk body c1 c2 :
  plainPaths a fp = true ->
  includes (importStatement a fp p) childrenText = false ->
  layoutDocument doc blk body ->
  body = c1 ++ searchValue (includes doc navbarMarker) ++ c2 ->
  startsIn c1 (searchValue (includes doc navbarMarker) ++ c2)
    (searchValue (includes doc navbarMarker)) = false ->
  occurrences (newLayoutContent a fp p doc) (importStatement a fp X)
  = occurrences doc (importStatement a fp X)
    + occurrences (importStatement a fp p) (importStatement a fp X).
Proof.
  intros Hplain Hna Hl Hbody Hfirst.
  destruct (patch_layoutDocument a fp p Hplain Hna doc blk body c1 c2
              Hl Hbody Hfirst) as [Heq Hl'].
  destruct Hl as (Hdoc & (pre & line & Hblk & _ & _) & Hnoimp & _).
  destruct Hl' as (_ & _ & Hnoimp' & _).
  set (body' := c1 ++ replacementText p (includes doc navbarMarker) ++ c2) in *.
  rewrite (layoutDocument_occurrences a fp X doc (pre ++ line) body Hplain);
    [|now rewrite Hdoc, Hblk, <- !app_assoc|assumption].
  rewrite Heq, Hblk.
  replace (((pre ++ line ++ nl) ++ importStatement a fp p ++ nl) ++ body')
    with ((pre ++ line) ++ nl ++ (importStatement a fp p ++ nl ++ body'))
    by now rewrite <- !app_assoc.
  rewrite !occurrences_break;
    try apply importStatement_nonempty;
    try (now apply clearOf_no_import);
    try (now apply clearOf_import).
  rewrite (no_import_no_statement a fp X body' Hnoimp'). lia.
Qed.

(** ** Two wrapping providers in a row *)

Lemma addContextProviderToLayout_patched fp p w c doc :
  config w = Some c ->
  disk w (layoutPath c) = Some doc ->
  exists w',
    addContextProviderToLayout fp p w = Ok w'
    /\ config w' = Some c
    /\ disk w' (layoutPath c) = Some (patched (alias c) fp p doc).
Proof.
  intros Hc Hd. rewrite (addContextProviderToLayout_run fp p w c doc Hc Hd).
  unfold patched. destruct (includes doc (importStatement (alias c) fp p)).
  - now exists w.
  - eexists. repeat split; [exact Hc|apply disk_replaceFile].
Qed.

Lemma startsIn_break u v pat :
  clearOf v pat = true -> pat <> [] ->
  startsIn u (nl ++ v) pat = includes u pat.
Proof.
  intros Hc Hp. rewrite <- (startsIn_nil_r u pat Hp).
  induction u as [|c u IH]; [reflexivity|].
  cbn [startsIn]. rewrite IH, app_nil_r.
  now rewrite startsWith_before_break by (assumption || discriminate).
Qed.

Lemma first_not_before c1 rest pat :
  pat <> [] -> startsIn c1 rest pat = false -> includes c1 pat = false.
Proof.
  intros Hp H. destruct (includes c1 pat) eqn:E; [|reflexivity].
  now rewrite (startsIn_of_includes c1 rest pat Hp E) in H.
Qed.

(** The replacement text of a wrapping provider is its element between two
    line feeds, and holds no navigation marker. *)
Lemma wrapping_replacementText p :
  wrapping p = true ->
  exists core,
    replacementText p false = nl ++ core ++ nl
    /\ includes core navbarMarker = false
    /\ p <> Navbar.
Proof.
  intros H. exists (removelast (tl (replacementText p false))).
  destruct p; try discriminate; repeat split; try discriminate;
    vm_compute; reflexivity.
Qed.

(** Inside the opening tag of a wrapping provider and across its end, no
    children placeholder starts. *)
Lemma wrapOpen_no_anchor p rest :
  wrapping p = true ->
  startsIn (wrapOpen p) (childrenText ++ rest) childrenText = false.
Proof. intros H. destruct p; try discriminate; reflexivity. Qed.

Lemma wrapOpen_break p :
  wrapping p = true -> exists o, wrapOpen p = nl ++ o.
Proof.
  intros H. destruct p; try discriminate; eexists; reflexivity.
Qed.

Lemma two_wrappers a fp A B doc blk body :
  wrapping A = true -> wrapping B = true ->
  ordinaryImports a fp A B = true ->
  layoutDocument doc blk body ->
  includes body childrenText = true ->
  includes doc navbarMarker = false ->
  includes doc (importStatement a fp A) = false ->
  includes doc (importStatement a fp B) = false ->
  exists b1 b2,
    body = b1 ++ childrenText ++ b2
    /\ includes b1 childrenText = false
    /\ patched a fp B (patched a fp A doc)
       = blk ++ importStatement a fp A ++ nl ++ importStatement a fp B ++ nl
         ++ b1 ++ wrapOpen A ++ wrapOpen B ++ childrenText
         ++ wrapClose B ++ wrapClose A ++ b2
    /\ occurrences (patched a fp B (patched a fp A doc))
         (importStatement a fp A) = 1
    /\ occurrences (patched a fp B (patched a fp A doc))
         (importStatement a fp B) = 1.
Proof.
  intros HA HB Hord Hl Hanchor Hnav HmA HmB.
  unfold ordinaryImports in Hord.
  rewrite !andb_true_iff, !negb_true_iff in Hord.
  destruct Hord as ((((((Hplain & HchA) & HchB) & HnavA) & HAB) & HBA) & _).
  destruct (replace_first body childrenText [] Hanchor)
    as (b1 & b2 & Hbody & Hfirst & _).
  exists b1, b2. split; [exact Hbody|].
  split; [apply (first_not_before b1 (childrenText ++ b2) childrenText);
          [discriminate|assumption]|].
  destruct (wrapping_replacementText A HA) as (core & Hcore & Hcnav & HAn).
  destruct (wrapping_replacementText B HB) as (_ & _ & _ & HBn).
  (* the first run *)
  assert (Hsv : searchValue (includes doc navbarMarker) = childrenText)
    by now rewrite Hnav.
  assert (Hb1 : body = b1 ++ searchValue (includes doc navbarMarker) ++ b2)
    by now rewrite Hsv.
  assert (Hf1 : startsIn b1 (searchValue (includes doc navbarMarker) ++ b2)
                  (searchValue (includes doc navbarMarker)) = false)
    by now rewrite Hsv.
  destruct (patch_layoutDocument a fp A Hplain HchA doc blk body b1 b2
              Hl Hb1 Hf1) as [Hd1 Hl1].
  pose proof (patch_occurrences a fp A A doc blk body b1 b2 Hplain HchA
                Hl Hb1 Hf1) as HoA.
  pose proof (patch_occurrences a fp A B doc blk body b1 b2 Hplain HchA
                Hl Hb1 Hf1) as HoB.
  rewrite (occurrences_absent _ _ HmA),
    (occurrences_self _ (importStatement_nonempty a fp A)) in HoA.
  rewrite (occurrences_absent _ _ HmB), (occurrences_absent _ _ HAB) in HoB.
  rewrite Hnav in Hd1, Hl1.
  assert (HpA : patched a fp A doc = newLayoutContent a fp A doc)
    by (unfold patched; now rewrite HmA).
  rewrite HpA. set (d1 := newLayoutContent a fp A doc) in *.
  assert (HmB1 : includes d1 (importStatement a fp B) = false)
    by now apply occurrences_0_iff.
  (* no navigation marker after the first run *)
  assert (Hnav1 : includes d1 navbarMarker = false).
  { destruct Hl as (Hdoc & (pre & line & Hblk & _ & _) & _ & _).
    rewrite Hdoc, Hblk, Hbody in Hnav.
    apply includes_app_false in Hnav as [Hn1 Hn2].
    rewrite app_assoc in Hn1. apply includes_app_false in Hn1 as [Hn1 _].
    apply includes_app_false in Hn2 as [Hn2 Hn3].
    apply includes_app_false in Hn3 as [_ Hn3].
    assert (Hc : forall v, clearOf v navbarMarker = true)
      by (intros v; now apply clearOf_plain).
    assert (Hne : navbarMarker <> []) by discriminate.
    rewrite Hd1, Hblk, Hcore.
    replace ((((pre ++ line ++ nl) ++ importStatement a fp A ++ nl)
              ++ b1 ++ (nl ++ core ++ nl) ++ b2))
      with ((pre ++ line) ++ nl ++ (importStatement a fp A ++ nl
              ++ (b1 ++ nl ++ (core ++ nl ++ b2))))
      by now rewrite <- !app_assoc.
    rewrite !includes_break by auto.
    now rewrite Hn1, HnavA, Hn2, Hcnav, Hn3. }
  (* the second run *)
  assert (Hsv1 : searchValue (includes d1 navbarMarker) = childrenText)
    by now rewrite Hnav1.
  assert (Hb2 : b1 ++ replacementText A false ++ b2
                = (b1 ++ wrapOpen A)
                  ++ searchValue (includes d1 navbarMarker)
                  ++ wrapClose A ++ b2).
  { rewrite Hsv1, (replacementText_shape A false HAn).
    cbn [rootChildrenText negb]. now rewrite <- !app_assoc. }
  assert (Hf2 : startsIn (b1 ++ wrapOpen A)
                  (searchValue (includes d1 navbarMarker) ++ wrapClose A ++ b2)
                  (searchValue (includes d1 navbarMarker)) = false).
  { rewrite Hsv1, startsIn_app, (wrapOpen_no_anchor A _ HA), orb_false_r.
    destruct (wrapOpen_break A HA) as [o Ho]. rewrite Ho, <- app_assoc.
    rewrite startsIn_break;
      [|now apply clearOf_plain|discriminate].
    apply (first_not_before b1 (childrenText ++ b2) childrenText);
      [discriminate|assumption]. }
  destruct (patch_layoutDocument a fp B Hplain HchB d1 _ _ _ _
              Hl1 Hb2 Hf2) as [Hd2 _].
  pose proof (patch_occurrences a fp B A d1 _ _ _ _ Hplain HchB
                Hl1 Hb2 Hf2) as HoA2.
  pose proof (patch_occurrences a fp B B d1 _ _ _ _ Hplain HchB
                Hl1 Hb2 Hf2) as HoB2.
  rewrite HoA, (occurrences_absent _ _ HBA) in HoA2.
  rewrite HoB, (occurrences_self _ (importStatement_nonempty a fp B)) in HoB2.
  assert (HpB : patched a fp B d1 = newLayoutContent a fp B d1)
    by (unfold patched; now rewrite HmB1).
  rewrite HpB. repeat split; [|exact HoA2|exact HoB2].
  rewrite Hd2, Hnav1, (replacementText_shape B false HBn).
  cbn [rootChildrenText negb]. now rewrite <- !app_assoc.
Qed.

(** ** After the navigation provider *)

Lemma applyProviders_patchedAll fp ps w c doc :
  config w = Some c ->
  disk w (layoutPath c) = Some doc ->
  exists w',
    applyProviders fp ps w = Ok w'
    /\ config w' = Some c
    /\ disk w' (layoutPath c) = Some (patchedAll (alias c) fp ps doc).
Proof.
  revert w doc; induction ps as [|p ps IH]; intros w doc Hc Hd.
  - now exists w.
  - destruct (addContextProviderToLayout_patched fp p w c doc Hc Hd)
      as (w1 & Hr & Hc1 & Hd1).
    destruct (IH w1 _ Hc1 Hd1) as (w' & Hr' & Hc' & Hd').
    exists w'. cbn [applyProviders patchedAll]. rewrite Hr. cbn [bind].
    now repeat split.
Qed.

Lemma importsAvoidAnchor_inv a fp p :
  importsAvoidAnchor a fp = true ->
  includes (importStatement a fp p) childrenText = false.
Proof.
  unfold importsAvoidAnchor. rewrite forallb_forall. intros H.
  apply negb_true_iff, H. destruct p; cbn; tauto.
Qed.

Lemma replacementText_navigation p :
  replacementText p true = wrapOpen p ++ navbarBlock ++ wrapClose p.
Proof.
  destruct p;
    cbn [replacementText wrapOpen wrapClose app rootChildrenText negb];
    now rewrite <- ?app_assoc, ?app_nil_r.
Qed.

Lemma navbarBlock_has_marker : includes navbarBlock navbarMarker = true.
Proof. reflexivity. Qed.

(** On a layout with the navigation block the marker is found, and the
    anchor searched is the block. *)
Lemma navigationLayout_anchor doc :
  navigationLayout doc ->
  includes doc navbarMarker = true
  /\ searchValue (includes doc navbarMarker) = navbarBlock.
Proof.
  intros (blk & body & (Hdoc & _) & Hnav).
  assert (H : includes doc navbarMarker = true).
  { rewrite Hdoc. apply includes_app_r.
    exact (includes_trans _ _ _ Hnav navbarBlock_has_marker). }
  now rewrite H.
Qed.

(** A run on a layout with the navigation block, for a provider whose import
    is not there yet: the first block of the body is replaced by the
    replacement text, which holds the whole block. *)
Lemma navigation_step a fp p doc blk body :
  plainPaths a fp = true ->
  importsAvoidAnchor a fp = true ->
  layoutDocument doc blk body ->
  includes body navbarBlock = true ->
  includes doc (importStatement a fp p) = false ->
  exists c1 c2,
    body = c1 ++ navbarBlock ++ c2
    /\ includes c1 navbarBlock = false
    /\ patched a fp p doc
       = (blk ++ importStatement a fp p ++ nl)
         ++ c1 ++ (wrapOpen p ++ navbarBlock ++ wrapClose p) ++ c2
    /\ layoutDocument (patched a fp p doc)
         (blk ++ importStatement a fp p ++ nl)
         (c1 ++ (wrapOpen p ++ navbarBlock ++ wrapClose p) ++ c2).
Proof.
  intros Hplain Havoid Hl Hnav Hm.
  destruct (navigationLayout_anchor doc) as [Hmark Hsv];
    [now exists blk, body|].
  destruct (replace_first body navbarBlock [] Hnav)
    as (c1 & c2 & Hbody & Hfirst & _).
  exists c1, c2. split; [exact Hbody|].
  split; [apply (first_not_before c1 (navbarBlock ++ c2) navbarBlock);
          [discriminate|assumption]|].
  assert (Hb : body = c1 ++ searchValue (includes doc navbarMarker) ++ c2)
    by now rewrite Hsv.
  assert (Hf : startsIn c1 (searchValue (includes doc navbarMarker) ++ c2)
                 (searchValue (includes doc navbarMarker)) = false)
    by now rewrite Hsv.
  destruct (patch_layoutDocument a fp p Hplain
              (importsAvoidAnchor_inv a fp p Havoid) doc blk body c1 c2
              Hl Hb Hf) as [Heq Hl'].
  rewrite Hmark, replacementText_navigation in Heq, Hl'.
  unfold patched. rewrite Hm. now split.
Qed.

(** Every run keeps a layout with the navigation block one. *)
Lemma navigationLayout_patched a fp p doc :
  plainPaths a fp = true ->
  importsAvoidAnchor a fp = true ->
  navigationLayout doc -> navigationLayout (patched a fp p doc).
Proof.
  intros Hplain Havoid (blk & body & Hl & Hnav).
  destruct (includes doc (importStatement a fp p)) eqn:E.
  - unfold patched. rewrite E. now exists blk, body.
  - destruct (navigation_step a fp p doc blk body Hplain Havoid Hl Hnav E)
      as (c1 & c2 & _ & _ & _ & Hl').
    do 2 eexists. split; [exact Hl'|].
    apply includes_app_r, includes_app_l, includes_app_r, includes_app_l,
      includes_refl.
Qed.

Lemma navigationLayout_patchedAll a fp ps doc :
  plainPaths a fp = true ->
  importsAvoidAnchor a fp = true ->
  navigationLayout doc -> navigationLayout (patchedAll a fp ps doc).
Proof.
  intros Hplain Havoid. revert doc; induction ps as [|p ps IH]; intros doc H.
  - exact H.
  - cbn [patchedAll]. apply IH. now apply navigationLayout_patched.
Qed.

(** The run for the navigation provider on a layout with the bare
    placeholder puts the block in its place. *)
Lemma navigation_first a fp doc blk body :
  plainPaths a fp = true ->
  importsAvoidAnchor a fp = true ->
  layoutDocument doc blk body ->
  includes body childrenText = true ->
  includes doc navbarMarker = false ->
  includes doc (importStatement a fp Navbar) = false ->
  exists b1 b2,
    body = b1 ++ childrenText ++ b2
    /\ includes b1 childrenText = false
    /\ patched a fp Navbar doc
       = (blk ++ importStatement a fp Navbar ++ nl)
         ++ b1 ++ navbarBlock ++ b2
    /\ navigationLayout (patched a fp Navbar doc).
Proof.
  intros Hplain Havoid Hl Hanchor Hnav Hm.
  destruct (replace_first body childrenText [] Hanchor)
    as (b1 & b2 & Hbody & Hfirst & _).
  exists b1, b2. split; [exact Hbody|].
  split; [apply (first_not_before b1 (childrenText ++ b2) childrenText);
          [discriminate|assumption]|].
  assert (Hsv : searchValue (includes doc navbarMarker) = childrenText)
    by now rewrite Hnav.
  assert (Hb : body = b1 ++ searchValue (includes doc navbarMarker) ++ b2)
    by now rewrite Hsv.
  assert (Hf : startsIn b1 (searchValue (includes doc navbarMarker) ++ b2)
                 (searchValue (includes doc navbarMarker)) = false)
    by now rewrite Hsv.
  destruct (patch_layoutDocument a fp Navbar Hplain
              (importsAvoidAnchor_inv a fp Navbar Havoid) doc blk body b1 b2
              Hl Hb Hf) as [Heq Hl'].
  rewrite Hnav in Heq, Hl'. cbn [replacementText] in Heq, Hl'.
  unfold patched. rewrite Hm. split; [exact Heq|].
  do 2 eexists. split; [exact Hl'|].
  apply includes_app_r, includes_app_l, includes_refl.
Qed.

(** ** Occurrences across a junction *)

Section Junctions.

Implicit Types s pat u v w : jsstring.

(** No occurrence starts inside [u]: the occurrences are those of [v]. *)
Lemma occurrences_skip u v pat :
  startsIn u v pat = false -> occurrences (u ++ v) pat = occurrences v pat.
Proof.
  induction u as [|c u IH]; [reflexivity|].
  cbn [startsIn]. intros H. apply orb_false_iff in H as [H1 H2].
  cbn [app occurrences]. cbn [app] in H1. now rewrite H1, (IH H2).
Qed.

(** No occurrence that starts inside [u] goes on into [v]: the occurrences
    of [u] and of [v] add up. *)
Lemma occurrences_app_gen u v pat :
  pat <> [] ->
  (forall u0 t,
     u = u0 ++ t -> t <> [] -> startsWith (t ++ v) pat = startsWith t pat) ->
  occurrences (u ++ v) pat = occurrences u pat + occurrences v pat.
Proof.
  intros Hp. induction u as [|c u IH]; intros H.
  - cbn [app occurrences]. destruct pat; [congruence|reflexivity].
  - cbn [app occurrences].
    change (c :: u ++ v) with ((c :: u) ++ v).
    rewrite (H [] (c :: u) eq_refl) by discriminate.
    rewrite IH; [lia|].
    intros u0 t -> Ht. apply (H (c :: u0) t eq_refl Ht).
Qed.

(** The same across a line feed, when [pat] cannot be cut at one of its
    line feeds so that the first part ends [u] and the second starts [v]. *)
Lemma occurrences_break_gen u v pat :
  pat <> [] ->
  (forall u0 t q,
     u = u0 ++ t -> pat = t ++ nl ++ q -> startsWith v q = false) ->
  occurrences (u ++ nl ++ v) pat = occurrences u pat + occurrences v pat.
Proof.
  intros Hp H.
  assert (Hnl : occurrences (nl ++ v) pat = occurrences v pat).
  { apply occurrences_skip. cbn [nl startsIn app]. rewrite orb_false_r.
    destruct pat as [|c q]; [congruence|]. cbn [startsWith].
    destruct (Ascii.eqb c "010"%char) eqn:E; [|reflexivity].
    apply Ascii.eqb_eq in E. subst c. cbn [andb].
    apply (H u [] q); [now rewrite app_nil_r|reflexivity]. }
  rewrite <- Hnl. apply occurrences_app_gen; [assumption|].
  intros u0 t Hu Ht. destruct (startsWith t pat) eqn:E.
  - now apply startsWith_app_l.
  - destruct (startsWith (t ++ nl ++ v) pat) eqn:E2; [|reflexivity].
    destruct (startsWith_app_cases _ _ _ E2) as [H' | (q & Hq & Hne & Hs)];
      [congruence|].
    destruct q as [|c q]; [congruence|].
    cbn [nl app startsWith] in Hs.
    apply andb_true_iff in Hs as [Hc Hs]. apply Ascii.eqb_eq in Hc. subst c.
    now rewrite (H u0 t q Hu Hq) in Hs.
Qed.

(** An occurrence of a pattern [a b ...] that starts inside [w] needs [a]
    followed by [b] in [w], or [a] at the end of [w]. *)
Lemma startsIn_head2 w y a b r :
  startsIn w y (a :: b :: r) = true ->
  adjacent w a b = true \/ exists w0, w = w0 ++ [a].
Proof.
  induction w as [|c w IH]; [discriminate|].
  cbn [startsIn]. intros H. apply orb_true_iff in H as [H|H].
  - cbn [app startsWith] in H. apply andb_true_iff in H as [Hc H].
    apply Ascii.eqb_eq in Hc. subst c.
    destruct w as [|c2 w].
    + right. now exists [].
    + left. cbn [app startsWith] in H. apply andb_true_iff in H as [Hc _].
      apply Ascii.eqb_eq in Hc. subst c2. cbn [adjacent].
      now rewrite !Ascii.eqb_refl.
  - destruct (IH H) as [Hadj | [w0 ->]].
    + left. destruct w as [|c2 w]; [discriminate|].
      cbn [adjacent]. cbn [adjacent] in Hadj. rewrite Hadj. apply orb_true_r.
    + right. now exists (c :: w0).
Qed.

(** An occurrence of [pat] cannot end inside [mid] or run through it, when
    [pat] does not hold [mid] and ends with a character that [mid] does not
    hold. *)
Lemma no_run_into mid t q c pat0 v :
  includes (t ++ q) mid = false ->
  t ++ q = pat0 ++ [c] -> ~ In c mid ->
  q <> [] -> startsWith (mid ++ v) q = false.
Proof.
  intros Hinc Hlast Hc Hq.
  destruct (startsWith (mid ++ v) q) eqn:E; [|reflexivity]. exfalso.
  destruct (startsWith_app_cases _ _ _ E) as [H | (q' & Hq' & _ & _)].
  - destruct (startsWith_inv _ _ H) as [rest Hmid].
    destruct (exists_last Hq) as (q0 & c' & Hq0).
    rewrite Hq0, app_assoc in Hlast. apply app_inj_tail in Hlast as [_ <-].
    apply Hc. rewrite Hmid, Hq0. apply in_or_app. left.
    apply in_or_app. right. now left.
  - rewrite Hq' in Hinc. now rewrite includes_intro in Hinc.
Qed.

Lemma endsWith_suffix u0 t : endsWith (u0 ++ t) t = true.
Proof. unfold endsWith. rewrite rev_app_distr. apply startsWith_app. Qed.

End Junctions.

(** ** After the last import *)

Lemma findLast_none s pat : findLast s pat = None -> includes s pat = false.
Proof.
  intros H. destruct (includes s pat) eqn:E; [|reflexivity].
  destruct (findLast_total s pat E) as [i Hi]. congruence.
Qed.

(** What follows the insertion point holds no "import", unless the
    insertion point is the start of the document. *)
Lemma afterImport_no_import doc :
  beforeImport doc = []
  \/ includes (afterImport doc) (str "import") = false.
Proof.
  destruct (findLast doc (str "import")) as [i|] eqn:E.
  2:{ right. apply findLast_none in E. rewrite <- (before_after doc) in E.
      now apply includes_app_false in E. }
  destruct (findLast_sound _ _ _ E) as (a & b & Hab & Hla).
  assert (Hi : i <= length doc)
    by (rewrite Hab, length_app; lia).
  unfold beforeImport, afterImport.
  pose proof (nextLineAfterLastImport_range doc) as Hr.
  rewrite slice_head, slice_tail by assumption.
  unfold nextLineAfterLastImport, lastIndexOf, indexOf in *.
  rewrite E in *.
  replace (Z.to_nat (Z.min (Z.max (Z.of_nat i) 0) (len doc))) with i in *
    by (unfold len; lia).
  destruct (find (skipn i doc) nl) as [i'|] eqn:Ef.
  - right.
    replace (Z.to_nat (Z.of_nat (i + i') + 1)) with (S (i + i')) in * by lia.
    destruct (includes (skipn (S (i + i')) doc) (str "import")) eqn:Einc;
      [|reflexivity].
    exfalso. destruct (findLast_total _ _ Einc) as [j Hj].
    pose proof (findLast_app_some (firstn (S (i + i')) doc) _ _ j Hj) as H2.
    rewrite firstn_skipn, E, length_firstn in H2.
    assert (H3 : i = Nat.min (S (i + i')) (length doc) + j) by congruence.
    unfold len in Hr. lia.
  - left. reflexivity.
Qed.

(** ** The lines of an import statement *)

(** An import statement is cut at a line feed in one way at most: between
    its two lines. *)
Lemma import_splits a fp X t q :
  plainPaths a fp = true ->
  importStatement a fp X = t ++ nl ++ q ->
  importHead fp X = t ++ nl /\ q = importLastLine a fp X.
Proof.
  intros Hplain E.
  pose proof (afterBreaks_spec _ t q E) as Hq.
  rewrite (afterBreaks_import a fp X Hplain) in Hq.
  assert (Hq' : q = importLastLine a fp X).
  { destruct X; cbn [In] in Hq; try contradiction;
      destruct Hq as [Hq|[]]; now rewrite Hq. }
  split; [|exact Hq'].
  rewrite importStatement_lines, Hq', app_assoc in E.
  now apply app_inv_tail in E.
Qed.

(** Every import statement starts with "im" and ends with ";". *)
Lemma importStatement_im a fp X :
  exists r, importStatement a fp X = "i"%char :: "m"%char :: r.
Proof. destruct X; cbn; eexists; reflexivity. Qed.

(** ** Occurrences of import statements, on any document *)

Lemma endsWithHead_split a fp m X u0 t q :
  plainPaths a fp = true ->
  endsWithHead fp m X = false ->
  importStatement a fp X = t ++ nl ++ q ->
  m <> u0 ++ t.
Proof.
  intros Hplain Hh E ->.
  destruct (import_splits a fp X t q Hplain E) as [Hhead _].
  unfold endsWithHead in Hh. rewrite Hhead in Hh.
  destruct (t ++ nl) eqn:Et; [now destruct t|]. rewrite <- Et in Hh.
  unfold nl in Hh. rewrite removelast_last, endsWith_suffix in Hh.
  discriminate.
Qed.

(** Inserting the import statement adds its own occurrences and no other. *)
Lemma insert_occurrences a fp p X doc :
  plainPaths a fp = true ->
  endsWithHead fp (importStatement a fp p) X = false ->
  occurrences (modifiedImportContent a fp p doc) (importStatement a fp X)
  = occurrences doc (importStatement a fp X)
    + occurrences (importStatement a fp p) (importStatement a fp X).
Proof.
  intros Hplain Hh. unfold modifiedImportContent.
  pose proof (before_after doc) as Hdoc.
  destruct (beforeImport_shape doc) as [Hx | [x0 Hx]]; rewrite Hx in *.
  - cbn [app] in *. rewrite Hdoc.
    rewrite occurrences_break_gen; [lia|apply importStatement_nonempty|].
    intros u0 t q Hm E. exfalso.
    exact (endsWithHead_split a fp _ X u0 t q Hplain Hh E Hm).
  - destruct (afterImport_no_import doc) as [H0 | Hy].
    { rewrite Hx in H0. now destruct x0. }
    set (y := afterImport doc) in *. clearbody y.
    rewrite <- Hdoc, <- !app_assoc.
    rewrite !occurrences_break;
      try apply importStatement_nonempty;
      try (now apply clearOf_no_import);
      try (now apply clearOf_import).
    rewrite (no_import_no_statement a fp X _ Hy). lia.
Qed.

Lemma wrapping_shape A :
  wrapping A = true ->
  wrapOpen A = nl ++ elemOpen A
  /\ wrapClose A = elemClose A ++ nl
  /\ A <> Navbar.
Proof.
  intros H. destruct A; try discriminate; repeat split; discriminate.
Qed.

Lemma clearOf_elemOpen a fp A X rest :
  plainPaths a fp = true -> wrapping A = true ->
  clearOf (elemOpen A ++ rest) (importStatement a fp X) = true.
Proof.
  intros Hplain HA. unfold clearOf. rewrite (afterBreaks_import a fp X Hplain).
  destruct X; try reflexivity; destruct A; try discriminate; reflexivity.
Qed.

(** No import statement starts inside a text that holds no "im" and does
    not end with "i". *)
Lemma no_import_starts_in a fp X w rest :
  adjacent w "i"%char "m"%char = false ->
  (forall w0, w <> w0 ++ ["i"%char]) ->
  startsIn w rest (importStatement a fp X) = false.
Proof.
  intros Hadj Hlast.
  destruct (startsIn w rest (importStatement a fp X)) eqn:E; [|reflexivity].
  destruct (importStatement_im a fp X) as [r Hr]. rewrite Hr in E.
  destruct (startsIn_head2 _ _ _ _ _ E) as [H | [w0 H]]; [congruence|].
  now apply Hlast in H.
Qed.

(** Replacing the placeholder by the replacement text of a wrapping provider
    leaves the occurrences of an import statement as they are. *)
Lemma replace_occurrences a fp A X P Q :
  plainPaths a fp = true -> wrapping A = true ->
  includes (importStatement a fp X) childrenText = false ->
  occurrences (P ++ replacementText A false ++ Q) (importStatement a fp X)
  = occurrences (P ++ childrenText ++ Q) (importStatement a fp X).
Proof.
  intros Hplain HA Hch.
  destruct (wrapping_shape A HA) as (Ho & Hc & HAn).
  pose proof (importStatement_nonempty a fp X) as Hne.
  assert (HP : occurrences (P ++ childrenText ++ Q) (importStatement a fp X)
               = occurrences P (importStatement a fp X)
                 + occurrences Q (importStatement a fp X)).
  { rewrite occurrences_app_gen; [|assumption|].
    - f_equal. apply occurrences_skip, no_import_starts_in; [reflexivity|].
      intros w0 H. apply (f_equal (fun l => last l " "%char)) in H.
      rewrite last_last in H. discriminate.
    - intros u0 t _ Ht.
      destruct (startsWith t (importStatement a fp X)) eqn:E;
        [now apply startsWith_app_l|].
      destruct (startsWith (t ++ childrenText ++ Q) (importStatement a fp X))
        eqn:E2; [|reflexivity].
      destruct (startsWith_app_cases _ _ _ E2) as [H | (q & Hq & Hqne & Hs)];
        [congruence|].
      destruct (importStatement_last a fp X) as [pat0 Hlast].
      rewrite Hq in Hch, Hlast.
      rewrite (no_run_into childrenText t q ";"%char pat0 Q Hch Hlast) in Hs;
        [discriminate| |assumption].
      cbn. intros H. repeat (destruct H as [H|H]; [discriminate H|]). exact H. }
  rewrite HP, (replacementText_shape A false HAn), Ho, Hc.
  cbn [rootChildrenText negb].
  replace (P ++ ((nl ++ elemOpen A) ++ childrenText ++ elemClose A ++ nl) ++ Q)
    with (P ++ nl ++ (elemOpen A
                      ++ (childrenText ++ elemClose A ++ nl) ++ Q))
    by now rewrite <- !app_assoc.
  rewrite occurrences_break;
    [|now apply clearOf_elemOpen|assumption].
  f_equal. rewrite app_assoc. apply occurrences_skip, no_import_starts_in.
  - destruct A; try discriminate; reflexivity.
  - intros w0 H. apply (f_equal (fun l => last l " "%char)) in H.
    rewrite last_last in H. rewrite !app_assoc in H. unfold nl in H.
    rewrite last_last in H. discriminate.
Qed.

(** ** Inserting a line *)

(** A pattern without line feed occurs after the insertion of a line at the
    start of a line when it occurred before, or occurs in the line. *)
Lemma includes_insertion x y m pat :
  x = [] \/ (exists x0, x = x0 ++ nl) ->
  includes pat nl = false -> pat <> [] ->
  includes (x ++ m ++ nl ++ y) pat = includes (x ++ y) pat || includes m pat.
Proof.
  intros Hx Hplain Hne.
  assert (Hc : forall v, clearOf v pat = true)
    by (intros v; now apply clearOf_plain).
  destruct Hx as [-> | [x0 ->]].
  - cbn [app]. rewrite includes_break by auto. apply orb_comm.
  - rewrite <- !app_assoc. rewrite !includes_break by auto.
    now destruct (includes x0 pat), (includes m pat), (includes y pat).
Qed.

Lemma includes_modified a fp p doc pat :
  includes pat nl = false -> pat <> [] ->
  includes (modifiedImportContent a fp p doc) pat
  = includes doc pat || includes (importStatement a fp p) pat.
Proof.
  intros Hplain Hne. unfold modifiedImportContent.
  rewrite includes_insertion; try assumption.
  - now rewrite before_after.
  - apply beforeImport_shape.
Qed.

(** The element of a wrapping provider around the placeholder. *)
Lemma wrapping_core A :
  wrapping A = true ->
  includes (elemOpen A ++ childrenText ++ elemClose A) nl = false
  /\ includes (elemOpen A ++ childrenText ++ elemClose A) navbarMarker = false
  /\ (forall rest,
        startsIn (elemOpen A) (childrenText ++ rest) childrenText = false)
  /\ exists c0,
       elemOpen A ++ childrenText ++ elemClose A = c0 ++ [">"%char].
Proof.
  intros H. repeat split.
  - destruct A; try discriminate; reflexivity.
  - destruct A; try discriminate; reflexivity.
  - intros rest. destruct A; try discriminate; reflexivity.
  - exists (removelast (elemOpen A ++ childrenText ++ elemClose A)).
    destruct A; try discriminate; vm_compute; reflexivity.
Qed.

(** An insertion point, at the start of the text or after a line feed, is
    not inside a piece [core] that holds no line feed and stands between two
    line feeds. *)
Lemma insertion_outside U core V x1 y1 c0 :
  (U ++ nl) ++ core ++ nl ++ V = x1 ++ y1 ->
  x1 = [] \/ (exists x0, x1 = x0 ++ nl) ->
  includes core nl = false ->
  core = c0 ++ [">"%char] ->
  (exists u', U ++ nl = x1 ++ u' /\ y1 = u' ++ core ++ nl ++ V)
  \/ (exists v', x1 = (U ++ nl) ++ core ++ nl ++ v' /\ V = v' ++ y1).
Proof.
  intros E Hx Hcore Hlast.
  apply app_eq_app in E as [l [[E1 E2] | [E1 E2]]].
  - left. now exists l.
  - apply app_eq_app in E2 as [l2 [[E3 E4] | [E3 E4]]].
    + (* the insertion point is inside [core], or at its start *)
      destruct l as [|ch l].
      * left. exists []. rewrite app_nil_r in E1. cbn [app] in E3.
        rewrite E1, E4, <- E3. now rewrite app_nil_r.
      * exfalso.
        destruct Hx as [Hx | [x0 Hx]]; [now rewrite Hx in E1; destruct U|].
        destruct (exists_last (l := ch :: l)) as (l' & c' & Hl);
          [discriminate|].
        rewrite Hl, app_assoc in E1. rewrite E1 in Hx. unfold nl in Hx.
        apply app_inj_tail in Hx as [_ Hc]. subst c'.
        rewrite E3, Hl, <- app_assoc in Hcore.
        pose proof (includes_intro l' nl l2) as Hi.
        unfold nl in Hi, Hcore. congruence.
    + (* the insertion point is after [core] *)
      destruct l2 as [|ch l2].
      * exfalso. rewrite app_nil_r in E3. subst l.
        destruct Hx as [Hx | [x0 Hx]]; [now rewrite Hx in E1; destruct U|].
        rewrite Hlast, app_assoc in E1. rewrite E1 in Hx. unfold nl in Hx.
        apply app_inj_tail in Hx as [_ Hc]. discriminate.
      * right. cbn [nl app] in E4. injection E4 as <- E4.
        exists l2. split; [|exact E4].
        rewrite E1, E3. now rewrite <- !app_assoc.
Qed.

(** ** Two wrapping providers in a row, on any document *)

Lemma two_wrappers_any a fp A B doc :
  wrapping A = true -> wrapping B = true ->
  ordinaryImports a fp A B = true ->
  includes doc childrenText = true ->
  includes doc navbarMarker = false ->
  includes doc (importStatement a fp A) = false ->
  includes doc (importStatement a fp B) = false ->
  exists l r,
    patched a fp B (patched a fp A doc)
    = l ++ elemOpen A ++ wrapOpen B ++ childrenText ++ wrapClose B
      ++ elemClose A ++ r
    /\ includes l childrenText = false
    /\ occurrences (patched a fp B (patched a fp A doc))
         (importStatement a fp A) = 1
    /\ occurrences (patched a fp B (patched a fp A doc))
         (importStatement a fp B) = 1.
Proof.
  intros HA HB Hord Hanchor Hnav HmA HmB.
  unfold ordinaryImports in Hord. cbn [forallb fst snd] in Hord.
  rewrite !andb_true_iff, !negb_true_iff in Hord.
  destruct Hord as ((((((Hplain & HchA) & HchB) & HnavA) & HAB) & HBA)
                    & (HhAA & HhAB & HhBA & HhBB & _)).
  destruct (wrapping_shape A HA) as (HoA & HcA & HAn).
  destruct (wrapping_shape B HB) as (HoB & HcB & HBn).
  destruct (wrapping_core A HA) as (Hcnl & Hcnav & Hcanchor & c0 & Hclast).
  assert (Hplainch : includes childrenText nl = false) by reflexivity.
  assert (Hnech : childrenText <> []) by discriminate.
  (* the first run *)
  assert (Hs1 : includes (modifiedImportContent a fp A doc) childrenText = true)
    by (rewrite includes_modified by assumption; now rewrite Hanchor).
  destruct (replace_first _ childrenText (replacementText A false) Hs1)
    as (U & V & HUV & HfirstU & Hrep1).
  assert (HU : includes U childrenText = false)
    by (apply (first_not_before U (childrenText ++ V) childrenText);
        assumption).
  assert (Hd1 : newLayoutContent a fp A doc = U ++ replacementText A false ++ V)
    by (unfold newLayoutContent; rewrite Hnav; exact Hrep1).
  assert (Hocc1 : forall X,
             includes (importStatement a fp X) childrenText = false ->
             endsWithHead fp (importStatement a fp A) X = false ->
             occurrences (newLayoutContent a fp A doc) (importStatement a fp X)
             = occurrences doc (importStatement a fp X)
               + occurrences (importStatement a fp A) (importStatement a fp X)).
  { intros X HX HhX. rewrite Hd1, replace_occurrences by assumption.
    rewrite <- HUV. now apply insert_occurrences. }
  pose proof (Hocc1 A HchA HhAA) as HoA1.
  pose proof (Hocc1 B HchB HhAB) as HoB1.
  rewrite (occurrences_absent _ _ HmA),
    (occurrences_self _ (importStatement_nonempty a fp A)) in HoA1.
  rewrite (occurrences_absent _ _ HmB), (occurrences_absent _ _ HAB) in HoB1.
  assert (HpA : patched a fp A doc = newLayoutContent a fp A doc)
    by (unfold patched; now rewrite HmA).
  rewrite HpA. set (d1 := newLayoutContent a fp A doc) in *.
  assert (HmB1 : includes d1 (importStatement a fp B) = false)
    by now apply occurrences_0_iff.
  set (core := elemOpen A ++ childrenText ++ elemClose A) in *.
  assert (Hd1' : d1 = (U ++ nl) ++ core ++ nl ++ V).
  { rewrite Hd1, (replacementText_shape A false HAn), HoA, HcA.
    cbn [rootChildrenText negb]. unfold core. now rewrite <- !app_assoc. }
  (* no navigation marker after the first run *)
  assert (Hnav1 : includes d1 navbarMarker = false).
  { assert (Hc : forall v, clearOf v navbarMarker = true)
      by (intros v; now apply clearOf_plain).
    assert (Hne : navbarMarker <> []) by discriminate.
    assert (Hs : includes (modifiedImportContent a fp A doc) navbarMarker
                 = false)
      by (rewrite includes_modified by (reflexivity || assumption);
          now rewrite Hnav, HnavA).
    rewrite HUV in Hs. apply includes_app_false in Hs as [Hs1' Hs2].
    apply includes_app_false in Hs2 as [_ Hs2].
    rewrite Hd1', <- !app_assoc, !includes_break by auto.
    now rewrite Hs1', Hcnav, Hs2. }
  (* the second run: where the import of [B] goes *)
  assert (Hs2 : exists l l0 r,
             modifiedImportContent a fp B d1 = l ++ core ++ r
             /\ l = l0 ++ nl
             /\ includes l childrenText = false).
  { assert (HUnl : includes (U ++ nl) childrenText = false).
    { replace (U ++ nl) with (U ++ nl ++ []) by now rewrite app_nil_r.
      rewrite includes_break;
        [now rewrite HU|now apply clearOf_plain|assumption]. }
    pose proof (before_after d1) as Hxy.
    pose proof (beforeImport_shape d1) as Hx.
    unfold modifiedImportContent.
    set (x1 := beforeImport d1) in *. set (y1 := afterImport d1) in *.
    clearbody x1 y1. rewrite Hd1' in Hxy. symmetry in Hxy.
    destruct (insertion_outside U core V x1 y1 c0 Hxy Hx Hcnl Hclast)
      as [(u' & E1 & E2) | (v' & E1 & E2)].
    - assert (Hl : includes (x1 ++ importStatement a fp B ++ nl ++ u')
                     childrenText = false).
      { rewrite includes_insertion by assumption.
        now rewrite <- E1, HUnl, HchB. }
      destruct u' as [|ch u'].
      + exists (x1 ++ importStatement a fp B ++ nl ++ []),
          (x1 ++ importStatement a fp B), (nl ++ V).
        repeat split; [|now rewrite app_nil_r, <- !app_assoc|exact Hl].
        rewrite E2. now rewrite <- !app_assoc.
      + destruct (exists_last (l := ch :: u')) as (u0 & c' & Hu);
          [discriminate|].
        rewrite Hu in *. rewrite app_assoc in E1. unfold nl in E1 at 1.
        apply app_inj_tail in E1 as [_ <-].
        exists (x1 ++ importStatement a fp B ++ nl ++ u0 ++ nl),
          (x1 ++ importStatement a fp B ++ nl ++ u0), (nl ++ V).
        repeat split; [|now rewrite <- !app_assoc|exact Hl].
        rewrite E2. now rewrite <- !app_assoc.
    - exists (U ++ nl), U,
        (nl ++ v' ++ importStatement a fp B ++ nl ++ y1).
      repeat split; [|exact HUnl]. rewrite E1. now rewrite <- !app_assoc. }
  destruct Hs2 as (l & l0 & r & Hs2 & Hl0 & Hl).
  exists l, r.
  (* the placeholder replaced by the second run is the one inside [core] *)
  assert (Hsplit : modifiedImportContent a fp B d1
                   = (l ++ elemOpen A) ++ childrenText ++ elemClose A ++ r)
    by (rewrite Hs2; unfold core; now rewrite <- !app_assoc).
  assert (Hfirst2 : startsIn (l ++ elemOpen A)
                      (childrenText ++ elemClose A ++ r) childrenText = false).
  { rewrite startsIn_app, Hcanchor, orb_false_r.
    rewrite Hl0 in Hl |- *. apply includes_app_false in Hl as [Hl _].
    rewrite startsIn_app, startsIn_break, Hl;
      [reflexivity|now apply clearOf_plain|assumption]. }
  assert (Hd2 : newLayoutContent a fp B d1
                = (l ++ elemOpen A) ++ replacementText B false
                  ++ elemClose A ++ r).
  { unfold newLayoutContent. rewrite Hnav1, Hsplit.
    cbn [searchValue negb]. now rewrite replace_skip, replace_head. }
  assert (Hocc2 : forall X,
             includes (importStatement a fp X) childrenText = false ->
             endsWithHead fp (importStatement a fp B) X = false ->
             occurrences (newLayoutContent a fp B d1) (importStatement a fp X)
             = occurrences d1 (importStatement a fp X)
               + occurrences (importStatement a fp B) (importStatement a fp X)).
  { intros X HX HhX. rewrite Hd2, replace_occurrences by assumption.
    rewrite <- Hsplit. now apply insert_occurrences. }
  pose proof (Hocc2 A HchA HhBA) as HoA2.
  pose proof (Hocc2 B HchB HhBB) as HoB2.
  rewrite HoA1, (occurrences_absent _ _ HBA) in HoA2.
  rewrite HoB1, (occurrences_self _ (importStatement_nonempty a fp B)) in HoB2.
  assert (HpB : patched a fp B d1 = newLayoutContent a fp B d1)
    by (unfold patched; now rewrite HmB1).
  rewrite HpB. repeat split; [|exact Hl|exact HoA2|exact HoB2].
  rewrite Hd2, (replacementText_shape B false HBn).
  cbn [rootChildrenText negb]. now rewrite <- !app_assoc.
Qed.

(** C2, as the specification states it, fails: a layout that holds the bare
    placeholder, no navigation marker and, already, the import statement of
    [ClerkProvider]. The run for [ClerkProvider] finds its import and
    changes nothing; after the run for [ThemeProvider] the placeholder is
    wrapped by [ThemeProvider] alone. *)
Lemma present_import_not_wrapped :
  includes layoutWithClerk childrenText = true
  /\ includes layoutWithClerk navbarMarker = false
  /\ exists w1 w2,
       addContextProviderToLayout samplePaths ClerkProvider
         (layoutWorld sampleConfig layoutWithClerk) = Ok w1
       /\ addContextProviderToLayout samplePaths ThemeProvider w1 = Ok w2
       /\ disk w2 (layoutPath sampleConfig)
          = Some (importStatement (str "@") samplePaths ClerkProvider ++ nl
                  ++ str "import './globals.css';" ++ nl
                  ++ importStatement (str "@") samplePaths ThemeProvider ++ nl
                  ++ str "export default function RootLayout({ children }) {"
                  ++ nl ++ str "return (<html><body>"
                  ++ wrapOpen ThemeProvider ++ childrenText
                  ++ wrapClose ThemeProvider
                  ++ str "</body></html>);" ++ nl
                  ++ str "}" ++ nl)
       /\ forall doc2,
            disk w2 (layoutPath sampleConfig) = Some doc2 ->
            includes doc2 (str "<ClerkProvider>") = false.
Proof.
  split; [reflexivity|]. split; [reflexivity|].
  do 2 eexists. split; [reflexivity|]. split; [reflexivity|].
  split; [vm_compute; reflexivity|].
  intros doc2. vm_compute. intros [= <-]. reflexivity.
Qed.

Lemma layoutDocument_anchor doc blk body :
  layoutDocument doc blk body ->
  includes doc childrenText = true -> includes body childrenText = true.
Proof.
  intros (Hdoc & (pre & line & Hblk & _ & _) & _ & Hnoch) H.
  rewrite Hdoc, Hblk in H. rewrite Hblk, app_assoc in Hnoch.
  apply includes_app_false in Hnoch as [Hnoch _].
  replace ((pre ++ line ++ nl) ++ body) with ((pre ++ line) ++ nl ++ body) in H
    by now rewrite <- !app_assoc.
  rewrite includes_break, Hnoch in H;
    [exact H|now apply clearOf_plain|discriminate].
Qed.

(** C2, amended. On a document that holds the bare placeholder, no
    navigation marker and neither import statement, the runs for a wrapping
    provider [A] and then for a wrapping provider [B] leave the element of
    [B] directly around the first placeholder of the document and the
    element of [A] around the element of [B], and each of the two import
    statements occurs exactly once in the document. On a layout document,
    the two import statements follow the import block and the nested
    elements stand in the body, in place of its first placeholder. *)
Theorem wrapping_providers_nest fp A B w c doc :
  config w = Some c ->
  disk w (layoutPath c) = Some doc ->
  wrapping A = true -> wrapping B = true ->
  ordinaryImports (alias c) fp A B = true ->
  includes doc childrenText = true ->
  includes doc navbarMarker = false ->
  includes doc (importStatement (alias c) fp A) = false ->
  includes doc (importStatement (alias c) fp B) = false ->
  exists w1 w2 doc2 l r,
    addContextProviderToLayout fp A w = Ok w1
    /\ addContextProviderToLayout fp B w1 = Ok w2
    /\ disk w2 (layoutPath c) = Some doc2
    /\ doc2 = l ++ elemOpen A ++ wrapOpen B ++ childrenText ++ wrapClose B
              ++ elemClose A ++ r
    /\ includes l childrenText = false
    /\ occurrences doc2 (importStatement (alias c) fp A) = 1
    /\ occurrences doc2 (importStatement (alias c) fp B) = 1
    /\ forall blk body,
         layoutDocument doc blk body ->
         exists b1 b2,
           body = b1 ++ childrenText ++ b2
           /\ includes b1 childrenText = false
           /\ doc2 = blk ++ importStatement (alias c) fp A ++ nl
                     ++ importStatement (alias c) fp B ++ nl
                     ++ b1 ++ wrapOpen A ++ wrapOpen B ++ childrenText
                     ++ wrapClose B ++ wrapClose A ++ b2.
Proof.
  intros Hc Hd HA HB Hord Hanchor Hnav HmA HmB.
  destruct (addContextProviderToLayout_patched fp A w c doc Hc Hd)
    as (w1 & Hr1 & Hc1 & Hd1).
  destruct (addContextProviderToLayout_patched fp B w1 c _ Hc1 Hd1)
    as (w2 & Hr2 & _ & Hd2).
  destruct (two_wrappers_any (alias c) fp A B doc HA HB Hord Hanchor Hnav
              HmA HmB) as (l & r & Heq & Hl & HoA & HoB).
  exists w1, w2, (patched (alias c) fp B (patched (alias c) fp A doc)), l, r.
  repeat split; try assumption.
  intros blk body Hlay.
  destruct (two_wrappers (alias c) fp A B doc blk body HA HB Hord Hlay
              (layoutDocument_anchor doc blk body Hlay Hanchor) Hnav HmA HmB)
    as (b1 & b2 & Hbody & Hb1 & Heq' & _).
  now exists b1, b2.
Qed.

(** The sample layout is a layout document. *)
Example sampleLayout_layoutDocument :
  layoutDocument sampleLayout sampleBlock sampleBody.
Proof.
  repeat split; try reflexivity.
  exists [], (str "import './globals.css';"). repeat split; reflexivity.
Qed.

Lemma wrapping_providers_nest_witness :
  exists w1 w2 doc2 l r b1 b2,
    addContextProviderToLayout samplePaths TrpcProvider
      (layoutWorld sampleConfig sampleLayout) = Ok w1
    /\ addContextProviderToLayout samplePaths ThemeProvider w1 = Ok w2
    /\ disk w2 (layoutPath sampleConfig) = Some doc2
    /\ doc2 = l ++ elemOpen TrpcProvider ++ wrapOpen ThemeProvider
              ++ childrenText ++ wrapClose ThemeProvider
              ++ elemClose TrpcProvider ++ r
    /\ includes l childrenText = false
    /\ occurrences doc2
         (importStatement (alias sampleConfig) samplePaths TrpcProvider) = 1
    /\ occurrences doc2
         (importStatement (alias sampleConfig) samplePaths ThemeProvider) = 1
    /\ sampleBody = b1 ++ childrenText ++ b2
    /\ includes b1 childrenText = false
    /\ doc2 = sampleBlock
              ++ importStatement (alias sampleConfig) samplePaths TrpcProvider
              ++ nl
              ++ importStatement (alias sampleConfig) samplePaths ThemeProvider
              ++ nl
              ++ b1 ++ wrapOpen TrpcProvider ++ wrapOpen ThemeProvider
              ++ childrenText
              ++ wrapClose ThemeProvider ++ wrapClose TrpcProvider ++ b2.
Proof.
  destruct (wrapping_providers_nest samplePaths TrpcProvider ThemeProvider
              (layoutWorld sampleConfig sampleLayout) sampleConfig sampleLayout
              eq_refl eq_refl eq_refl eq_refl eq_refl eq_refl eq_refl eq_refl
              eq_refl)
    as (w1 & w2 & doc2 & l & r & H1 & H2 & H3 & H4 & H5 & H6 & H7 & Hlay).
  destruct (Hlay sampleBlock sampleBody sampleLayout_layoutDocument)
    as (b1 & b2 & H8 & H9 & H10).
  exists w1, w2, doc2, l, r, b1, b2.
  exact (conj H1 (conj H2 (conj H3 (conj H4 (conj H5 (conj H6 (conj H7
           (conj H8 (conj H9 H10))))))))).
Defined.

(** The two runs give the document one expects. *)
Example wrapping_providers_nest_sample :
  patched (str "@") samplePaths ThemeProvider
    (patched (str "@") samplePaths TrpcProvider sampleLayout)
  = str "import './globals.css';" ++ nl
    ++ importStatement (str "@") samplePaths TrpcProvider ++ nl
    ++ importStatement (str "@") samplePaths ThemeProvider ++ nl
    ++ str "export default function RootLayout({ children }) {" ++ nl
    ++ str "return (<html><body>"
    ++ wrapOpen TrpcProvider ++ wrapOpen ThemeProvider ++ childrenText
    ++ wrapClose ThemeProvider ++ wrapClose TrpcProvider
    ++ str "</body></html>);" ++ nl ++ str "}" ++ nl.
Proof. vm_compute. reflexivity. Qed.

(** ** The navigation provider, on any document *)

(** The navigation marker, once in the document, stays in it. *)
Lemma marker_persists a fp p d :
  includes d navbarMarker = true ->
  includes (patched a fp p d) navbarMarker = true.
Proof.
  intros H. unfold patched.
  destruct (includes d (importStatement a fp p)); [exact H|].
  unfold newLayoutContent. rewrite H, replacementText_navigation.
  cbn [searchValue negb].
  assert (Hs : includes (modifiedImportContent a fp p d) navbarMarker = true)
    by (rewrite includes_modified by (reflexivity || discriminate);
        now rewrite H).
  destruct (includes (modifiedImportContent a fp p d) navbarBlock) eqn:E.
  - destruct (replace_first _ navbarBlock
                (wrapOpen p ++ navbarBlock ++ wrapClose p) E)
      as (P & Q & _ & _ & ->).
    apply includes_app_r, includes_app_l, includes_app_r, includes_app_l.
    exact navbarBlock_has_marker.
  - now rewrite replace_absent.
Qed.

Lemma marker_persists_all a fp ps d :
  includes d navbarMarker = true ->
  includes (patchedAll a fp ps d) navbarMarker = true.
Proof.
  revert d; induction ps as [|p ps IH]; intros d H; [exact H|].
  cbn [patchedAll]. now apply IH, marker_persists.
Qed.

(** The run for the navigation provider puts the marker in the document. *)
Lemma navigation_marker a fp doc :
  includes doc childrenText = true ->
  includes doc navbarMarker = false ->
  includes doc (importStatement a fp Navbar) = false ->
  includes (patched a fp Navbar doc) navbarMarker = true.
Proof.
  intros Hanchor Hnav Hm. unfold patched, newLayoutContent.
  rewrite Hm, Hnav. cbn [searchValue replacementText negb].
  assert (Hs : includes (modifiedImportContent a fp Navbar doc) childrenText
               = true)
    by (rewrite includes_modified by (reflexivity || discriminate);
        now rewrite Hanchor).
  destruct (replace_first _ childrenText navbarBlock Hs)
    as (P & Q & _ & _ & ->).
  apply includes_app_r, includes_app_l. exact navbarBlock_has_marker.
Qed.

(** On a document without a line feed after its last import, the import of
    a later provider can land inside the navigation block; the block is then
    broken and nothing wraps it. *)
Example one_line_layout_splits_block :
  patchedAll (str "@") samplePaths [Navbar; ClerkProvider]
    (str "import a from 'a'; <body>{children}</body>")
  = importStatement (str "@") samplePaths Navbar ++ nl
    ++ str "import a from 'a'; <body><div className=" ++ dq ++ str "flex"
    ++ dq ++ str ">" ++ nl
    ++ importStatement (str "@") samplePaths ClerkProvider ++ nl
    ++ str "<Sidebar />" ++ nl
    ++ str "<main className=" ++ dq ++ str "flex-1 md:p-8 pt-2 p-8" ++ dq
    ++ str ">" ++ nl
    ++ str "<Navbar />" ++ nl
    ++ str "{children}" ++ nl
    ++ str "</main>" ++ nl
    ++ str "</div></body>".
Proof. vm_compute. reflexivity. Qed.

(** C3, as the specification states it, fails: the toast provider, applied
    after the navigation provider, does not wrap the navigation block; it
    leaves the block as it is and puts its element after it. *)
Lemma toast_after_navigation_appends :
  exists w',
    applyProviders samplePaths [Navbar; ShadcnToast]
      (layoutWorld sampleConfig sampleLayout) = Ok w'
    /\ disk w' (layoutPath sampleConfig)
       = Some (str "import './globals.css';" ++ nl
               ++ importStatement (str "@") samplePaths Navbar ++ nl
               ++ importStatement (str "@") samplePaths ShadcnToast ++ nl
               ++ str "export default function RootLayout({ children }) {"
               ++ nl ++ str "return (<html><body>"
               ++ navbarBlock ++ nl ++ str "<Toaster />" ++ nl
               ++ str "</body></html>);" ++ nl
               ++ str "}" ++ nl).
Proof. eexists. split; [reflexivity|]. vm_compute. reflexivity. Qed.

(** C3, amended. On a document with the bare placeholder, without
    navigation marker and without the import statement of the navigation
    provider, the anchor searched is the placeholder; after the run for the
    navigation provider, and after any further runs, the anchor searched is
    the navigation block. When the document is a layout document, it is
    still one after these runs, with the block in its body, and the next
    run, for a provider whose import statement is not in the document,
    replaces the first block of the body as a whole: by the block inside the
    element of a wrapping provider, by the block followed by the toaster
    element for the toast provider. For a provider whose import statement is
    in the document, it changes nothing. *)
Theorem navigation_changes_anchor fp w c doc ps p :
  config w = Some c ->
  disk w (layoutPath c) = Some doc ->
  plainPaths (alias c) fp = true ->
  importsAvoidAnchor (alias c) fp = true ->
  includes doc childrenText = true ->
  includes doc navbarMarker = false ->
  includes doc (importStatement (alias c) fp Navbar) = false ->
  searchValue (includes doc navbarMarker) = childrenText
  /\ exists w' d,
       applyProviders fp (Navbar :: ps) w = Ok w'
       /\ disk w' (layoutPath c) = Some d
       /\ searchValue (includes d navbarMarker) = navbarBlock
       /\ forall blk body,
            layoutDocument doc blk body ->
            exists blk' c1 c2,
              layoutDocument d blk' (c1 ++ navbarBlock ++ c2)
              /\ includes c1 navbarBlock = false
              /\ patched (alias c) fp p d
                 = if includes d (importStatement (alias c) fp p) then d
                   else (blk' ++ importStatement (alias c) fp p ++ nl)
                        ++ c1
                        ++ (wrapOpen p ++ navbarBlock ++ wrapClose p) ++ c2.
Proof.
  intros Hc Hd Hplain Havoid Hanchor Hnav Hm.
  split; [now rewrite Hnav|].
  destruct (applyProviders_patchedAll fp (Navbar :: ps) w c doc Hc Hd)
    as (w' & Hr & _ & Hd').
  cbn [patchedAll] in Hd'.
  set (d := patchedAll (alias c) fp ps (patched (alias c) fp Navbar doc)) in *.
  assert (Hmark : includes d navbarMarker = true)
    by (apply marker_persists_all, navigation_marker; assumption).
  exists w', d.
  split; [exact Hr|]. split; [exact Hd'|]. split; [now rewrite Hmark|].
  intros blk body Hl.
  destruct (navigation_first (alias c) fp doc blk body Hplain Havoid Hl
              (layoutDocument_anchor doc blk body Hl Hanchor) Hnav Hm)
    as (b1 & b2 & _ & _ & _ & HN1).
  pose proof (navigationLayout_patchedAll (alias c) fp ps _ Hplain Havoid HN1)
    as HN.
  fold d in HN. destruct HN as (blk' & body' & Hl' & Hnav').
  destruct (replace_first body' navbarBlock [] Hnav')
    as (c1 & c2 & Hbody & Hfirst & _).
  exists blk', c1, c2.
  split; [now rewrite <- Hbody|].
  split; [apply (first_not_before c1 (navbarBlock ++ c2) navbarBlock);
          [discriminate|assumption]|].
  destruct (includes d (importStatement (alias c) fp p)) eqn:E.
  - unfold patched. now rewrite E.
  - assert (Hsv : searchValue (includes d navbarMarker) = navbarBlock)
      by now rewrite Hmark.
    assert (Hb : body' = c1 ++ searchValue (includes d navbarMarker) ++ c2)
      by now rewrite Hsv.
    assert (Hf : startsIn c1 (searchValue (includes d navbarMarker) ++ c2)
                   (searchValue (includes d navbarMarker)) = false)
      by now rewrite Hsv.
    destruct (patch_layoutDocument (alias c) fp p Hplain
                (importsAvoidAnchor_inv (alias c) fp p Havoid) d blk' body'
                c1 c2 Hl' Hb Hf) as [Heq _].
    rewrite Hmark, replacementText_navigation in Heq.
    unfold patched. now rewrite E.
Qed.

Lemma navigation_changes_anchor_witness :
  searchValue (includes sampleLayout navbarMarker) = childrenText
  /\ exists w' d blk' c1 c2,
       applyProviders samplePaths [Navbar; ClerkProvider; ShadcnToast]
         (layoutWorld sampleConfig sampleLayout) = Ok w'
       /\ disk w' (layoutPath sampleConfig) = Some d
       /\ searchValue (includes d navbarMarker) = navbarBlock
       /\ layoutDocument d blk' (c1 ++ navbarBlock ++ c2)
       /\ includes c1 navbarBlock = false
       /\ patched (alias sampleConfig) samplePaths ThemeProvider d
          = if includes d
                 (importStatement (alias sampleConfig) samplePaths
                    ThemeProvider)
            then d
            else (blk'
                  ++ importStatement (alias sampleConfig) samplePaths
                       ThemeProvider ++ nl)
                 ++ c1
                 ++ (wrapOpen ThemeProvider ++ navbarBlock
                     ++ wrapClose ThemeProvider) ++ c2.
Proof.
  destruct (navigation_changes_anchor samplePaths
              (layoutWorld sampleConfig sampleLayout) sampleConfig
              sampleLayout [ClerkProvider; ShadcnToast] ThemeProvider
              eq_refl eq_refl eq_refl eq_refl eq_refl eq_refl eq_refl)
    as (Hsv & w' & d & Hr & Hd & Hsv' & Hlay).
  split; [exact Hsv|].
  destruct (Hlay sampleBlock sampleBody sampleLayout_layoutDocument)
    as (blk' & c1 & c2 & H1 & H2 & H3).
  exists w', d, blk', c1, c2.
  exact (conj Hr (conj Hd (conj Hsv' (conj H1 (conj H2 H3))))).
Defined.

(** * Further properties of the code *)

(** ** The patcher: what a run touches *)

(** X1. A run that returns writes at most one file, the layout of the
    configuration: the configuration, the install lists and the component
    list are as before, every other file is as before, and the calls made
    are those made before, preceded by the one call of [replaceFile] when
    the layout was rewritten. *)
Theorem addContextProviderToLayout_frame fp p w w' :
  addContextProviderToLayout fp p w = Ok w' ->
  config w' = config w
  /\ installList_regular w' = installList_regular w
  /\ installList_dev w' = installList_dev w
  /\ shadCnComponentList w' = shadCnComponentList w
  /\ exists c,
       config w = Some c
       /\ (forall q, q <> layoutPath c -> disk w' q = disk w q)
       /\ (w' = w
           \/ exists content,
                calls w' = ReplaceFile (layoutPath c) content :: calls w
                /\ disk w' (layoutPath c) = Some content).
Proof.
  unfold addContextProviderToLayout, readConfigFile, readFileSync.
  destruct (config w) as [c|] eqn:Hc; [|discriminate]. cbn [bind].
  destruct (disk w (layoutPath c)) as [doc|] eqn:Hd; [|discriminate].
  cbn [bind].
  destruct (includes doc (importStatement (alias c) fp p)).
  - intros [= <-]. repeat split; try assumption.
    exists c. repeat split. now left.
  - intros [= <-]. repeat split; try assumption.
    exists c. repeat split.
    + intros q Hq. cbn.
      destruct (eqb q (layoutPath c)) eqn:E; [|reflexivity].
      apply eqb_eq in E. contradiction.
    + right. eexists. split; [reflexivity|]. apply disk_replaceFile.
Qed.

Lemma addContextProviderToLayout_frame_witness :
  addContextProviderToLayout samplePaths ClerkProvider
    (layoutWorld sampleConfig sampleLayout)
  = Ok (replaceFile (layoutPath sampleConfig)
          (newLayoutContent (alias sampleConfig) samplePaths ClerkProvider
             sampleLayout)
          (layoutWorld sampleConfig sampleLayout))
  /\ forall q,
       q <> layoutPath sampleConfig ->
       disk (replaceFile (layoutPath sampleConfig)
               (newLayoutContent (alias sampleConfig) samplePaths
                  ClerkProvider sampleLayout)
               (layoutWorld sampleConfig sampleLayout)) q
       = disk (layoutWorld sampleConfig sampleLayout) q.
Proof.
  split; [reflexivity|].
  destruct (addContextProviderToLayout_frame samplePaths ClerkProvider
              (layoutWorld sampleConfig sampleLayout) _ eq_refl)
    as (_ & _ & _ & _ & c & Hc & Hq & _).
  injection Hc as <-. exact Hq.
Defined.

(** ** The patcher only adds text *)

Lemma embeds_refl s : embeds s s.
Proof. induction s; constructor; assumption. Qed.

Lemma embeds_nil_l t : embeds [] t.
Proof. induction t; constructor; assumption. Qed.

Lemma embeds_app s s' t t' :
  embeds s t -> embeds s' t' -> embeds (s ++ s') (t ++ t').
Proof.
  intros H H'. induction H; cbn [app]; try (constructor; assumption).
  exact H'.
Qed.

Lemma embeds_trans s t u : embeds s t -> embeds t u -> embeds s u.
Proof.
  intros Hst Htu. revert s Hst.
  induction Htu as [|c t u _ IH|c t u _ IH]; intros s Hst.
  - exact Hst.
  - inversion Hst; subst.
    + apply embeds_keep. now apply IH.
    + apply embeds_insert. now apply IH.
  - apply embeds_insert. now apply IH.
Qed.

Lemma embeds_length s t : embeds s t -> length s <= length t.
Proof. induction 1; cbn [length]; lia. Qed.

(** Replacing a pattern by a text that holds it loses nothing. *)
Lemma replace_embeds s pat rep :
  embeds pat rep -> embeds s (replace s pat rep).
Proof.
  intros H. induction s as [|c s IH]; cbn [replace].
  - destruct (startsWith [] pat) eqn:E; [|constructor].
    destruct pat; [|discriminate]. cbn [length skipn].
    rewrite app_nil_r. exact H.
  - destruct (startsWith (c :: s) pat) eqn:E.
    + rewrite (startsWith_skipn _ _ E) at 1.
      apply embeds_app; [exact H|apply embeds_refl].
    + now apply embeds_keep.
Qed.

(** Every replacement text holds the anchor it replaces. *)
Lemma replacementText_holds_anchor p b :
  exists l r, replacementText p b = l ++ searchValue b ++ r.
Proof.
  assert (Hdec : p = Navbar \/ p <> Navbar)
    by (destruct p; (now left) || (right; discriminate)).
  destruct Hdec as [-> | Hp].
  - destruct b.
    + exists [], []. cbn [replacementText searchValue negb app].
      now rewrite app_nil_r.
    + apply includes_inv. reflexivity.
  - exists (wrapOpen p), (wrapClose p). now apply replacementText_shape.
Qed.

(** X3. A run never deletes or moves text of the layout: the document it
    leaves holds every character of the one it read, in the same order.
    What is added is the import line and what the replacement text puts
    around the anchor. *)
Theorem addContextProviderToLayout_keeps_text fp p w w' c doc :
  config w = Some c ->
  disk w (layoutPath c) = Some doc ->
  addContextProviderToLayout fp p w = Ok w' ->
  exists doc',
    disk w' (layoutPath c) = Some doc'
    /\ embeds doc doc'
    /\ length doc <= length doc'.
Proof.
  intros Hc Hd. rewrite (addContextProviderToLayout_run fp p w c doc Hc Hd).
  assert (Hnew : embeds doc (newLayoutContent (alias c) fp p doc)).
  { unfold newLayoutContent, modifiedImportContent.
    destruct (replacementText_holds_anchor p (includes doc navbarMarker))
      as (l & r & Hrep).
    eapply embeds_trans; [|apply replace_embeds].
    - rewrite <- (before_after doc) at 1.
      apply embeds_app; [apply embeds_refl|].
      rewrite app_assoc.
      apply (embeds_app [] (afterImport doc));
        [apply embeds_nil_l|apply embeds_refl].
    - rewrite Hrep.
      apply (embeds_app [] (searchValue _)); [apply embeds_nil_l|].
      rewrite <- (app_nil_r (searchValue _)) at 1.
      apply embeds_app; [apply embeds_refl|apply embeds_nil_l]. }
  destruct (includes doc (importStatement (alias c) fp p)); intros [= <-].
  - exists doc. split; [exact Hd|]. split; [apply embeds_refl|lia].
  - eexists. split; [apply disk_replaceFile|].
    split; [exact Hnew|now apply embeds_length].
Qed.

Lemma addContextProviderToLayout_keeps_text_witness :
  exists doc',
    disk (replaceFile (layoutPath sampleConfig)
            (newLayoutContent (alias sampleConfig) samplePaths ThemeProvider
               sampleLayout)
            (layoutWorld sampleConfig sampleLayout))
      (layoutPath sampleConfig) = Some doc'
    /\ embeds sampleLayout doc'
    /\ length sampleLayout <= length doc'.
Proof.
  apply (addContextProviderToLayout_keeps_text samplePaths ThemeProvider
           (layoutWorld sampleConfig sampleLayout) _ sampleConfig
           sampleLayout); reflexivity.
Defined.

(** ** The navigation provider on a layout that has the navigation *)

Lemma replace_same s pat : replace s pat pat = s.
Proof.
  induction s as [|c s IH]; cbn [replace].
  - destruct (startsWith [] pat) eqn:E; [|reflexivity].
    destruct pat; [reflexivity|discriminate].
  - destruct (startsWith (c :: s) pat) eqn:E.
    + symmetry. now apply startsWith_skipn.
    + now rewrite IH.
Qed.

(** X4. On a layout that holds the "<Navbar />" element and not the import
    statement of the navigation provider, a run of [Navbar] inserts the
    import statement and leaves the rest of the document as it is: the
    navigation block is searched and replaced by itself (lines 121 and
    136), so no second block is nested. *)
Theorem navbar_present_inserts_import_only fp w c doc :
  config w = Some c ->
  disk w (layoutPath c) = Some doc ->
  includes doc navbarMarker = true ->
  includes doc (importStatement (alias c) fp Navbar) = false ->
  exists w',
    addContextProviderToLayout fp Navbar w = Ok w'
    /\ doc = beforeImport doc ++ afterImport doc
    /\ disk w' (layoutPath c)
       = Some (beforeImport doc ++ importStatement (alias c) fp Navbar ++ nl
               ++ afterImport doc).
Proof.
  intros Hc Hd Hm Hi.
  rewrite (addContextProviderToLayout_run fp Navbar w c doc Hc Hd), Hi.
  eexists. split; [reflexivity|]. split; [now rewrite before_after|].
  rewrite disk_replaceFile. unfold newLayoutContent. rewrite Hm.
  cbn [searchValue replacementText negb]. now rewrite replace_same.
Qed.

Lemma navbar_present_inserts_import_only_witness :
  exists w',
    addContextProviderToLayout samplePaths Navbar
      (layoutWorld sampleConfig layoutWithNavbar) = Ok w'
    /\ layoutWithNavbar
       = beforeImport layoutWithNavbar ++ afterImport layoutWithNavbar
    /\ disk w' (layoutPath sampleConfig)
       = Some (beforeImport layoutWithNavbar
               ++ importStatement (alias sampleConfig) samplePaths Navbar
               ++ nl ++ afterImport layoutWithNavbar).
Proof.
  apply (navbar_present_inserts_import_only samplePaths
           (layoutWorld sampleConfig layoutWithNavbar) sampleConfig
           layoutWithNavbar); reflexivity.
Defined.

(** ** Where the import statement is inserted *)

Lemma find_absent (s pat : jsstring) :
  includes s pat = false -> find s pat = None.
Proof.
  induction s as [|ch s IH]; cbn [includes find]; intros H;
    apply orb_false_iff in H as [H1 H2].
  - now rewrite H1.
  - now rewrite H1, (IH H2).
Qed.

(** The slices of the patcher, for a document cut after the line of its
    last "import". *)
Lemma slices_after_last_import pre line post :
  includes line (str "import") = true ->
  includes line nl = false ->
  includes post (str "import") = false ->
  beforeImport (pre ++ line ++ nl ++ post) = pre ++ line ++ nl
  /\ afterImport (pre ++ line ++ nl ++ post) = post.
Proof.
  intros Himp Hnl Hpost.
  set (doc := pre ++ line ++ nl ++ post).
  assert (Hz : includes (nl ++ post) (str "import") = false).
  { change (nl ++ post) with ("010"%char :: post). cbn [includes].
    now rewrite Hpost. }
  destruct (findLast_total (line ++ nl ++ post) (str "import")
              (includes_app_l _ _ _ Himp)) as [i Hi].
  destruct (findLast_sound _ _ _ Hi) as (a & b & Hab & Hla).
  assert (Hsplit : exists l,
             line = a ++ l /\ str "import" ++ b = l ++ nl ++ post).
  { apply app_eq_app in Hab as [l [[H1 H2] | [H1 H2]]].
    - now exists l.
    - rewrite H2 in Hz. apply includes_app_false in Hz as [_ Hz].
      pose proof (includes_intro [] (str "import") b) as Hi2.
      cbn [app] in Hi2. congruence. }
  destruct Hsplit as (l & Hline & Hrest).
  assert (Hl : includes l nl = false).
  { rewrite Hline in Hnl. now apply includes_app_false in Hnl. }
  assert (Hnext : nextLineAfterLastImport doc
                  = Z.of_nat (length (pre ++ line ++ nl))).
  { unfold nextLineAfterLastImport, lastIndexOf, indexOf, doc.
    rewrite (findLast_app_some pre _ _ i Hi).
    replace (Z.to_nat _) with (length (pre ++ a))
      by (unfold len; rewrite !length_app, Hla;
          rewrite Hline, !length_app; lia).
    rewrite Hline, <- !app_assoc, (app_assoc pre a).
    rewrite skipn_app, skipn_all, Nat.sub_diag. cbn [skipn app].
    rewrite (find_first l nl post (startsIn_nl l post Hl)).
    rewrite !length_app. cbn [length nl]. lia. }
  unfold beforeImport, afterImport. rewrite Hnext.
  rewrite slice_head, slice_tail
    by (unfold len, doc; rewrite !length_app; lia).
  rewrite Nat2Z.id. unfold doc.
  replace (pre ++ line ++ nl ++ post) with ((pre ++ line ++ nl) ++ post)
    by now rewrite <- !app_assoc.
  rewrite firstn_app, firstn_all, Nat.sub_diag, skipn_app, skipn_all,
    Nat.sub_diag. cbn [firstn skipn app]. now rewrite app_nil_r.
Qed.

(** X5. Whatever the document (empty, without imports, without line
    feeds), the two slices of lines 65 and 66 make it up, and the cut is at
    the start of a line: at index 0 or right after a line feed. The import
    statement, with its line feed, is inserted there, so it never lands
    inside a line; and unless the cut is at index 0, nothing after it holds
    the text "import". *)
Theorem import_inserted_at_line_start a fp p doc :
  exists x y,
    doc = x ++ y
    /\ (x = [] \/ exists x0, x = x0 ++ nl)
    /\ (x = [] \/ includes y (str "import") = false)
    /\ modifiedImportContent a fp p doc
       = x ++ importStatement a fp p ++ nl ++ y.
Proof.
  exists (beforeImport doc), (afterImport doc).
  split; [now rewrite before_after|].
  split; [apply beforeImport_shape|].
  split; [apply afterImport_no_import|reflexivity].
Qed.

(** X6. The import statement goes on a line of its own right after the line
    that holds the last "import" of the document, whatever that line is
    (the search of line 62 is for the text "import", not for an import
    declaration) and whatever comes before it. *)
Theorem import_inserted_after_last_import_line a fp p pre line post :
  includes line (str "import") = true ->
  includes line nl = false ->
  includes post (str "import") = false ->
  modifiedImportContent a fp p (pre ++ line ++ nl ++ post)
  = pre ++ line ++ nl ++ importStatement a fp p ++ nl ++ post.
Proof.
  intros H1 H2 H3. unfold modifiedImportContent.
  destruct (slices_after_last_import pre line post H1 H2 H3) as [-> ->].
  now rewrite <- !app_assoc.
Qed.

Lemma import_inserted_after_last_import_line_witness :
  modifiedImportContent (str "@") samplePaths ShadcnToast
    (str "'use client';" ++ nl ++ str "// the important part" ++ nl
     ++ str "export default Root;")
  = str "'use client';" ++ nl ++ str "// the important part" ++ nl
    ++ importStatement (str "@") samplePaths ShadcnToast ++ nl
    ++ str "export default Root;".
Proof.
  apply (import_inserted_after_last_import_line (str "@") samplePaths
           ShadcnToast (str "'use client';" ++ nl)
           (str "// the important part") (str "export default Root;"));
    reflexivity.
Defined.

(** X7. When no line feed follows the last "import" of the document (the
    last import is on an unterminated final line), [indexOf] gives -1, the
    insertion point is index 0, and the import statement is put before the
    whole document. *)
Theorem unterminated_import_line_prepends a fp p u v :
  includes v nl = false ->
  modifiedImportContent a fp p (u ++ str "import" ++ v)
  = importStatement a fp p ++ nl ++ u ++ str "import" ++ v.
Proof.
  intros Hv.
  set (doc := u ++ str "import" ++ v).
  assert (Hs : includes (str "import" ++ v) nl = false).
  { unfold nl in *. now rewrite includes_char_app, Hv. }
  destruct (findLast_total (str "import" ++ v) (str "import")
              (includes_intro [] (str "import") v)) as [j Hj].
  assert (Hnext : nextLineAfterLastImport doc = 0%Z).
  { unfold nextLineAfterLastImport, lastIndexOf, indexOf, doc.
    rewrite (findLast_app_some u _ _ j Hj).
    destruct (findLast_sound _ _ _ Hj) as (a0 & b0 & Hab & Hla).
    replace (Z.to_nat _) with (length u + j).
    2:{ assert (Hlen : j <= length (str "import" ++ v))
          by (rewrite Hab, length_app; lia).
        unfold len. rewrite length_app. lia. }
    rewrite skipn_app.
    replace (skipn (length u + j) u) with (@nil ascii)
      by (symmetry; apply skipn_all2; lia).
    replace (length u + j - length u) with j by lia. cbn [app].
    rewrite find_absent; [reflexivity|].
    rewrite <- (firstn_skipn j (str "import" ++ v)) in Hs.
    now apply includes_app_false in Hs. }
  unfold modifiedImportContent, beforeImport, afterImport. rewrite Hnext.
  rewrite slice_head, slice_tail by (unfold len; lia).
  reflexivity.
Qed.

Lemma unterminated_import_line_prepends_witness :
  modifiedImportContent (str "@") samplePaths ClerkProvider
    (str "'use client';" ++ nl ++ str "import" ++ str " x from 'y';")
  = importStatement (str "@") samplePaths ClerkProvider ++ nl
    ++ str "'use client';" ++ nl ++ str "import" ++ str " x from 'y';".
Proof.
  apply (unterminated_import_line_prepends (str "@") samplePaths
           ClerkProvider (str "'use client';" ++ nl) (str " x from 'y';")).
  reflexivity.
Defined.

(** ** The aggregators: what the flushes pass on, and what they keep *)

(** X8. The flush of the install list does not empty the list: the two
    collections are after the flush what they were before, so a second
    flush makes the same installer call again. (Nothing in the file resets
    [installList].) *)
Theorem installPackagesFromList_keeps_list w c :
  config w = Some c ->
  installList_regular w <> [] \/ installList_dev w <> [] ->
  exists w1 w2 install,
    installPackagesFromList w = Ok w1
    /\ installPackagesFromList w1 = Ok w2
    /\ installList_regular w2 = installList_regular w
    /\ installList_dev w2 = installList_dev w
    /\ install = InstallPackages (formatted (setSpread (installList_regular w)))
                   (formatted (setSpread (installList_dev w)))
                   (preferredPackageManager c)
    /\ installInvocations w1 = install :: installInvocations w
    /\ installInvocations w2 = install :: install :: installInvocations w.
Proof.
  intros Hc Hne.
  rewrite (installPackagesFromList_run w c Hc Hne).
  eexists. eexists. eexists. split; [reflexivity|].
  rewrite (installPackagesFromList_run _ c); [|exact Hc|exact Hne].
  split; [reflexivity|]. repeat split.
Qed.

Lemma installPackagesFromList_keeps_list_witness :
  exists w1 w2 install,
    installPackagesFromList (pushAll samplePushes (emptyWorld sampleConfig))
    = Ok w1
    /\ installPackagesFromList w1 = Ok w2
    /\ installList_regular w2
       = installList_regular (pushAll samplePushes (emptyWorld sampleConfig))
    /\ installList_dev w2
       = installList_dev (pushAll samplePushes (emptyWorld sampleConfig))
    /\ install
       = InstallPackages
           (formatted
              (setSpread
                 (installList_regular
                    (pushAll samplePushes (emptyWorld sampleConfig)))))
           (formatted
              (setSpread
                 (installList_dev
                    (pushAll samplePushes (emptyWorld sampleConfig)))))
           (preferredPackageManager sampleConfig)
    /\ installInvocations w1
       = install
         :: installInvocations (pushAll samplePushes (emptyWorld sampleConfig))
    /\ installInvocations w2
       = install :: install
         :: installInvocations (pushAll samplePushes (emptyWorld sampleConfig)).
Proof.
  apply (installPackagesFromList_keeps_list
           (pushAll samplePushes (emptyWorld sampleConfig)) sampleConfig).
  - reflexivity.
  - left. discriminate.
Defined.

Lemma pushAllComponents_lists pushes w :
  shadCnComponentList (pushAllComponents pushes w)
  = shadCnComponentList w ++ concat pushes
  /\ calls (pushAllComponents pushes w) = calls w
  /\ config (pushAllComponents pushes w) = config w
  /\ installList_regular (pushAllComponents pushes w) = installList_regular w
  /\ installList_dev (pushAllComponents pushes w) = installList_dev w.
Proof.
  unfold pushAllComponents. revert w.
  induction pushes as [|cs ps IH]; intros w.
  - cbn. now rewrite app_nil_r.
  - cbn [fold_left concat].
    destruct (IH (addToShadcnComponentList cs w)) as (H1 & H2 & H3 & H4 & H5).
    rewrite H1, H2, H3, H4, H5. cbn. now rewrite <- app_assoc.
Qed.

(** X9. The flush of the component list hands the queue over as it is: the
    names of all the calls of [addToShadcnComponentList], in the order of
    the calls, repeated names repeated and nothing trimmed (unlike the
    install list, which goes through a set and is trimmed). *)
Theorem installShadcnComponentList_passes_queue pushes w :
  shadCnComponentList w ++ concat pushes <> [] ->
  installInvocations (installShadcnComponentList (pushAllComponents pushes w))
  = InstallShadcnUIComponents (shadCnComponentList w ++ concat pushes)
    :: installInvocations w.
Proof.
  intros Hne.
  destruct (pushAllComponents_lists pushes w) as (Hl & Hc & _).
  unfold installShadcnComponentList. rewrite Hl.
  destruct (shadCnComponentList w ++ concat pushes) eqn:E; [congruence|].
  cbn [length Nat.eqb]. unfold installInvocations. cbn. now rewrite Hc.
Qed.

Lemma installShadcnComponentList_passes_queue_witness :
  installInvocations
    (installShadcnComponentList
       (pushAllComponents
          [[str "button"; str " toast"]; [str "button"]]
          (emptyWorld sampleConfig)))
  = [InstallShadcnUIComponents [str "button"; str " toast"; str "button"]].
Proof.
  apply (installShadcnComponentList_passes_queue
           [[str "button"; str " toast"]; [str "button"]]
           (emptyWorld sampleConfig)).
  discriminate.
Defined.

(** X11. When no queued name is empty or starts or ends with white space,
    the trims do nothing: each argument of the installer call is the
    distinct names of its collection, in first-seen order, separated by
    single spaces. *)
Theorem installPackagesFromList_clean_names w c :
  config w = Some c ->
  installList_regular w <> [] \/ installList_dev w <> [] ->
  forallb trimmedName (installList_regular w) = true ->
  forallb trimmedName (installList_dev w) = true ->
  installPackagesFromList w
  = Ok (call (InstallPackages
                (join (str " ") (setSpread (installList_regular w)))
                (join (str " ") (setSpread (installList_dev w)))
                (preferredPackageManager c))
          (call (SpinnerText (str "Installing Packages")) w)).
Proof.
  intros Hc Hne Hr Hd.
  rewrite (installPackagesFromList_run w c Hc Hne).
  fold (formatted (setSpread (installList_regular w))).
  fold (formatted (setSpread (installList_dev w))).
  rewrite !formatted_trimmedName by now apply forallb_setSpread.
  reflexivity.
Qed.

Lemma installPackagesFromList_clean_names_witness :
  installPackagesFromList
    (addToInstallList [str "zod"; str "drizzle-orm"; str "zod"]
       [str "tsx"] (emptyWorld sampleConfig))
  = Ok (call (InstallPackages (str "zod drizzle-orm") (str "tsx")
                (Some (str "pnpm")))
          (call (SpinnerText (str "Installing Packages"))
             (addToInstallList [str "zod"; str "drizzle-orm"; str "zod"]
                [str "tsx"] (emptyWorld sampleConfig)))).
Proof.
  apply (installPackagesFromList_clean_names
           (addToInstallList [str "zod"; str "drizzle-orm"; str "zod"]
              [str "tsx"] (emptyWorld sampleConfig)) sampleConfig).
  - reflexivity.
  - left. discriminate.
  - reflexivity.
  - reflexivity.
Defined.

(** X12. Names are compared before they are trimmed (line 170 precedes line
    176): a name queued once with surrounding white space and once without
    is kept twice, and the installer is handed the same name two times. *)
Theorem installPackagesFromList_padded_duplicate n w c :
  config w = Some c ->
  installList_regular w = [] ->
  installList_dev w = [] ->
  trim n <> n ->
  trim n <> [] ->
  installPackagesFromList (addToInstallList [n; trim n] [] w)
  = Ok (call (InstallPackages (trim n ++ str " " ++ trim n) []
                (preferredPackageManager c))
          (call (SpinnerText (str "Installing Packages"))
             (addToInstallList [n; trim n] [] w))).
Proof.
  intros Hc Hr Hd Hn Hne.
  rewrite (installPackagesFromList_run _ c) by (cbn; rewrite ?Hr; auto;
                                                left; discriminate).
  cbn [addToInstallList installList_regular installList_dev].
  rewrite Hr, Hd. cbn [app].
  assert (Hs : setSpread [n; trim n] = [n; trim n]).
  { unfold setSpread. cbn [dedupInto arrayIncludes existsb orb].
    destruct (eqb (trim n) n) eqn:E; [|reflexivity].
    apply eqb_eq in E. contradiction. }
  rewrite Hs. cbn [map join setSpread dedupInto].
  destruct (trim_result n) as [E | Ht]; [contradiction|].
  rewrite (trim_trimmedName _ Ht).
  change (trim n ++ str " " ++ trim n)
    with (join (str " ") [trim n; trim n]).
  rewrite trim_trimmedName; [reflexivity|].
  apply join_trimmedName; [discriminate|]. cbn [forallb]. now rewrite Ht.
Qed.

Lemma installPackagesFromList_padded_duplicate_witness :
  installPackagesFromList
    (addToInstallList [str " zod"; trim (str " zod")] []
       (emptyWorld sampleConfig))
  = Ok (call (InstallPackages (str "zod zod") [] (Some (str "pnpm")))
          (call (SpinnerText (str "Installing Packages"))
             (addToInstallList [str " zod"; trim (str " zod")] []
                (emptyWorld sampleConfig)))).
Proof.
  apply (installPackagesFromList_padded_duplicate (str " zod")
           (emptyWorld sampleConfig) sampleConfig);
    try reflexivity; discriminate.
Defined.

Lemma dedupInto_app_seen seen l l' :
  (forall x, In x l' -> In x l \/ In x seen) ->
  dedupInto seen (l ++ l') = dedupInto seen l.
Proof.
  induction l' as [|x l' IH] using rev_ind; intros H.
  - now rewrite app_nil_r.
  - rewrite app_assoc, dedupInto_snoc, IH.
    + assert (Hx : arrayIncludes seen x || arrayIncludes (l ++ l') x = true).
      { apply orb_true_iff.
        destruct (H x) as [Hx | Hx]; [apply in_or_app; right; now left| |].
        - right. apply arrayIncludes_In, in_or_app. now left.
        - left. now apply arrayIncludes_In. }
      rewrite Hx. apply app_nil_r.
    + intros y Hy. apply H, in_or_app. now left.
Qed.

Lemma setSpread_requeue l l' : incl l' l -> setSpread (l ++ l') = setSpread l.
Proof.
  intros H. apply dedupInto_app_seen. intros x Hx. left. now apply H.
Qed.

(** X13. Queueing names that are already in the list changes nothing of
    what the flush does: the installer call is the same with and without
    the second [addToInstallList], since the list is read through a set
    that keeps the place of the first occurrence. *)
Theorem addToInstallList_requeue regular dev w c :
  config w = Some c ->
  incl regular (installList_regular w) ->
  incl dev (installList_dev w) ->
  exists w1 w2,
    installPackagesFromList w = Ok w1
    /\ installPackagesFromList (addToInstallList regular dev w) = Ok w2
    /\ calls w2 = calls w1.
Proof.
  intros Hc Hr Hd. unfold installPackagesFromList, readConfigFile.
  cbn [config addToInstallList installList_regular installList_dev].
  rewrite Hc. cbn [bind].
  rewrite (setSpread_requeue _ _ Hr), (setSpread_requeue _ _ Hd).
  rewrite !length_app.
  assert (Hr0 : installList_regular w = [] -> regular = [])
    by (intros E; rewrite E in Hr; now apply incl_l_nil).
  assert (Hd0 : installList_dev w = [] -> dev = [])
    by (intros E; rewrite E in Hd; now apply incl_l_nil).
  destruct (installList_regular w) as [|r rs];
    destruct (installList_dev w) as [|d ds];
    rewrite ?(Hr0 eq_refl), ?(Hd0 eq_refl); cbn [length Nat.add Nat.eqb andb];
    eexists; eexists; repeat split.
Qed.

Lemma addToInstallList_requeue_witness :
  exists w1 w2,
    installPackagesFromList
      (addToInstallList [str "zod"; str "tsx"] [] (emptyWorld sampleConfig))
    = Ok w1
    /\ installPackagesFromList
         (addToInstallList [str "tsx"; str "tsx"; str "zod"] []
            (addToInstallList [str "zod"; str "tsx"] []
               (emptyWorld sampleConfig)))
       = Ok w2
    /\ calls w2 = calls w1.
Proof.
  apply (addToInstallList_requeue [str "tsx"; str "tsx"; str "zod"] []
           (addToInstallList [str "zod"; str "tsx"] []
              (emptyWorld sampleConfig)) sampleConfig).
  - reflexivity.
  - intros x Hx. cbn in Hx |- *. tauto.
  - intros x [].
Defined.

(** ** The reporter: when it fails, and the shape of what it prints *)

(** The instruction lines: one per provider, or a [TypeError] at the first
    provider for which the read [AuthProviders[provider]] gives
    [undefined]. *)
Lemma authProviderInstructions_cases AuthProviders r :
  match authProviderInstructions AuthProviders r with
  | Ok lines =>
      forall ps, authProviders r = Some ps ->
        length lines = length ps
        /\ forall p, In p ps -> AuthProviders p <> None
  | Throw e =>
      e = TypeError
      /\ exists ps p,
           authProviders r = Some ps /\ In p ps /\ AuthProviders p = None
  end.
Proof.
  unfold authProviderInstructions.
  destruct (authProviders r) as [[|p0 ps0]|] eqn:Ep.
  - intros ps [= <-]. split; [reflexivity|]. intros p [].
  - set (F := fun provider : jsstring => _).
    assert (H : forall l,
               match mapM F l with
               | Ok lines =>
                   length lines = length l
                   /\ forall p, In p l -> AuthProviders p <> None
               | Throw e =>
                   e = TypeError
                   /\ exists p, In p l /\ AuthProviders p = None
               end).
    { induction l as [|p l IH]; cbn [mapM].
      - split; [reflexivity|]. intros p [].
      - unfold F at 1. destruct (AuthProviders p) as [site|] eqn:Es;
          cbn [bind].
        + destruct (mapM F l) as [lines|e]; cbn [bind].
          * destruct IH as [IH1 IH2]. split; [cbn; now rewrite IH1|].
            intros q [<-|Hq]; [congruence|now apply IH2].
          * destruct IH as [IH1 (q & Hq & Hn)]. split; [exact IH1|].
            exists q. split; [now right|exact Hn].
        + split; [reflexivity|]. exists p. split; [now left|exact Es]. }
    specialize (H (p0 :: ps0)).
    destruct (mapM F (p0 :: ps0)) as [lines|e].
    + intros ps [= <-]. exact H.
    + destruct H as [H1 (q & Hq & Hn)]. split; [exact H1|].
      now exists (p0 :: ps0), q.
  - intros ps [=].
Qed.


(** A provider named "toString" is not a key of the sample table and is
    found on its prototype: the reporter returns, and the note prints
    "undefined" for the website. *)
Example printNextSteps_inherited_name :
  summary plainChalk sampleAuthProviders (Some sampleConfig)
    {| orm := None;
       db := None;
       dbProvider := None;
       auth := None;
       authProviders := Some [str "toString"];
       miscPackages := Some [];
       componentLib := None |}
  = Ok {| installed := [];
          steps := [str "Build something awesome!"];
          summaryNotes :=
            [ str "toString auth: create credentials at undefined" ++ nl
              ++ str "  (redirect URI: /api/auth/callback/toString)";
              issueNote ] |}.
Proof. reflexivity. Qed.

Lemma summary_inv chalk AuthProviders c r s :
  summary chalk AuthProviders c r = Ok s ->
  exists misc lines,
    miscPackages r = Some misc
    /\ authProviderInstructions AuthProviders r = Ok lines
    /\ packagesInstalledList chalk r = Ok (installed s)
    /\ steps s = nextSteps (ppmOf c) r misc
    /\ summaryNotes s = lines ++ [issueNote].
Proof.
  unfold summary, notes.
  destruct (packagesInstalledList chalk r) as [l|]; [|discriminate].
  destruct (miscPackages r) as [misc|]; [|discriminate].
  destruct (authProviderInstructions AuthProviders r) as [lines|];
    [|discriminate].
  cbn [bind array]. intros [= <-]. exists misc, lines. repeat split.
Qed.

(** X15. The notes handed to [showNextSteps] are never empty: they end with
    the issue-reporting note, after one instruction line per auth provider
    of the selections (whatever the authentication selected), so the
    summary printed by [printNextSteps] always has its Notes section; the
    empty alternative of line 317 is not taken. *)
Theorem printNextSteps_notes chalk AuthProviders seconds r duration w w' :
  printNextSteps chalk AuthProviders seconds r duration w = Ok w' ->
  exists s lines,
    summary chalk AuthProviders (config w) r = Ok s
    /\ summaryNotes s = lines ++ [issueNote]
    /\ length lines
       = length (match authProviders r with Some ps => ps | None => [] end)
    /\ calls w'
       = ConsolaBox
           (rocket
            ++ str " Thanks for using Kirimase to kickstart your Next.js app!"
            ++ nl ++ nl
            ++ formatInstallList (installed s) ++ nl ++ nl
            ++ bgGreen_black chalk
                 (str "[installed and configured in just "
                  ++ seconds duration ++ str " seconds]")
            ++ nl
            ++ createNextStepsList chalk (steps s) ++ nl
            ++ createNotesList chalk (summaryNotes s)
            ++ nl)
         :: calls w.
Proof.
  unfold printNextSteps.
  destruct (summary chalk AuthProviders (config w) r) as [s|] eqn:Es;
    [|discriminate].
  cbn [bind]. intros [= <-].
  destruct (summary_inv _ _ _ _ _ Es) as (misc & lines & Hm & Hl & _ & _ & Hn).
  exists s, lines. split; [reflexivity|]. split; [exact Hn|]. split.
  - pose proof (authProviderInstructions_cases AuthProviders r) as Hc.
    rewrite Hl in Hc.
    destruct (authProviders r) as [ps|] eqn:Ep.
    + now apply (Hc ps).
    + unfold authProviderInstructions in Hl. rewrite Ep in Hl.
      now injection Hl as <-.
  - unfold showNextSteps. cbn [calls call]. rewrite Hn, length_app.
    cbn [length]. replace (0 <? length lines + 1) with true; [reflexivity|].
    symmetry. apply Nat.ltb_lt. lia.
Qed.

Lemma printNextSteps_notes_witness :
  exists s lines,
    summary plainChalk sampleAuthProviders (config (emptyWorld sampleConfig))
      noSelections = Ok s
    /\ summaryNotes s = lines ++ [issueNote]
    /\ length lines
       = length (match authProviders noSelections with
                 | Some ps => ps
                 | None => []
                 end)
    /\ calls (showNextSteps plainChalk (fun _ => str "0.5")
                {| installed := [];
                   steps := [str "Build something awesome!"];
                   summaryNotes := [issueNote] |}
                500 (emptyWorld sampleConfig))
       = ConsolaBox
           (rocket
            ++ str " Thanks for using Kirimase to kickstart your Next.js app!"
            ++ nl ++ nl
            ++ formatInstallList (installed s) ++ nl ++ nl
            ++ bgGreen_black plainChalk
                 (str "[installed and configured in just "
                  ++ str "0.5" ++ str " seconds]")
            ++ nl
            ++ createNextStepsList plainChalk (steps s) ++ nl
            ++ createNotesList plainChalk (summaryNotes s)
            ++ nl)
         :: calls (emptyWorld sampleConfig).
Proof.
  apply (printNextSteps_notes plainChalk sampleAuthProviders
           (fun _ => str "0.5") noSelections 500 (emptyWorld sampleConfig)).
  reflexivity.
Defined.

(** X16. The next steps come in three shapes and no other: the closing step
    alone; the environment step and the closing step; or the environment
    step, the four migration steps and the closing step. The migration
    steps never come without the environment step, since whatever asks for
    a migration (an ORM, lucia, next-auth, stripe) also counts as having
    secrets. *)
Theorem printNextSteps_steps chalk AuthProviders c r s :
  summary chalk AuthProviders c r = Ok s ->
  exists misc,
    miscPackages r = Some misc
    /\ steps s
       = if runMigration r misc
         then str "Add Environment Variables to your .env"
              :: dbMigration (ppmOf c) r ++ [str "Build something awesome!"]
         else if wouldHaveSecrets r misc
              then [str "Add Environment Variables to your .env";
                    str "Build something awesome!"]
              else [str "Build something awesome!"].
Proof.
  intros Hs.
  destruct (summary_inv _ _ _ _ _ Hs) as (misc & lines & Hm & _ & _ & H & _).
  exists misc. split; [exact Hm|]. rewrite H. unfold nextSteps.
  assert (Himp : runMigration r misc = true -> wouldHaveSecrets r misc = true).
  { unfold runMigration, wouldHaveSecrets, authIs.
    destruct (orm r), (auth r) as [[]|],
      (arrayIncludes misc (str "resend")),
      (arrayIncludes misc (str "stripe")); cbn; congruence. }
  destruct (runMigration r misc).
  - now rewrite (Himp eq_refl).
  - now destruct (wouldHaveSecrets r misc).
Qed.

Lemma printNextSteps_steps_witness :
  exists misc,
    miscPackages sampleSelections = Some misc
    /\ [str "Add Environment Variables to your .env";
        str "Run 'pnpm run db:generate'";
        str "Run 'pnpm run db:push'";
        str "Run 'pnpm run dev'";
        str "Open localhost:3000/ in your browser";
        str "Build something awesome!"]
       = if runMigration sampleSelections misc
         then str "Add Environment Variables to your .env"
              :: dbMigration (ppmOf (Some sampleConfig)) sampleSelections
                 ++ [str "Build something awesome!"]
         else if wouldHaveSecrets sampleSelections misc
              then [str "Add Environment Variables to your .env";
                    str "Build something awesome!"]
              else [str "Build something awesome!"].
Proof.
  apply (printNextSteps_steps plainChalk sampleAuthProviders
           (Some sampleConfig) sampleSelections
           {| installed :=
                [str "ORM: Drizzle (using pg)";
                 str "Authentication: Auth.js (with google providers)";
                 str "RPC: tRPC";
                 str "Component Library: ShadcnUI"];
              steps :=
                [str "Add Environment Variables to your .env";
                 str "Run 'pnpm run db:generate'";
                 str "Run 'pnpm run db:push'";
                 str "Run 'pnpm run dev'";
                 str "Open localhost:3000/ in your browser";
                 str "Build something awesome!"];
              summaryNotes :=
                [str "google auth: create credentials at " ++ sampleWebsite
                 ++ nl ++ str "  (redirect URI: /api/auth/callback/google)";
                 issueNote] |}).
  reflexivity.
Defined.

Lemma arrayIncludes_ext m m' x :
  (forall y, In y m <-> In y m') -> arrayIncludes m x = arrayIncludes m' x.
Proof.
  intros H. destruct (arrayIncludes m' x) eqn:E.
  - apply arrayIncludes_In. apply H. now apply arrayIncludes_In.
  - apply arrayIncludes_notIn. intros Hx. apply H in Hx.
    apply arrayIncludes_In in Hx. congruence.
Qed.

(** X17. [miscPackages] is read as a set: two arrays with the same elements,
    in any order and with any repetitions, give the same three lists (one
    line per package, the same steps), while [authProviders] is printed
    element by element. *)
Theorem summary_misc_as_set chalk AuthProviders c r m m' :
  (forall x, In x m <-> In x m') ->
  summary chalk AuthProviders c (withMisc m r)
  = summary chalk AuthProviders c (withMisc m' r).
Proof.
  intros H.
  unfold summary, packagesInstalledList, nextSteps, wouldHaveSecrets,
    runMigration, notes, authProviderInstructions, dbMigration, authIs,
    ormIs, dbIsPg.
  cbn [withMisc miscPackages authProviders auth orm db dbProvider componentLib
       array bind].
  now rewrite !(arrayIncludes_ext m m' _ H).
Qed.

Lemma summary_misc_as_set_witness :
  summary plainChalk sampleAuthProviders (Some sampleConfig)
    (withMisc [str "trpc"; str "stripe"; str "trpc"] sampleSelections)
  = summary plainChalk sampleAuthProviders (Some sampleConfig)
      (withMisc [str "stripe"; str "trpc"] sampleSelections).
Proof.
  apply (summary_misc_as_set plainChalk sampleAuthProviders
           (Some sampleConfig) sampleSelections
           [str "trpc"; str "stripe"; str "trpc"] [str "stripe"; str "trpc"]).
  intros x. cbn [In]. tauto.
Defined.

(** X18. With nothing selected (no ORM, no authentication, no component
    library, none of stripe, resend and trpc, no auth provider) the reporter
    still prints the whole frame: the heading of the installed packages
    followed by one empty bullet ([join] of the empty list after the
    literal "- " of line 300), the closing step as the only step, numbered
    1, and the issue-reporting note as the only note. *)
Theorem printNextSteps_nothing_selected chalk AuthProviders seconds r misc
  duration w :
  orm r = None ->
  auth r = None ->
  componentLib r = None ->
  miscPackages r = Some misc ->
  arrayIncludes misc (str "stripe") = false ->
  arrayIncludes misc (str "resend") = false ->
  arrayIncludes misc (str "trpc") = false ->
  authProviders r = None \/ authProviders r = Some [] ->
  printNextSteps chalk AuthProviders seconds r duration w
  = Ok (call
          (ConsolaBox
             (rocket
              ++ str " Thanks for using Kirimase to kickstart your Next.js app!"
              ++ nl ++ nl
              ++ str "The following packages are now installed and configured:"
              ++ nl ++ str "- " ++ nl ++ nl
              ++ bgGreen_black chalk
                   (str "[installed and configured in just "
                    ++ seconds duration ++ str " seconds]")
              ++ nl ++ nl
              ++ bold_underline chalk (str "Next Steps") ++ nl
              ++ str "1. Build something awesome!" ++ nl ++ nl
              ++ bold_underline chalk (str "Notes") ++ nl
              ++ str "- " ++ issueNote ++ nl))
          w).
Proof.
  intros Ho Ha Hl Hm H1 H2 H3 Hp.
  assert (Hn : authProviderInstructions AuthProviders r = Ok [])
    by (unfold authProviderInstructions; destruct Hp as [-> | ->]; reflexivity).
  unfold printNextSteps, summary, packagesInstalledList, notes, nextSteps,
    wouldHaveSecrets, runMigration, authIs, ormIs.
  rewrite Hn, Ho, Ha, Hl, Hm. cbn [array bind]. rewrite H1, H2, H3.
  cbn [isSome orb when app bind].
  unfold showNextSteps, formatInstallList, createNextStepsList,
    createNotesList.
  cbn [installed steps summaryNotes length Nat.ltb Nat.leb join map
       mapi_from].
  f_equal. f_equal. f_equal.
  now rewrite <- !app_assoc.
Qed.

Lemma printNextSteps_nothing_selected_witness :
  printNextSteps plainChalk sampleAuthProviders (fun _ => str "0.5")
    noSelections 500 (emptyWorld sampleConfig)
  = Ok (call
          (ConsolaBox
             (rocket
              ++ str " Thanks for using Kirimase to kickstart your Next.js app!"
              ++ nl ++ nl
              ++ str "The following packages are now installed and configured:"
              ++ nl ++ str "- " ++ nl ++ nl
              ++ str "[installed and configured in just 0.5 seconds]"
              ++ nl ++ nl
              ++ str "Next Steps" ++ nl
              ++ str "1. Build something awesome!" ++ nl ++ nl
              ++ str "Notes" ++ nl
              ++ str "- " ++ issueNote ++ nl))
          (emptyWorld sampleConfig)).
Proof.
  apply (printNextSteps_nothing_selected plainChalk sampleAuthProviders
           (fun _ => str "0.5") noSelections [] 500
           (emptyWorld sampleConfig)); try reflexivity.
  now left.
Defined.

(** ** A run of providers, run again *)

Lemma startsIn_split w y pat :
  startsIn w y pat = true ->
  exists w0 t, w = w0 ++ t /\ t <> [] /\ startsWith (t ++ y) pat = true.
Proof.
  induction w as [|c w IH]; [discriminate|]. cbn [startsIn].
  intros H. apply orb_true_iff in H as [H|H].
  - exists [], (c :: w). repeat split; [discriminate|exact H].
  - destruct (IH H) as (w0 & t & -> & Ht & Hs).
    now exists (c :: w0), t.
Qed.

(** The anchors hold no "im", do not end with "i" and hold no ";": no
    occurrence of an anchor runs into an import statement or out of one. *)
Lemma searchValue_apart b :
  adjacent (searchValue b) "i"%char "m"%char = false
  /\ (forall s0, searchValue b <> s0 ++ ["i"%char])
  /\ ~ In ";"%char (searchValue b).
Proof.
  repeat split.
  - now destruct b.
  - intros s0 H. apply (f_equal (fun l => last l " "%char)) in H.
    rewrite last_last in H. destruct b; discriminate.
  - destruct b; cbn; intros H;
      repeat (destruct H as [H|H]; [discriminate H|]); exact H.
Qed.

(** Replacing the anchor leaves an import statement of the document in
    place. *)
Lemma replace_keeps_import a fp X b rep s :
  includes (importStatement a fp X) childrenText = false ->
  includes s (importStatement a fp X) = true ->
  includes (replace s (searchValue b) rep) (importStatement a fp X) = true.
Proof.
  intros Hch Hs. set (m := importStatement a fp X) in *.
  destruct (searchValue_apart b) as (F1 & F2 & F3).
  destruct (includes_inv _ _ Hs) as (u & v & ->).
  destruct (includes u (searchValue b)) eqn:Eu.
  { rewrite replace_in_l by assumption.
    apply includes_app_r, includes_app_l, includes_refl. }
  assert (Hu : startsIn u (m ++ v) (searchValue b) = false).
  { destruct (startsIn u (m ++ v) (searchValue b)) eqn:E; [|reflexivity].
    exfalso. destruct (startsIn_split _ _ _ E) as (u0 & t & -> & Ht & Hst).
    destruct (startsWith_app_cases _ _ _ Hst) as [H | (q & Hq & Hqne & Hq')].
    - apply includes_startsWith in H.
      now rewrite (includes_app_r u0 _ _ H) in Eu.
    - destruct (importStatement_im a fp X) as [r Hr]. fold m in Hr.
      rewrite Hr in Hq'. destruct q as [|c1 [|c2 q]]; [congruence| |].
      + cbn [app startsWith] in Hq'. apply andb_true_iff in Hq' as [Hc _].
        apply Ascii.eqb_eq in Hc. subst c1. now apply (F2 t).
      + cbn [app startsWith] in Hq'. apply andb_true_iff in Hq' as [Hc1 Hq'].
        apply andb_true_iff in Hq' as [Hc2 _].
        apply Ascii.eqb_eq in Hc1, Hc2. subst c1 c2.
        rewrite Hq, adjacent_mid in F1. discriminate. }
  assert (Hm : startsIn m v (searchValue b) = false).
  { destruct (startsIn m v (searchValue b)) eqn:E; [|reflexivity].
    exfalso. destruct (startsIn_split _ _ _ E) as (m0 & t & Hmt & Ht & Hst).
    destruct (startsWith_app_cases _ _ _ Hst) as [H | (q & Hq & Hqne & Hq')].
    - apply includes_startsWith in H.
      assert (Hin : includes m (searchValue b) = true)
        by (rewrite Hmt; now apply includes_app_r).
      rewrite (includes_trans _ _ _ Hin (searchValue_has_children b)) in Hch.
      discriminate.
    - destruct (importStatement_last a fp X) as [m1 Hm1]. fold m in Hm1.
      destruct (exists_last Ht) as (t0 & d & ->).
      rewrite Hm1, app_assoc in Hmt. apply app_inj_tail in Hmt as [_ <-].
      apply F3. rewrite Hq. apply in_or_app. left. apply in_or_app. right.
      now left. }
  rewrite replace_skip by assumption. rewrite replace_skip by assumption.
  apply includes_app_r, includes_app_l, includes_refl.
Qed.

(** Inserting the import line leaves an import statement of the document
    in place. *)
Lemma insert_keeps_import a fp p X doc :
  plainPaths a fp = true ->
  includes doc (importStatement a fp X) = true ->
  includes (modifiedImportContent a fp p doc) (importStatement a fp X) = true.
Proof.
  intros Hplain H. unfold modifiedImportContent.
  rewrite <- (before_after doc) in H.
  destruct (afterImport_no_import doc) as [H0 | Hy].
  { rewrite H0 in *. cbn [app] in *. now apply includes_app_r, includes_app_r. }
  destruct (beforeImport_shape doc) as [H0 | [x0 Hx]].
  { rewrite H0 in *. cbn [app] in *. now apply includes_app_r, includes_app_r. }
  rewrite Hx in *. rewrite <- app_assoc in H.
  rewrite includes_break in H;
    [|now apply clearOf_no_import|apply importStatement_nonempty].
  assert (Hya : includes (afterImport doc) (importStatement a fp X) = false).
  { apply occurrences_0_iff. now apply no_import_no_statement. }
  rewrite Hya, orb_false_r in H.
  now apply includes_app_l, includes_app_l.
Qed.

Lemma patched_keeps_import a fp p X doc :
  plainPaths a fp = true ->
  includes (importStatement a fp X) childrenText = false ->
  includes doc (importStatement a fp X) = true ->
  includes (patched a fp p doc) (importStatement a fp X) = true.
Proof.
  intros Hplain Hch H. unfold patched.
  destruct (includes doc (importStatement a fp p)); [exact H|].
  unfold newLayoutContent.
  apply replace_keeps_import; [exact Hch|].
  now apply insert_keeps_import.
Qed.

Lemma patchedAll_keeps_import a fp ps X doc :
  plainPaths a fp = true ->
  includes (importStatement a fp X) childrenText = false ->
  includes doc (importStatement a fp X) = true ->
  includes (patchedAll a fp ps doc) (importStatement a fp X) = true.
Proof.
  intros Hplain Hch. revert doc.
  induction ps as [|p ps IH]; intros doc H; [exact H|].
  cbn [patchedAll]. apply IH. now apply patched_keeps_import.
Qed.

Lemma patched_has_import a fp p doc :
  includes (importStatement a fp p) childrenText = false ->
  includes (patched a fp p doc) (importStatement a fp p) = true.
Proof.
  intros Hch. unfold patched.
  destruct (includes doc (importStatement a fp p)) eqn:E; [exact E|].
  now apply import_survives.
Qed.

Lemma patchedAll_has_imports a fp ps doc :
  plainPaths a fp = true ->
  importsAvoidAnchor a fp = true ->
  forallb (fun p => includes (patchedAll a fp ps doc) (importStatement a fp p))
    ps = true.
Proof.
  intros Hplain Havoid. revert doc.
  induction ps as [|p ps IH]; intros doc; [reflexivity|].
  cbn [patchedAll forallb]. rewrite IH, andb_true_r.
  apply patchedAll_keeps_import;
    [assumption|now apply importsAvoidAnchor_inv|].
  apply patched_has_import. now apply importsAvoidAnchor_inv.
Qed.

(** With every import statement of the run in the layout, the run returns
    the world it was given. *)
Lemma applyProviders_present fp ps w c doc :
  config w = Some c ->
  disk w (layoutPath c) = Some doc ->
  forallb (fun p => includes doc (importStatement (alias c) fp p)) ps = true ->
  applyProviders fp ps w = Ok w.
Proof.
  intros Hc Hd. induction ps as [|p ps IH]; [reflexivity|].
  cbn [forallb applyProviders]. intros H.
  apply andb_true_iff in H as [Hp Hps].
  rewrite (addContextProviderToLayout_run fp p w c doc Hc Hd), Hp.
  cbn [bind]. now apply IH.
Qed.

(** X19. Running a list of providers a second time changes nothing: after
    the first pass the layout holds the import statement of every provider
    of the list (a later run neither cuts nor replaces the import statement
    of an earlier one), so every run of the second pass returns at line
    107 and the world is returned as it was. The paths are supposed to
    hold no line feed and the import statements not to hold the children
    placeholder. *)
Theorem applyProviders_idempotent fp ps w c doc :
  config w = Some c ->
  disk w (layoutPath c) = Some doc ->
  plainPaths (alias c) fp = true ->
  importsAvoidAnchor (alias c) fp = true ->
  exists w1 doc1,
    applyProviders fp ps w = Ok w1
    /\ disk w1 (layoutPath c) = Some doc1
    /\ forallb (fun p => includes doc1 (importStatement (alias c) fp p)) ps
       = true
    /\ applyProviders fp ps w1 = Ok w1.
Proof.
  intros Hc Hd Hplain Havoid.
  destruct (applyProviders_patchedAll fp ps w c doc Hc Hd)
    as (w1 & Hr & Hc1 & Hd1).
  exists w1, (patchedAll (alias c) fp ps doc).
  pose proof (patchedAll_has_imports (alias c) fp ps doc Hplain Havoid) as H.
  repeat split; try assumption.
  now apply (applyProviders_present fp ps w1 c _ Hc1 Hd1).
Qed.

Lemma applyProviders_idempotent_witness :
  exists w1 doc1,
    applyProviders samplePaths
      [ThemeProvider; Navbar; TrpcProvider; ShadcnToast; ThemeProvider]
      (layoutWorld sampleConfig sampleLayout) = Ok w1
    /\ disk w1 (layoutPath sampleConfig) = Some doc1
    /\ forallb
         (fun p =>
            includes doc1 (importStatement (alias sampleConfig) samplePaths p))
         [ThemeProvider; Navbar; TrpcProvider; ShadcnToast; ThemeProvider]
       = true
    /\ applyProviders samplePaths
         [ThemeProvider; Navbar; TrpcProvider; ShadcnToast; ThemeProvider] w1
       = Ok w1.
Proof.
  apply (applyProviders_idempotent samplePaths
           [ThemeProvider; Navbar; TrpcProvider; ShadcnToast; ThemeProvider]
           (layoutWorld sampleConfig sampleLayout) sampleConfig sampleLayout);
    reflexivity.
Defined.

(** ** Any number of providers in a row *)

Lemma anchor_first c1 rest :
  includes c1 childrenText = false ->
  startsIn c1 (childrenText ++ rest) childrenText = false.
Proof.
  intros H. destruct (startsIn c1 (childrenText ++ rest) childrenText) eqn:E;
    [|reflexivity].
  destruct (startsIn_cases _ _ _ E) as [H' | (w0 & x & y & y0 & _ & Hy & Hadj)];
    [congruence|].
  injection Hy as <- _. cbn in Hadj. rewrite ?andb_false_r in Hadj.
  discriminate.
Qed.

Lemma importsAvoidMarker_inv a fp p :
  importsAvoidMarker a fp = true ->
  includes (importStatement a fp p) navbarMarker = false.
Proof.
  unfold importsAvoidMarker. rewrite forallb_forall. intros H.
  apply negb_true_iff, H. destruct p; cbn; tauto.
Qed.

Lemma not_Navbar_cases p :
  p <> Navbar -> wrapping p = true \/ p = ShadcnToast.
Proof. destruct p; intros H; try (now left); try (now right); congruence. Qed.

(** The parts put around the placeholder hold no placeholder before it and
    bring no navigation marker. *)
Lemma wrapOpen_keeps_first p c1 :
  p <> Navbar ->
  includes c1 childrenText = false ->
  includes (c1 ++ wrapOpen p) childrenText = false.
Proof.
  intros Hp H. destruct (not_Navbar_cases p Hp) as [Hw | ->].
  - destruct (wrapping_shape p Hw) as (Ho & _ & _). rewrite Ho.
    rewrite <- (app_nil_r (elemOpen p)).
    rewrite includes_break; [|now apply clearOf_plain|discriminate].
    rewrite H, app_nil_r. destruct p; try discriminate; reflexivity.
  - cbn [wrapOpen]. now rewrite app_nil_r.
Qed.

Lemma body_marker_absent p c1 c2 :
  p <> Navbar ->
  includes (c1 ++ childrenText ++ c2) navbarMarker = false ->
  includes (c1 ++ wrapOpen p ++ childrenText ++ wrapClose p ++ c2)
    navbarMarker = false.
Proof.
  intros Hp H.
  assert (Hc : forall v, clearOf v navbarMarker = true)
    by (intros v; now apply clearOf_plain).
  assert (Hne : navbarMarker <> []) by discriminate.
  destruct (not_Navbar_cases p Hp) as [Hw | ->].
  - destruct (wrapping_shape p Hw) as (Ho & Hcl & _).
    destruct (wrapping_core p Hw) as (_ & Hcore & _).
    apply includes_app_false in H as [H1 H2].
    apply includes_app_false in H2 as [_ H2].
    rewrite Ho, Hcl.
    replace (c1 ++ (nl ++ elemOpen p) ++ childrenText
             ++ (elemClose p ++ nl) ++ c2)
      with (c1 ++ nl ++ ((elemOpen p ++ childrenText ++ elemClose p)
                         ++ nl ++ c2))
      by now rewrite <- !app_assoc.
    rewrite !includes_break by auto. now rewrite H1, Hcore, H2.
  - rewrite app_assoc in H. apply includes_app_false in H as [H1 H2].
    cbn [wrapOpen wrapClose].
    replace (c1 ++ [] ++ childrenText ++ (nl ++ str "<Toaster />" ++ nl) ++ c2)
      with ((c1 ++ childrenText) ++ nl ++ (str "<Toaster />" ++ nl ++ c2))
      by now rewrite <- !app_assoc.
    rewrite !includes_break by auto. now rewrite H1, H2.
Qed.

Section Nesting.

Variables (a : jsstring) (fp : ImportPaths).

Hypothesis plain : plainPaths a fp = true.
Hypothesis avoid_anchor : importsAvoidAnchor a fp = true.
Hypothesis avoid_marker : importsAvoidMarker a fp = true.

(** One run, for a provider other than Navbar whose import is absent. *)
Lemma nest_step p doc blk c1 c2 :
  p <> Navbar ->
  includes doc (importStatement a fp p) = false ->
  layoutDocument doc blk (c1 ++ childrenText ++ c2) ->
  includes c1 childrenText = false ->
  includes doc navbarMarker = false ->
  patched a fp p doc
  = (blk ++ importStatement a fp p ++ nl)
    ++ (c1 ++ wrapOpen p) ++ childrenText ++ wrapClose p ++ c2
  /\ layoutDocument (patched a fp p doc) (blk ++ importStatement a fp p ++ nl)
       ((c1 ++ wrapOpen p) ++ childrenText ++ wrapClose p ++ c2)
  /\ includes (c1 ++ wrapOpen p) childrenText = false
  /\ includes (patched a fp p doc) navbarMarker = false
  /\ forall X,
       occurrences (patched a fp p doc) (importStatement a fp X)
       = occurrences doc (importStatement a fp X)
         + occurrences (importStatement a fp p) (importStatement a fp X).
Proof.
  intros Hp Hm Hl Hc1 Hnav.
  pose proof (importsAvoidAnchor_inv a fp p avoid_anchor) as Hch.
  assert (Hb : c1 ++ childrenText ++ c2
               = c1 ++ searchValue (includes doc navbarMarker) ++ c2)
    by now rewrite Hnav.
  assert (Hf : startsIn c1 (searchValue (includes doc navbarMarker) ++ c2)
                 (searchValue (includes doc navbarMarker)) = false)
    by (rewrite Hnav; now apply anchor_first).
  destruct (patch_layoutDocument a fp p plain Hch doc blk _ c1 c2 Hl Hb Hf)
    as [Heq Hl'].
  pose proof (fun X => patch_occurrences a fp p X doc blk _ c1 c2 plain Hch
                         Hl Hb Hf) as Hocc.
  rewrite Hnav, (replacementText_shape p false Hp) in Heq, Hl'.
  cbn [rootChildrenText negb] in Heq, Hl'.
  assert (Hpatched : patched a fp p doc = newLayoutContent a fp p doc)
    by (unfold patched; now rewrite Hm).
  rewrite Hpatched.
  assert (Hbody : c1 ++ (wrapOpen p ++ childrenText ++ wrapClose p) ++ c2
                  = (c1 ++ wrapOpen p) ++ childrenText ++ wrapClose p ++ c2)
    by now rewrite <- !app_assoc.
  rewrite Hbody in Heq, Hl'.
  split; [exact Heq|]. split; [exact Hl'|].
  split; [now apply wrapOpen_keeps_first|]. split; [|exact Hocc].
  destruct Hl as (Hdoc & (pre & line & Hblk & _ & _) & _ & _).
  rewrite Hdoc, Hblk in Hnav.
  replace ((pre ++ line ++ nl) ++ c1 ++ childrenText ++ c2)
    with ((pre ++ line) ++ nl ++ (c1 ++ childrenText ++ c2)) in Hnav
    by now rewrite <- !app_assoc.
  assert (Hc : forall v, clearOf v navbarMarker = true)
    by (intros v; now apply clearOf_plain).
  assert (Hne : navbarMarker <> []) by discriminate.
  rewrite includes_break in Hnav by auto.
  apply orb_false_iff in Hnav as [Hn1 Hn2].
  rewrite Heq, Hblk.
  replace (((pre ++ line ++ nl) ++ importStatement a fp p ++ nl)
           ++ (c1 ++ wrapOpen p) ++ childrenText ++ wrapClose p ++ c2)
    with ((pre ++ line) ++ nl
          ++ (importStatement a fp p ++ nl
              ++ (c1 ++ wrapOpen p ++ childrenText ++ wrapClose p ++ c2)))
    by now rewrite <- !app_assoc.
  rewrite !includes_break by auto.
  rewrite Hn1, (importsAvoidMarker_inv a fp p avoid_marker).
  now rewrite (body_marker_absent p c1 c2 Hp Hn2).
Qed.

(** Any number of runs. *)
Lemma nest_run ps : forall doc blk c1 c2,
  ~ In Navbar ps ->
  importsApart a fp ps = true ->
  importsAbsent a fp ps doc = true ->
  layoutDocument doc blk (c1 ++ childrenText ++ c2) ->
  includes c1 childrenText = false ->
  includes doc navbarMarker = false ->
  patchedAll a fp ps doc
  = blk ++ importLines a fp ps
    ++ c1 ++ opens ps ++ childrenText ++ closes ps ++ c2.
Proof.
  induction ps as [|p ps IH]; intros doc blk c1 c2 Hnb Hap Hab Hl Hc1 Hnav.
  - cbn [patchedAll importLines opens closes app].
    now destruct Hl as (-> & _).
  - cbn [importsApart importsAbsent forallb] in Hap, Hab.
    apply andb_true_iff in Hap as [Hp_ps Hap].
    apply andb_true_iff in Hab as [Hm Hab].
    apply negb_true_iff in Hm.
    assert (Hp : p <> Navbar) by (intros ->; apply Hnb; now left).
    destruct (nest_step p doc blk c1 c2 Hp Hm Hl Hc1 Hnav)
      as (Heq & Hl' & Hc1' & Hnav' & Hocc).
    cbn [patchedAll].
    rewrite (IH (patched a fp p doc) (blk ++ importStatement a fp p ++ nl)
               (c1 ++ wrapOpen p) (wrapClose p ++ c2)); try assumption.
    + cbn [importLines opens closes]. now rewrite <- !app_assoc.
    + intros H. apply Hnb. now right.
    + unfold importsAbsent in *. rewrite forallb_forall in *.
      intros q Hq. apply negb_true_iff, occurrences_0_iff.
      rewrite Hocc.
      specialize (Hab q Hq). specialize (Hp_ps q Hq).
      apply negb_true_iff in Hab, Hp_ps.
      now rewrite !occurrences_absent.
Qed.

End Nesting.

(** X20. On a layout document with the bare placeholder and no navigation
    marker, any run of providers other than [Navbar] whose import statements
    are not in the document (and do not hold one another) nests around the
    first placeholder in the order of the calls: what the first provider
    adds is outermost, what the last adds is next to the placeholder. The
    element of the toast provider therefore ends up inside the wrappers
    applied before it and outside those applied after it. The import lines
    are appended to the import block in the order of the calls. *)
Theorem providers_nest_in_order fp ps w c doc blk body :
  config w = Some c ->
  disk w (layoutPath c) = Some doc ->
  plainPaths (alias c) fp = true ->
  importsAvoidAnchor (alias c) fp = true ->
  importsAvoidMarker (alias c) fp = true ->
  ~ In Navbar ps ->
  importsApart (alias c) fp ps = true ->
  importsAbsent (alias c) fp ps doc = true ->
  layoutDocument doc blk body ->
  includes body childrenText = true ->
  includes doc navbarMarker = false ->
  exists w' c1 c2,
    applyProviders fp ps w = Ok w'
    /\ body = c1 ++ childrenText ++ c2
    /\ includes c1 childrenText = false
    /\ disk w' (layoutPath c)
       = Some (blk ++ importLines (alias c) fp ps
               ++ c1 ++ opens ps ++ childrenText ++ closes ps ++ c2).
Proof.
  intros Hc Hd Hplain Havoid Hmark Hnb Hap Hab Hl Hanchor Hnav.
  destruct (applyProviders_patchedAll fp ps w c doc Hc Hd)
    as (w' & Hr & _ & Hd').
  destruct (replace_first body childrenText [] Hanchor)
    as (c1 & c2 & Hbody & Hfirst & _).
  assert (Hc1 : includes c1 childrenText = false)
    by (apply (first_not_before c1 (childrenText ++ c2) childrenText);
        [discriminate|assumption]).
  exists w', c1, c2. repeat split; try assumption.
  rewrite Hd'. f_equal. rewrite Hbody in Hl.
  now apply nest_run.
Qed.

Lemma providers_nest_in_order_witness :
  exists w' c1 c2,
    applyProviders samplePaths [ClerkProvider; ShadcnToast; ThemeProvider]
      (layoutWorld sampleConfig sampleLayout) = Ok w'
    /\ sampleBody = c1 ++ childrenText ++ c2
    /\ includes c1 childrenText = false
    /\ disk w' (layoutPath sampleConfig)
       = Some (sampleBlock
               ++ importLines (alias sampleConfig) samplePaths
                    [ClerkProvider; ShadcnToast; ThemeProvider]
               ++ c1 ++ opens [ClerkProvider; ShadcnToast; ThemeProvider]
               ++ childrenText
               ++ closes [ClerkProvider; ShadcnToast; ThemeProvider] ++ c2).
Proof.
  apply (providers_nest_in_order samplePaths
           [ClerkProvider; ShadcnToast; ThemeProvider]
           (layoutWorld sampleConfig sampleLayout) sampleConfig sampleLayout
           sampleBlock sampleBody); try reflexivity.
  - intros [H|[H|[H|[]]]]; discriminate.
  - exact sampleLayout_layoutDocument.
Defined.

(** The three runs on the sample layout, written out. *)
Example providers_nest_in_order_sample :
  patchedAll (str "@") samplePaths [ClerkProvider; ShadcnToast; ThemeProvider]
    sampleLayout
  = str "import './globals.css';" ++ nl
    ++ str "import { ClerkProvider } from " ++ dq ++ str "@clerk/nextjs" ++ dq
    ++ str ";" ++ nl
    ++ str "import { Toaster } from " ++ dq ++ str "@/components/ui/toaster"
    ++ dq ++ str ";" ++ nl
    ++ str "import { ThemeProvider } from " ++ dq
    ++ str "@/components/ThemeProvider" ++ dq ++ str ";" ++ nl
    ++ str "export default function RootLayout({ children }) {" ++ nl
    ++ str "return (<html><body>" ++ nl
    ++ str "<ClerkProvider>" ++ nl
    ++ str "<ThemeProvider attribute=" ++ dq ++ str "class" ++ dq
    ++ str " defaultTheme=" ++ dq ++ str "system" ++ dq
    ++ str " enableSystem disableTransitionOnChange>"
    ++ str "{children}"
    ++ str "</ThemeProvider>" ++ nl ++ nl
    ++ str "<Toaster />" ++ nl
    ++ str "</ClerkProvider>" ++ nl
    ++ str "</body></html>);" ++ nl
    ++ str "}" ++ nl.
Proof. vm_compute. reflexivity. Qed.

(** ** The navigation provider and another provider, in either order *)

(** The block put in the place of the first placeholder is the first block
    of the body. *)
Lemma block_first b1 b2 :
  includes b1 childrenText = false ->
  startsIn b1 (navbarBlock ++ b2) navbarBlock = false.
Proof.
  intros Hb1.
  destruct (startsIn b1 (navbarBlock ++ b2) navbarBlock) eqn:E; [|reflexivity].
  exfalso. destruct (startsIn_split _ _ _ E) as (u & t & -> & Ht & Hs).
  apply includes_app_false in Hb1 as [_ Ht1].
  destruct (startsWith_inv _ _ Hs) as [rest Hrest].
  set (N1 := firstn 88 navbarBlock).
  set (N2 := skipn 98 navbarBlock).
  assert (HN : navbarBlock = N1 ++ childrenText ++ N2) by reflexivity.
  assert (HN1 : includes N1 childrenText = false) by reflexivity.
  assert (HN1' : N1 = "<"%char :: tl N1) by reflexivity.
  assert (Hleft : find (t ++ navbarBlock ++ b2) childrenText
                  = Some (length (t ++ N1))).
  { rewrite HN, <- !app_assoc, (app_assoc t N1). apply find_first.
    apply anchor_first. rewrite HN1'.
    rewrite includes_glue_r; [|discriminate|].
    - rewrite <- HN1'. now rewrite Ht1, HN1.
    - cbn. intros H. repeat (destruct H as [H|H]; [discriminate H|]).
      exact H. }
  assert (Hright : find (navbarBlock ++ rest) childrenText
                   = Some (length N1)).
  { rewrite HN, <- !app_assoc. apply find_first. now apply anchor_first. }
  rewrite Hrest, Hright in Hleft. injection Hleft as Hleft.
  rewrite length_app in Hleft. destruct t; [congruence|cbn in Hleft; lia].
Qed.

(** X21. On a layout document with the bare placeholder and no navigation
    marker, the navigation provider and any other provider give the same
    body in either order: the navigation block in the place of the first
    placeholder, with what the other provider adds around the whole block.
    Applied after [Navbar] the other provider replaces the block by its
    replacement text built on the block; applied before, it leaves the
    placeholder for [Navbar] to replace. Only the order of the import lines
    differs. *)
Theorem navbar_commutes_on_body fp p w c doc blk body :
  config w = Some c ->
  disk w (layoutPath c) = Some doc ->
  plainPaths (alias c) fp = true ->
  importsAvoidAnchor (alias c) fp = true ->
  importsAvoidMarker (alias c) fp = true ->
  importsApart (alias c) fp [Navbar; p] = true ->
  importsApart (alias c) fp [p; Navbar] = true ->
  importsAbsent (alias c) fp [Navbar; p] doc = true ->
  layoutDocument doc blk body ->
  includes body childrenText = true ->
  includes doc navbarMarker = false ->
  exists w1 w2 c1 c2,
    applyProviders fp [Navbar; p] w = Ok w1
    /\ applyProviders fp [p; Navbar] w = Ok w2
    /\ body = c1 ++ childrenText ++ c2
    /\ includes c1 childrenText = false
    /\ disk w1 (layoutPath c)
       = Some (blk ++ importLines (alias c) fp [Navbar; p]
               ++ c1 ++ wrapOpen p ++ navbarBlock ++ wrapClose p ++ c2)
    /\ disk w2 (layoutPath c)
       = Some (blk ++ importLines (alias c) fp [p; Navbar]
               ++ c1 ++ wrapOpen p ++ navbarBlock ++ wrapClose p ++ c2).
Proof.
  intros Hc Hd Hplain Havoid Hmark Hap1 Hap2 Hab Hl Hanchor Hnav.
  set (a := alias c) in *.
  cbn [importsApart importsAbsent forallb andb] in Hap1, Hap2, Hab.
  repeat rewrite andb_true_r in Hap1. repeat rewrite andb_true_r in Hap2.
  repeat rewrite andb_true_r in Hab.
  apply andb_true_iff in Hab as [HmN Hmp].
  apply negb_true_iff in Hap1, Hap2, HmN, Hmp.
  assert (Hp : p <> Navbar).
  { intros ->. now rewrite includes_refl in Hap1. }
  destruct (applyProviders_patchedAll fp [Navbar; p] w c doc Hc Hd)
    as (w1 & Hr1 & _ & Hd1).
  destruct (applyProviders_patchedAll fp [p; Navbar] w c doc Hc Hd)
    as (w2 & Hr2 & _ & Hd2).
  destruct (replace_first body childrenText [] Hanchor)
    as (c1 & c2 & Hbody & Hfirst & _).
  assert (Hc1 : includes c1 childrenText = false)
    by (apply (first_not_before c1 (childrenText ++ c2) childrenText);
        [discriminate|assumption]).
  exists w1, w2, c1, c2. repeat split; try assumption.
  - (* Navbar, then p *)
    rewrite Hd1. f_equal. fold a. cbn [patchedAll importLines].
    pose proof (importsAvoidAnchor_inv a fp Navbar Havoid) as HchN.
    pose proof (importsAvoidAnchor_inv a fp p Havoid) as Hchp.
    assert (Hb : body = c1 ++ searchValue (includes doc navbarMarker) ++ c2)
      by now rewrite Hnav.
    assert (Hf : startsIn c1 (searchValue (includes doc navbarMarker) ++ c2)
                   (searchValue (includes doc navbarMarker)) = false)
      by now rewrite Hnav.
    destruct (patch_layoutDocument a fp Navbar Hplain HchN doc blk body c1 c2
                Hl Hb Hf) as [Heq1 Hl1].
    pose proof (patch_occurrences a fp Navbar p doc blk body c1 c2 Hplain
                  HchN Hl Hb Hf) as Hocc.
    rewrite Hnav in Heq1, Hl1. cbn [replacementText] in Heq1, Hl1.
    assert (HpN : patched a fp Navbar doc = newLayoutContent a fp Navbar doc)
      by (unfold patched; now rewrite HmN).
    rewrite HpN. set (d1 := newLayoutContent a fp Navbar doc) in *.
    assert (Hmp1 : includes d1 (importStatement a fp p) = false).
    { apply occurrences_0_iff. rewrite Hocc. now rewrite !occurrences_absent. }
    assert (Hnav1 : includes d1 navbarMarker = true).
    { rewrite Heq1. apply includes_app_r, includes_app_r, includes_app_l.
      exact navbarBlock_has_marker. }
    assert (Hb1 : c1 ++ navbarBlock ++ c2
                  = c1 ++ searchValue (includes d1 navbarMarker) ++ c2)
      by now rewrite Hnav1.
    assert (Hf1 : startsIn c1 (searchValue (includes d1 navbarMarker) ++ c2)
                    (searchValue (includes d1 navbarMarker)) = false)
      by (rewrite Hnav1; now apply block_first).
    destruct (patch_layoutDocument a fp p Hplain Hchp d1 _ _ c1 c2
                Hl1 Hb1 Hf1) as [Heq2 _].
    unfold patched. rewrite Hmp1, Heq2, Hnav1, replacementText_navigation.
    now rewrite <- !app_assoc.
  - (* p, then Navbar *)
    rewrite Hd2. f_equal. fold a. cbn [patchedAll importLines].
    rewrite Hbody in Hl.
    destruct (nest_step a fp Hplain Havoid Hmark p doc blk c1 c2 Hp Hmp Hl
                Hc1 Hnav) as (Heq1 & Hl1 & Hc1' & Hnav1 & Hocc).
    set (d1 := patched a fp p doc) in *.
    assert (HmN1 : includes d1 (importStatement a fp Navbar) = false).
    { apply occurrences_0_iff. rewrite Hocc. now rewrite !occurrences_absent. }
    pose proof (importsAvoidAnchor_inv a fp Navbar Havoid) as HchN.
    assert (Hb1 : (c1 ++ wrapOpen p) ++ childrenText ++ wrapClose p ++ c2
                  = (c1 ++ wrapOpen p)
                    ++ searchValue (includes d1 navbarMarker)
                    ++ wrapClose p ++ c2)
      by now rewrite Hnav1.
    assert (Hf1 : startsIn (c1 ++ wrapOpen p)
                    (searchValue (includes d1 navbarMarker)
                     ++ wrapClose p ++ c2)
                    (searchValue (includes d1 navbarMarker)) = false)
      by (rewrite Hnav1; now apply anchor_first).
    destruct (patch_layoutDocument a fp Navbar Hplain HchN d1 _ _ _ _
                Hl1 Hb1 Hf1) as [Heq2 _].
    unfold patched at 1. rewrite HmN1, Heq2, Hnav1.
    cbn [replacementText]. now rewrite <- !app_assoc.
Qed.

Lemma navbar_commutes_on_body_witness :
  exists w1 w2 c1 c2,
    applyProviders samplePaths [Navbar; ThemeProvider]
      (layoutWorld sampleConfig sampleLayout) = Ok w1
    /\ applyProviders samplePaths [ThemeProvider; Navbar]
         (layoutWorld sampleConfig sampleLayout) = Ok w2
    /\ sampleBody = c1 ++ childrenText ++ c2
    /\ includes c1 childrenText = false
    /\ disk w1 (layoutPath sampleConfig)
       = Some (sampleBlock
               ++ importLines (alias sampleConfig) samplePaths
                    [Navbar; ThemeProvider]
               ++ c1 ++ wrapOpen ThemeProvider ++ navbarBlock
               ++ wrapClose ThemeProvider ++ c2)
    /\ disk w2 (layoutPath sampleConfig)
       = Some (sampleBlock
               ++ importLines (alias sampleConfig) samplePaths
                    [ThemeProvider; Navbar]
               ++ c1 ++ wrapOpen ThemeProvider ++ navbarBlock
               ++ wrapClose ThemeProvider ++ c2).
Proof.
  apply (navbar_commutes_on_body samplePaths ThemeProvider
           (layoutWorld sampleConfig sampleLayout) sampleConfig sampleLayout
           sampleBlock sampleBody); try reflexivity.
  exact sampleLayout_layoutDocument.
Defined.

(** ** The list of installed packages *)

Lemma join_prefixed sep pre l :
  l <> [] ->
  pre ++ join (sep ++ pre) l = join sep (map (fun item => pre ++ item) l).
Proof.
  induction l as [|x l IH]; [congruence|]. intros _.
  destruct l as [|y l]; [reflexivity|].
  change (join (sep ++ pre) (x :: y :: l))
    with (x ++ (sep ++ pre) ++ join (sep ++ pre) (y :: l)).
  change (join sep (map (fun item => pre ++ item) (x :: y :: l)))
    with ((pre ++ x) ++ sep
          ++ join sep (map (fun item => pre ++ item) (y :: l))).
  rewrite <- IH by discriminate. now rewrite <- !app_assoc.
Qed.

(** X22. For a list that is not empty, the installed packages are printed
    one per line, each after "- ", as the notes are: the literal "- " of
    line 300 followed by the join on a line feed and "- " comes to the same
    as prefixing every item and joining on line feeds. (For the empty list
    the two differ: one empty bullet here, nothing there.) *)
Theorem formatInstallList_bullets (l : list jsstring) :
  l <> [] ->
  formatInstallList l
  = str "The following packages are now installed and configured:" ++ nl
    ++ join nl (map (fun item => str "- " ++ item) l).
Proof.
  intros H. unfold formatInstallList. now rewrite join_prefixed.
Qed.

Lemma formatInstallList_bullets_witness :
  formatInstallList [str "ORM: Prisma"; str "RPC: tRPC"]
  = str "The following packages are now installed and configured:" ++ nl
    ++ str "- ORM: Prisma" ++ nl ++ str "- RPC: tRPC".
Proof.
  apply (formatInstallList_bullets [str "ORM: Prisma"; str "RPC: tRPC"]).
  discriminate.
Defined.

(** ** The second line of a two-line import statement *)

Lemma occurrences_app_ge u v pat :
  pat <> [] ->
  occurrences u pat + occurrences v pat <= occurrences (u ++ v) pat.
Proof.
  intros Hp. induction u as [|c u IH]; cbn [app occurrences].
  - destruct pat; [congruence|]. cbn. lia.
  - destruct (startsWith (c :: u) pat) eqn:E.
    + change (c :: u ++ v) with ((c :: u) ++ v).
      rewrite (startsWith_app_l _ v _ E). lia.
    + destruct (startsWith (c :: u ++ v) pat); lia.
Qed.

Lemma occurrences_includes s pat :
  includes s pat = true -> 1 <= occurrences s pat.
Proof.
  intros H. destruct (occurrences s pat) eqn:E; [|lia].
  apply occurrences_0_iff in E. congruence.
Qed.

(** Replacing the anchor loses no occurrence of the line. *)
Lemma replace_keeps_cookiesImport s b rep :
  occurrences s cookiesImport
  <= occurrences (replace s (searchValue b) rep) cookiesImport.
Proof.
  assert (Hne : cookiesImport <> []) by discriminate.
  destruct (includes s (searchValue b)) eqn:Es.
  2:{ now rewrite replace_absent. }
  destruct (replace_first s (searchValue b) rep Es)
    as (pre & post & -> & Hfirst & ->).
  destruct (searchValue_apart b) as (F1 & F2 & _).
  assert (Hs : occurrences (pre ++ searchValue b ++ post) cookiesImport
               = occurrences pre cookiesImport
                 + occurrences post cookiesImport).
  { rewrite occurrences_app_gen; [|assumption|].
    - f_equal. apply occurrences_skip.
      destruct (startsIn (searchValue b) post cookiesImport) eqn:E;
        [|reflexivity].
      destruct (startsIn_head2 _ _ _ _ _ E) as [H | [w0 H]];
        [congruence|now apply F2 in H].
    - intros u0 t _ Ht.
      destruct (startsWith t cookiesImport) eqn:E;
        [now apply startsWith_app_l|].
      destruct (startsWith (t ++ searchValue b ++ post) cookiesImport) eqn:E2;
        [|reflexivity].
      exfalso.
      destruct (startsWith_app_cases _ _ _ E2) as [H | (q & Hq & Hqne & Hsq)];
        [congruence|].
      assert (Hadj : forall x y r,
                 searchValue b = x :: y :: r ->
                 adjacent cookiesImport x y = false)
        by (intros x y r H; destruct b; injection H as <- <- _; reflexivity).
      assert (Hlast : forall x r,
                 searchValue b = x :: r -> last cookiesImport x <> x)
        by (intros x r H; destruct b; injection H as <- _; discriminate).
      destruct q as [|c1 [|c2 q]]; [congruence| |].
      + destruct (searchValue b) as [|x r] eqn:Esv; [now destruct b|].
        cbn [app startsWith] in Hsq. apply andb_true_iff in Hsq as [Hc _].
        apply Ascii.eqb_eq in Hc. subst c1.
        apply (Hlast x r eq_refl). rewrite Hq. apply last_last.
      + destruct (searchValue b) as [|x [|y r]] eqn:Esv;
          [now destruct b|now destruct b|].
        cbn [app startsWith] in Hsq. apply andb_true_iff in Hsq as [Hc1 Hsq].
        apply andb_true_iff in Hsq as [Hc2 _].
        apply Ascii.eqb_eq in Hc1, Hc2. subst c1 c2.
        specialize (Hadj x y r eq_refl).
        rewrite Hq, adjacent_mid in Hadj. discriminate. }
  rewrite Hs.
  pose proof (occurrences_app_ge pre (rep ++ post) cookiesImport Hne).
  pose proof (occurrences_app_ge rep post cookiesImport Hne).
  lia.
Qed.

(** Inserting the import statement of [TrpcProvider] adds an occurrence of
    the line. *)
Lemma insert_adds_cookiesImport a fp doc :
  occurrences doc cookiesImport + 1
  <= occurrences (modifiedImportContent a fp TrpcProvider doc) cookiesImport.
Proof.
  assert (Hne : cookiesImport <> []) by discriminate.
  assert (Hm : 1 <= occurrences (importStatement a fp TrpcProvider)
                      cookiesImport).
  { apply occurrences_includes.
    rewrite (importStatement_lines a fp TrpcProvider).
    apply includes_app_r, includes_refl. }
  unfold modifiedImportContent.
  pose proof (before_after doc) as Hdoc.
  set (x := beforeImport doc) in *. set (y := afterImport doc) in *.
  set (m := importStatement a fp TrpcProvider) in *.
  assert (Hy : occurrences m cookiesImport + occurrences y cookiesImport
               <= occurrences (m ++ nl ++ y) cookiesImport).
  { pose proof (occurrences_app_ge m (nl ++ y) cookiesImport Hne).
    pose proof (occurrences_app_ge nl y cookiesImport Hne). lia. }
  destruct (beforeImport_shape doc) as [Hx | [x0 Hx]]; fold x in Hx;
    clearbody x y m; subst x.
  - cbn [app] in *. subst doc. lia.
  - rewrite <- Hdoc, <- !app_assoc.
    rewrite !occurrences_break; try assumption; try (now apply clearOf_plain).
    lia.
Qed.

(** X23. The presence test of line 105 is on the whole import statement. For
    [TrpcProvider] the statement has two lines; a layout that already
    imports [cookies] from "next/headers", and does not hold both lines in a
    row, gets both lines inserted, so the document written holds the import
    of [cookies] twice. *)
Theorem cookies_import_duplicated fp w c doc :
  config w = Some c ->
  disk w (layoutPath c) = Some doc ->
  includes doc cookiesImport = true ->
  includes doc (importStatement (alias c) fp TrpcProvider) = false ->
  exists w' doc',
    addContextProviderToLayout fp TrpcProvider w = Ok w'
    /\ disk w' (layoutPath c) = Some doc'
    /\ 2 <= occurrences doc' cookiesImport.
Proof.
  intros Hc Hd Hl Hm.
  rewrite (addContextProviderToLayout_run fp TrpcProvider w c doc Hc Hd), Hm.
  eexists. eexists. split; [reflexivity|]. split; [apply disk_replaceFile|].
  unfold newLayoutContent.
  pose proof (replace_keeps_cookiesImport
                (modifiedImportContent (alias c) fp TrpcProvider doc)
                (includes doc navbarMarker)
                (replacementText TrpcProvider (includes doc navbarMarker))).
  pose proof (insert_adds_cookiesImport (alias c) fp doc).
  pose proof (occurrences_includes _ _ Hl). lia.
Qed.

Lemma cookies_import_duplicated_witness :
  exists w' doc',
    addContextProviderToLayout samplePaths TrpcProvider
      (layoutWorld sampleConfig layoutWithCookies) = Ok w'
    /\ disk w' (layoutPath sampleConfig) = Some doc'
    /\ 2 <= occurrences doc' cookiesImport.
Proof.
  apply (cookies_import_duplicated samplePaths
           (layoutWorld sampleConfig layoutWithCookies) sampleConfig
           layoutWithCookies); reflexivity.
Defined.

(** The run on the sample layout that imports [cookies], written out. *)
Example cookies_import_duplicated_sample :
  patched (str "@") samplePaths TrpcProvider layoutWithCookies
  = str "import './globals.css';" ++ nl
    ++ cookiesImport ++ nl
    ++ str "import TrpcProvider from " ++ dq ++ str "@/lib/trpc/Provider"
    ++ dq ++ str ";" ++ nl
    ++ cookiesImport ++ nl
    ++ str "export default function RootLayout({ children }) {" ++ nl
    ++ str "return (<html><body>" ++ nl
    ++ str "<TrpcProvider cookies={cookies().toString()}>{children}"
    ++ str "</TrpcProvider>" ++ nl
    ++ str "</body></html>);" ++ nl
    ++ str "}" ++ nl.
Proof. vm_compute. reflexivity. Qed.
